(** * Speech-Emotion-Recognition-TinyML: the host-side serial ingestion loop

    A shallow embedding of [02_Arduino_Nano_Inference.ipynb] (the host
    notebook) and of the command handler of the streaming sketch that runs
    on the Arduino Nano 33 BLE (the [.ino] file), with the properties of
    the sliding-window refill, the normalisation, the decision step, the
    activation handshake and the round scheduler.

    Conventions of the embedding.
    - A floating-point value is the rational number it stands for, or an
      infinity, or [nan] ([f64]).  Every float64 operation returns the
      exact result rounded to nearest, ties to even ([round binary64]), and
      [astype(np.float16)] rounds once more ([round binary16]); past the
      largest finite number the result is an infinity.  The sign of a zero
      is not kept.  The products of [np.multiply] are kept exact (the
      scores of the interpreter are float32 values and the weights of
      [RECOG_MASK] integers below [2^16]: their products are float64
      values).
    - A serial line is the byte string that one [readline()] call returns;
      the peer prints one decimal integer per line with [Serial.println],
      so the text is ASCII.  [decode] raises on any byte outside ASCII
      (multi-byte UTF-8 text is outside this line protocol).
    - Counts ([buffer_size], [overlapping], [max_attempts], [rounds]) are
      natural numbers, as every call in the notebook passes them.
    - Side effects (serial port, console) are threaded through an explicit
      [world]; a Python exception is the [Raise] outcome. *)

From Stdlib Require Import ZArith QArith Qabs Qminmax Qround Qpower Lia Lqa Ascii String.
From stdpp Require Import base list strings.

Local Open Scope nat_scope.

(** ** Binary floating point: the values and the rounding of IEEE 754 *)

Module Float.

(** A float64 or float16 value: a finite value (a rational that the
    format represents exactly) or one of the non-finite values. *)
Inductive f64 : Type :=
  | Fin (q : Q)
  | Inf (negative : bool)
  | NaN.

(** A binary interchange format: the bits of the significand (with the
    hidden one) and the largest exponent. *)
Record format : Type := { prec : Z; emax : Z }.

Definition binary64 : format := {| prec := 53; emax := 1023 |}.
Definition binary16 : format := {| prec := 11; emax := 15 |}.

(** The exponent of the smallest normal number. *)
Definition emin (fmt : format) : Z := (1 - emax fmt)%Z.

Definition pow2 (k : Z) : Q := Qpower 2 k.

(** For [0 < q], the exponent [e] with [2^e <= q < 2^(e+1)]. *)
Definition ilog2 (q : Q) : Z :=
  let e0 := (Z.log2 (Qnum q) - Z.log2 (Zpos (Qden q)))%Z in
  if Qle_bool (pow2 e0) q then e0 else (e0 - 1)%Z.

(** Round to the nearest integer, ties to the even one. *)
Definition rne (m : Q) : Z :=
  let f := Qfloor m in
  match (m - inject_Z f ?= 1 # 2)%Q with
  | Lt => f
  | Gt => (f + 1)%Z
  | Eq => if Z.even f then f else (f + 1)%Z
  end.

(** The exponent of the unit in the last place of [q] ([0 < q]):
    subnormal numbers share that of the smallest normal one. *)
Definition ulp_exp (fmt : format) (q : Q) : Z :=
  (Z.max (ilog2 q) (emin fmt) - prec fmt + 1)%Z.

(** Rounding of [0 < q] to the nearest multiple of its unit in the last
    place, the exponent unbounded above. *)
Definition round_pos (fmt : format) (q : Q) : Q :=
  let k := ulp_exp fmt q in
  (inject_Z (rne (q / pow2 k)) * pow2 k)%Q.

(** The largest finite number of the format. *)
Definition max_finite (fmt : format) : Q :=
  ((2 - pow2 (1 - prec fmt)) * pow2 (emax fmt))%Q.

(** Round to nearest, ties to even, of a real number: what an operation
    of the format returns for the exact result [q]; past the largest
    finite number the result is an infinity.  The sign of a zero is not
    kept. *)
Definition round (fmt : format) (q : Q) : f64 :=
  if Qeq_bool q 0 then Fin 0
  else if Qle_bool 0 q then
    let r := round_pos fmt q in
    if Qle_bool r (max_finite fmt) then Fin (Qred r) else Inf false
  else
    let r := round_pos fmt (- q) in
    if Qle_bool r (max_finite fmt) then Fin (Qred (- r)) else Inf true.

Definition to_float64 (q : Q) : f64 := round binary64 q.

(** [x.astype(np.float16)] on a float64 scalar. *)
Definition to_float16 (x : f64) : f64 :=
  match x with
  | Fin q => round binary16 q
  | _ => x
  end.

Definition is_neg (q : Q) : bool := negb (Qle_bool 0 q).

Definition f64_neg (x : f64) : f64 :=
  match x with
  | Fin q => Fin (- q)
  | Inf s => Inf (negb s)
  | NaN => NaN
  end.

(** The float64 operations [+], [-], [*] and [/] of NumPy scalars
    (division by zero gives an infinity or [nan], NumPy warns and goes
    on). *)
Definition f64_add (x y : f64) : f64 :=
  match x, y with
  | Fin p, Fin q => to_float64 (p + q)
  | Inf a, Inf b => if Bool.eqb a b then Inf a else NaN
  | Inf a, Fin _ => Inf a
  | Fin _, Inf b => Inf b
  | _, _ => NaN
  end.

Definition f64_sub (x y : f64) : f64 := f64_add x (f64_neg y).

Definition f64_mul (x y : f64) : f64 :=
  match x, y with
  | Fin p, Fin q => to_float64 (p * q)
  | Inf a, Fin q => if Qeq_bool q 0 then NaN else Inf (xorb a (is_neg q))
  | Fin p, Inf b => if Qeq_bool p 0 then NaN else Inf (xorb (is_neg p) b)
  | Inf a, Inf b => Inf (xorb a b)
  | _, _ => NaN
  end.

Definition f64_div (x y : f64) : f64 :=
  match x, y with
  | Fin p, Fin q =>
      if Qeq_bool q 0 then
        if Qeq_bool p 0 then NaN else Inf (is_neg p)
      else to_float64 (p / q)
  | Fin _, Inf _ => Fin 0
  | Inf a, Fin q => Inf (xorb a (is_neg q))
  | _, _ => NaN
  end.

End Float.

Export Float.

(** ** Text: the pieces of [str] and [bytes] that the notebook uses *)

Module Text.

Definition code (c : ascii) : nat := nat_of_ascii c.

Definition is_ascii (c : ascii) : bool := code c <? 128.

Definition is_digit (c : ascii) : bool := (48 <=? code c) && (code c <=? 57).

Definition digit_val (c : ascii) : Z := Z.of_nat (code c - 48).

(** The white space that [int] and [float] skip around ASCII text: TAB,
    LF, VT, FF, CR and the space. *)
Definition is_space (c : ascii) : bool :=
  ((9 <=? code c) && (code c <=? 13)) || (code c =? 32).

(** The characters of the argument of [strip('\r\n')]. *)
Definition is_crlf (c : ascii) : bool :=
  (code c =? 13) || (code c =? 10).

Fixpoint lstrip (p : ascii -> bool) (s : string) : string :=
  match s with
  | EmptyString => EmptyString
  | String c s' => if p c then lstrip p s' else s
  end.

Fixpoint rstrip (p : ascii -> bool) (s : string) : string :=
  match s with
  | EmptyString => EmptyString
  | String c s' =>
      match rstrip p s' with
      | EmptyString => if p c then EmptyString else String c EmptyString
      | r => String c r
      end
  end.

(** [s.strip(chars)]: leading and trailing characters of the set go. *)
Definition strip (p : ascii -> bool) (s : string) : string :=
  rstrip p (lstrip p s).

Definition is_empty (s : string) : bool :=
  match s with EmptyString => true | _ => false end.

Fixpoint all_chars (p : ascii -> bool) (s : string) : bool :=
  match s with
  | EmptyString => true
  | String c s' => p c && all_chars p s'
  end.

(** [bytes.decode("utf-8")] on an ASCII line is the identity; a byte of
    128 or more makes it fail. *)
Definition decode (line : string) : option string :=
  if all_chars is_ascii line then Some line else None.

Definition lower_char (c : ascii) : ascii :=
  if (65 <=? code c) && (code c <=? 90) then ascii_of_nat (code c + 32) else c.

(** [str.lower] on ASCII text. *)
Fixpoint lower (s : string) : string :=
  match s with
  | EmptyString => EmptyString
  | String c s' => String (lower_char c) (lower s')
  end.

(** An optional sign; [true] is minus. *)
Definition sign (s : string) : bool * string :=
  match s with
  | String "-" s' => (true, s')
  | String "+" s' => (false, s')
  | _ => (false, s)
  end.

(** The rest of a [digitpart ::= digit (["_"] digit)*] after its first
    digit: value so far, digits so far, and what follows the group. *)
Fixpoint digitpart_from (acc : Z) (n : nat) (s : string) : Z * nat * string :=
  match s with
  | EmptyString => (acc, n, s)
  | String c s' =>
      if is_digit c then digitpart_from (10 * acc + digit_val c)%Z (S n) s'
      else if (code c =? 95) then
        match s' with
        | String d s'' =>
            if is_digit d
            then digitpart_from (10 * acc + digit_val d)%Z (S n) s''
            else (acc, n, s)
        | EmptyString => (acc, n, s)
        end
      else (acc, n, s)
  end.

Definition digitpart (s : string) : option (Z * nat * string) :=
  match s with
  | String c s' =>
      if is_digit c then Some (digitpart_from (digit_val c) 1 s') else None
  | EmptyString => None
  end.

(** [int(s)] in base 10 on ASCII text: surrounding white space, an optional
    sign, one group of digits.  [None] is [ValueError]. *)
Definition py_int (s : string) : option Z :=
  let (neg, body) := sign (strip is_space s) in
  match digitpart body with
  | Some (v, _, EmptyString) => Some (if neg then (- v)%Z else v)
  | _ => None
  end.

(** [10 ** e] for an integer exponent. *)
Definition pow10 (e : Z) : Q := Qpower (10 # 1) e.

(** [number ::= [digitpart] "." digitpart | digitpart ["."]] of Python's
    float grammar: the value and what follows. *)
Definition number (s : string) : option (Q * string) :=
  match s with
  | String "." s' =>
      match digitpart s' with
      | Some (f, k, rest) => Some ((inject_Z f * pow10 (- Z.of_nat k))%Q, rest)
      | None => None
      end
  | _ =>
      match digitpart s with
      | Some (v, _, String "." s') =>
          match digitpart s' with
          | Some (f, k, rest) =>
              Some ((inject_Z v + inject_Z f * pow10 (- Z.of_nat k))%Q, rest)
          | None => Some (inject_Z v, s')
          end
      | Some (v, _, rest) => Some (inject_Z v, rest)
      | None => None
      end
  end.

(** [exponent ::= ("e" | "E") [sign] digitpart], optional, then the end
    of the text. *)
Definition exponent (s : string) : option Z :=
  match s with
  | EmptyString => Some 0%Z
  | String c s' =>
      if (code c =? 101) || (code c =? 69) then
        let (neg, body) := sign s' in
        match digitpart body with
        | Some (e, _, EmptyString) => Some (if neg then (- e)%Z else e)
        | _ => None
        end
      else None
  end.

(** [float(s)], which is what NumPy applies to a [str] stored into a
    float64 array: the decimal value, correctly rounded ([inf] when it is
    too large).  [None] is [ValueError]. *)
Definition py_float (s : string) : option f64 :=
  let (neg, body) := sign (strip is_space s) in
  let word := lower body in
  if String.eqb word "inf" || String.eqb word "infinity" then Some (Inf neg)
  else if String.eqb word "nan" then Some NaN
  else
    match number body with
    | Some (m, rest) =>
        match exponent rest with
        | Some e =>
            let v := (m * pow10 e)%Q in
            Some (to_float64 (if neg then (- v)%Q else v))
        | None => None
        end
    | None => None
    end.

(** The line terminator of [Serial.println]. *)
Definition crlf : string := String "013" (String "010" EmptyString).

End Text.

Export Text.

(** ** The world: serial port and console *)

Inductive exn : Type :=
  | ValueError
  | IndexError
  | UnicodeDecodeError
  | UnboundLocalError
  | OverflowError.

Inductive outcome (A : Type) : Type :=
  | Return (a : A)
  | Raise (e : exn).
Arguments Return {A} a.
Arguments Raise {A} e.

(** What [print] shows: a line of text or an array of scores. *)
Inductive output : Type :=
  | Message (s : string)
  | Scores (v : list Q).

(** [rx]: what the next [readline()] calls return, in order (an empty
    entry is a read that timed out; once the list is used up every read
    times out).  [tx]: the byte strings written, oldest first.  [stdout]:
    what was printed, oldest first. *)
Record world : Type := World {
  rx : list string;
  tx : list string;
  stdout : list output
}.

Definition M (A : Type) : Type := world -> outcome A * world.

Definition ret {A} (a : A) : M A := fun w => (Return a, w).

Definition raise {A} (e : exn) : M A := fun w => (Raise e, w).

Definition bind {A B} (c : M A) (k : A -> M B) : M B :=
  fun w =>
    match c w with
    | (Return a, w') => k a w'
    | (Raise e, w') => (Raise e, w')
    end.

Notation "'do' x <- c ; k" := (bind c (fun x => k))
  (at level 10, x name, c at level 100, k at level 200).
Notation "'run' c ; k" := (bind c (fun _ => k))
  (at level 10, c at level 100, k at level 200).

(** [arduino.readline()] with the port's one-second timeout. *)
Definition readline : M string :=
  fun w =>
    match rx w with
    | [] => (Return EmptyString, w)
    | line :: rest => (Return line, World rest (tx w) (stdout w))
    end.

(** [arduino.write(data)]. *)
Definition write (data : string) : M unit :=
  fun w => (Return tt, World (rx w) (tx w ++ [data]) (stdout w)).

Definition print (o : output) : M unit :=
  fun w => (Return tt, World (rx w) (tx w) (stdout w ++ [o])).

(** [for i in range(n)], the loop variable starting at [i]: the body
    updates the value carried round the loop. *)
Fixpoint for_range {A} (n i : nat) (body : nat -> A -> M A) (a : A) : M A :=
  match n with
  | 0 => ret a
  | S n' => do a' <- body i a; for_range n' (S i) body a'
  end.

(** ** NumPy *)

(** [np.roll(a, shift)] for a one-dimensional array and [shift >= 0]:
    the element at [i] moves to [(i + shift) mod len(a)]. *)
Definition np_roll {A} (a : list A) (shift : nat) : list A :=
  let n := length a in
  drop (n - shift mod n) a ++ take (n - shift mod n) a.

Definition np_zeros (n : nat) : list f64 := replicate n (Fin 0).

(** What the variable [decoded_data] holds when it is stored: the text of
    the token, or the number that [normalize] returned. *)
Inductive pyval : Type :=
  | Str (s : string)
  | Num (x : f64).

(** [buffer[idx] = v] on a float64 array: the index is checked first
    ([IndexError]), then the value is converted ([ValueError] for text
    that is no float). *)
Definition setitem (buffer : list f64) (idx : nat) (v : pyval)
  : outcome (list f64) :=
  if idx <? length buffer then
    match v with
    | Num x => Return (<[idx := x]> buffer)
    | Str s =>
        match py_float s with
        | Some x => Return (<[idx := x]> buffer)
        | None => Raise ValueError
        end
    end
  else Raise IndexError.

(** ** Cell 3: [normalize] and [arduino_read] *)

(** [(((array - old_min) * (new_max - new_min)) / (old_max - old_min)) +
    new_min] on float64 scalars, then [astype(np.float16)].  [array],
    [new_max] and [new_min] are Python integers where the notebook calls
    the function, and become float64 values when they meet one. *)
Definition normalize (array new_max new_min old_max old_min : Q) : f64 :=
  let num := f64_mul (f64_sub (to_float64 array) (Fin old_min))
                     (to_float64 (new_max - new_min)) in
  let den := f64_sub (Fin old_max) (Fin old_min) in
  to_float16 (f64_add (f64_div num den) (to_float64 new_min)).

Definition FAIL_RETRIEVE : string := "Fail to Retrieve Data...".

Definition CHECK_MONITOR : string :=
  "Open the Serial Monitor to check if it is working. If it's not, press the reset button and rerun 'arduino_activate' funciton again.".

(** The two statements that read and decode one line. *)
Definition read_decoded : M string :=
  do arduino_data <- readline;
  match decode arduino_data with
  | Some text => ret (strip is_crlf text)
  | None => raise UnicodeDecodeError
  end.

(** The [while decoded_data == ''] loop.  [left] is the number of reads
    that may still follow the one about to be made, [max_attempts -
    (attempts + 1)]: when it is 0 the test [attempts >= max_attempts]
    succeeds after this read, whatever was read. *)
Fixpoint read_token (left : nat) : M string :=
  do decoded_data <- read_decoded;
  match left with
  | 0 => run print (Message FAIL_RETRIEVE); ret decoded_data
  | S left' =>
      if is_empty decoded_data then read_token left' else ret decoded_data
  end.

(** The body of the [for] loop: read a token, normalise it when [norm] is
    set, store it under [try ... except ValueError].  In [normalize] the
    integer meets a float64 and is converted: one that float64 cannot
    hold is an [OverflowError]. *)
Definition read_sample (overlapping : nat) (norm : option (Q * Q))
    (max_attempts : nat) (i : nat) (buffer : list f64) : M (list f64) :=
  do decoded_data <- read_token (max_attempts - 1);
  do decoded_data <-
    match norm with
    | Some (norm0, norm1) =>
        match py_int decoded_data with
        | Some raw =>
            match to_float64 (inject_Z raw) with
            | Fin _ => ret (Num (normalize (inject_Z raw) 1 (-1) norm0 norm1))
            | _ => raise OverflowError
            end
        | None => raise ValueError
        end
    | None => ret (Str decoded_data)
    end;
  match setitem buffer (i + overlapping) decoded_data with
  | Return buffer' => ret buffer'
  | Raise ValueError => run print (Message CHECK_MONITOR); ret buffer
  | Raise e => raise e
  end.

(** [arduino_read(buffer, buffer_size, overlapping, norm, max_attempts)];
    [norm = None] is the default [(None, None)]. *)
Definition arduino_read (buffer : list f64) (buffer_size overlapping : nat)
    (norm : option (Q * Q)) (max_attempts : nat) : M (list f64) :=
  let buffer := np_roll buffer overlapping in
  let num_data := buffer_size - overlapping in
  for_range num_data 0 (read_sample overlapping norm max_attempts) buffer.

Definition DEFAULT_MAX_ATTEMPTS : nat := 10.

(** ** Cell 4: one inference round *)

Definition BUFFER_SIZE : nat := 24 * 1000.
Definition OVERLAPPED : nat := 512.

Definition EMOTIONS : list string :=
  ["neutral"; "happy"; "surprise"; "unpleasant"].
Definition COMMANDS : list string := ["a"; "b"; "c"; "d"].

(** Manually calibrated sensitivity of the recognition. *)
Definition RECOG_MASK : list Q := [1; 30000 # 1; 40000 # 1; 500 # 1]%Q.

Definition lift {A} (o : outcome A) : M A := fun w => (o, w).

(** [np.multiply] on one-dimensional arrays: element by element, an array
    of one element being broadcast; other shapes do not match. *)
Definition np_multiply (a b : list Q) : outcome (list Q) :=
  if length a =? length b then Return (zip_with Qmult a b)
  else if length b =? 1 then Return (map (fun x => x * hd 0 b)%Q a)
  else if length a =? 1 then Return (map (fun y => hd 0 a * y)%Q b)
  else Raise ValueError.

(** The scan of [np.argmax]: [best] is the index of the largest value
    seen, [top] that value; only a strictly larger value replaces it. *)
Fixpoint argmax_from (best : nat) (top : Q) (i : nat) (v : list Q) : nat :=
  match v with
  | [] => best
  | x :: v' =>
      if Qle_bool x top then argmax_from best top (S i) v'
      else argmax_from i x (S i) v'
  end.

(** [np.argmax(v)]; the empty array is a [ValueError]. *)
Definition np_argmax (v : list Q) : outcome nat :=
  match v with
  | [] => Raise ValueError
  | x :: v' => Return (argmax_from 0 x 1 v')
  end.

(** [l[i]] on a Python list, for [i >= 0]. *)
Definition getitem {A} (l : list A) (i : nat) : outcome A :=
  match l !! i with
  | Some x => Return x
  | None => Raise IndexError
  end.

(** [str.encode('utf-8')] on ASCII text. *)
Definition encode (s : string) : string := s.

Definition LF : string := String "010" EmptyString.

(** The decision and command dispatch (the [decide] step of a round) that
    end [tflite_process_data]: from
    [result = np.multiply(prediction, RECOG_MASK)] to the two [print]s.
    The mask is an argument, and the label and the command come back as
    the result so that they can be observed. *)
Definition decide_dispatch (prediction mask : list Q) : M (string * string) :=
  do result <- lift (np_multiply prediction mask);
  do i <- lift (np_argmax result);
  do emotion <- lift (getitem EMOTIONS i);
  do j <- lift (np_argmax result);
  do command <- lift (getitem COMMANDS j);
  run write (encode command);
  run print (Scores result);
  run print (Message ("Emotion: " +:+ emotion +:+ LF));
  ret (emotion, command).

Section Session.

(** The calibration range of the session, [max(tuning_data)] and
    [min(tuning_data)] of cell 3, finite float64 values. *)
Variables TUNING_MAX TUNING_MIN : Q.

(** [librosa.feature.mfcc] followed by the TFLite interpreter: from the
    window to the class probabilities.  External to the notebook. *)
Variable extract_and_infer : list f64 -> list Q.

(** The first two statements of [tflite_process_data]: the window that
    the round works on. *)
Definition tflite_window : M (list f64) :=
  let data := np_zeros BUFFER_SIZE in
  arduino_read data BUFFER_SIZE OVERLAPPED
    (Some (TUNING_MAX, TUNING_MIN)) DEFAULT_MAX_ATTEMPTS.

(** [tflite_process_data()], returning its window for observation
    (the coroutine itself returns [None]). *)
Definition tflite_round : M (list f64) :=
  do data <- tflite_window;
  let prediction := extract_and_infer data in
  run decide_dispatch prediction RECOG_MASK;
  ret data.

Definition tflite_process_data : M unit :=
  run tflite_round; ret tt.

End Session.

(** ** Cell 2: activation *)

Definition SERIAL_PORT : string := "/dev/cu.usbmodem14401".
Definition BAUD_RATE : N := 38400%N.

(** The [serial.Serial] object: the open connection, whose traffic is the
    [rx] and [tx] of the world. *)
Record Serial : Type := { port : string; baudrate : N }.

Definition PROMPT : string := "Type 'x' to Activate Arduino: ".

(** [arduino_activate()].  [failure] is the [SerialException] that
    [serial.Serial(SERIAL_PORT, BAUD_RATE, timeout=1)] raised, if it did;
    [typed] is what the user answers to [input]. *)
Definition arduino_activate (failure : option string) (typed : string)
  : M (option Serial) :=
  match failure with
  | Some e =>
      run print (Message ("Failed to connect to serial port " +:+ SERIAL_PORT
                          +:+ ": " +:+ LF +:+ e));
      ret None
  | None =>
      let arduino := {| port := SERIAL_PORT; baudrate := BAUD_RATE |} in
      run print (Message PROMPT);
      let command := typed in
      if String.eqb (lower command) "x" then
        run write (encode command);
        run print (Message "Success Activated!");
        run print (Message "Open the Serial Monitor to check if it is working, then close it.");
        ret (Some arduino)
      else ret (Some arduino)
  end.

(** ** The streaming sketch on the board *)

Module Peer.

(** [record] and the four LED pins ([true] is [HIGH]). *)
Record state : Type := {
  record : bool;
  led_builtin : bool;
  ledr : bool;
  ledg : bool;
  ledb : bool
}.

(** One turn of [while (Serial.available())]: the handling of
    [incomingByte]. *)
Definition on_byte (incomingByte : ascii) (st : state) : state :=
  if Ascii.eqb incomingByte "x" then
    {| record := negb (record st); led_builtin := false;
       ledr := ledr st; ledg := ledg st; ledb := ledb st |}
  else if Ascii.eqb incomingByte "a" then
    {| record := record st; led_builtin := led_builtin st;
       ledr := true; ledg := true; ledb := false |}
  else if Ascii.eqb incomingByte "b" then
    {| record := record st; led_builtin := led_builtin st;
       ledr := true; ledg := false; ledb := true |}
  else if Ascii.eqb incomingByte "c" then
    {| record := record st; led_builtin := led_builtin st;
       ledr := false; ledg := true; ledb := true |}
  else if Ascii.eqb incomingByte "d" then
    {| record := record st; led_builtin := led_builtin st;
       ledr := false; ledg := false; ledb := false |}
  else st.

Fixpoint on_bytes (pending : string) (st : state) : state :=
  match pending with
  | EmptyString => st
  | String c rest => on_bytes rest (on_byte c st)
  end.

(** [loop()]: the button, the pending serial bytes, then the samples
    that the microphone delivered, printed one per line in record
    mode. *)
Definition loop (clicked : bool) (pending : string) (samples : list Z)
    (st : state) : state * list Z :=
  let st :=
    if clicked then
      {| record := negb (record st); led_builtin := led_builtin st;
         ledr := ledr st; ledg := ledg st; ledb := ledb st |}
    else st in
  let st := on_bytes pending st in
  (st, if record st then samples else []).

(** [Print::printNumber(n, 10)] for [n >= 0]: the [do ... while (n)] loop
    that writes the digits from the last one backwards, one at least.
    [fuel] bounds the turns of the loop. *)
Definition digit_char (d : Z) : ascii := ascii_of_nat (48 + Z.to_nat d).

Fixpoint printNumber_loop (fuel : nat) (n : Z) (str : string) : string :=
  match fuel with
  | 0 => str
  | S fuel' =>
      let str := String (digit_char (n mod 10)) str in
      let n := (n / 10)%Z in
      if (n =? 0)%Z then str else printNumber_loop fuel' n str
  end.

Definition printNumber (n : Z) : string :=
  printNumber_loop (S (Z.to_nat n)) n EmptyString.

(** [Serial.println(n)] for a [short]: a minus sign for a negative
    number, the decimal digits, carriage return and line feed. *)
Definition println (n : Z) : string :=
  (if (n <? 0)%Z then String "-" (printNumber (- n)) else printNumber n)
  +:+ crlf.


End Peer.

(** ** Cell 4: the scheduler *)

Module EventLoop.

(** The asyncio loop as [tflite_run] uses it, with a virtual clock in
    seconds.  A task made by [asyncio.create_task] is queued and starts
    only when the running coroutine awaits; [tflite_process_data] holds
    no [await], so a started round runs to its end, and nothing else runs
    meanwhile.  [time.sleep] blocks the thread: the clock advances, no
    task runs.  A queued task is its coroutine and the time that its body
    takes once it runs. *)
Record task : Type := {
  body : M unit;
  cost : Q
}.

Record event_loop : Type := {
  clock : Q;
  ready : list task;
  port_and_console : world
}.

Definition create_task (coro : task) (l : event_loop) : event_loop :=
  {| clock := clock l; ready := ready l ++ [coro];
     port_and_console := port_and_console l |}.

Definition time_sleep (secs : Q) (l : event_loop) : event_loop :=
  {| clock := (clock l + secs)%Q; ready := ready l;
     port_and_console := port_and_console l |}.

(** The queued tasks run, first queued first, each to its end.  A task
    that raises does not stop the ones queued behind it; [failed] is the
    first exception raised. *)
Fixpoint run_ready (tasks : list task) (now : Q) (w : world)
    (failed : option exn) : Q * world * option exn :=
  match tasks with
  | [] => (now, w, failed)
  | coro :: tasks' =>
      let (result, w') := body coro w in
      let failed' :=
        match failed, result with
        | None, Raise e => Some e
        | _, _ => failed
        end in
      run_ready tasks' (now + cost coro)%Q w' failed'
  end.

(** [await asyncio.gather( *tasks)]: the caller is suspended and the
    queued tasks run; the first exception that a task raised is raised in
    the caller. *)
Definition gather (l : event_loop) : outcome unit * event_loop :=
  let '(now, w, failed) :=
    run_ready (ready l) (clock l) (port_and_console l) None in
  let l' := {| clock := now; ready := []; port_and_console := w |} in
  match failed with
  | Some e => (Raise e, l')
  | None => (Return tt, l')
  end.

Definition DELAY : Q := 6 # 10.

(** The [for turn in range(rounds)] loop; [work turn] is the time that
    round [turn] takes once it runs. *)
Fixpoint launch (round : M unit) (n turn : nat) (work : nat -> Q)
    (l : event_loop) : event_loop :=
  match n with
  | 0 => l
  | S n' =>
      launch round n' (S turn) work
        (time_sleep DELAY
           (create_task {| body := round; cost := work turn |} l))
  end.

(** [tflite_run(rounds)]: what the final [print] reports, the number of
    rounds [turn + 1] and the elapsed time.  When a round raised, the
    exception leaves [tflite_run] at the [await] and nothing is reported;
    with no round the variable [turn] is unbound when the report is
    formatted. *)
Definition tflite_run (TUNING_MAX TUNING_MIN : Q)
    (extract_and_infer : list f64 -> list Q)
    (rounds : nat) (work : nat -> Q) (l : event_loop)
  : outcome (nat * Q) * event_loop :=
  let start_time := clock l in
  let round := tflite_process_data TUNING_MAX TUNING_MIN extract_and_infer in
  let l := launch round rounds 0 work l in
  match gather l with
  | (Raise e, l) => (Raise e, l)
  | (Return _, l) =>
      match rounds with
      | 0 => (Raise UnboundLocalError, l)
      | S turn => (Return (turn + 1, (clock l - start_time)%Q), l)
      end
  end.

End EventLoop.


(** ** Cell 3: calibration *)

Definition TUNING_SIZE : nat := 48 * 1000.

(** [x < y] on float64 scalars; every comparison with [nan] is false. *)
Definition f64_lt (x y : f64) : bool :=
  match x, y with
  | Fin p, Fin q => negb (Qle_bool q p)
  | Fin _, Inf negative => negb negative
  | Inf negative, Fin _ => negative
  | Inf n1, Inf n2 => n1 && negb n2
  | _, _ => false
  end.

(** The scan of the built-in [max]: an item replaces the largest one seen
    when [item > maxitem]. *)
Fixpoint py_max_from (maxitem : f64) (items : list f64) : f64 :=
  match items with
  | [] => maxitem
  | item :: items' =>
      if f64_lt maxitem item then py_max_from item items'
      else py_max_from maxitem items'
  end.

(** The scan of the built-in [min]: an item replaces the smallest one
    seen when [item < minitem]. *)
Fixpoint py_min_from (minitem : f64) (items : list f64) : f64 :=
  match items with
  | [] => minitem
  | item :: items' =>
      if f64_lt item minitem then py_min_from item items'
      else py_min_from minitem items'
  end.

(** [max(a)] and [min(a)] over the elements of an array; an empty
    argument is a [ValueError]. *)
Definition py_max (a : list f64) : outcome f64 :=
  match a with
  | [] => Raise ValueError
  | x :: a' => Return (py_max_from x a')
  end.

Definition py_min (a : list f64) : outcome f64 :=
  match a with
  | [] => Raise ValueError
  | x :: a' => Return (py_min_from x a')
  end.

Definition CALIBRATING : string :=
  "Calibrating: Please Speak to the Microphone".

(** The calibration at the end of cell 3: a full buffer of raw samples is
    read without normalisation and its largest and smallest values become
    [(TUNING_MAX, TUNING_MIN)].  [show] is the text that the final
    f-string makes of the two numbers (Python's formatting of a float). *)
Definition calibrate (show : f64 -> f64 -> string) : M (f64 * f64) :=
  run print (Message CALIBRATING);
  do tuning_data <-
    arduino_read (np_zeros TUNING_SIZE) TUNING_SIZE 0 None DEFAULT_MAX_ATTEMPTS;
  do TUNING_MAX <- lift (py_max tuning_data);
  do TUNING_MIN <- lift (py_min tuning_data);
  run print (Message (show TUNING_MIN TUNING_MAX));
  ret (TUNING_MAX, TUNING_MIN).

(** ** Vocabulary for the line protocol *)

(** The text and the value of a sequence of decimal digits, most
    significant first. *)
Definition digits_string (ds : list Z) : string :=
  fold_right (fun d s => String (Peer.digit_char d) s) EmptyString ds.

Definition digits_value (a : Z) (ds : list Z) : Z :=
  fold_left (fun a d => (10 * a + d)%Z) ds a.

(** A character of a token: ASCII and no white space (so neither a
    carriage return nor a line feed). *)
Definition plain (c : ascii) : bool := is_ascii c && negb (is_space c).

(** ** Vocabulary for the board *)

(** The three colour pins. *)
Definition leds (st : Peer.state) : bool * bool * bool :=
  (Peer.ledr st, Peer.ledg st, Peer.ledb st).

(** Whether the pending bytes hold an odd number of 'x'. *)
Fixpoint toggles (pending : string) : bool :=
  match pending with
  | EmptyString => false
  | String c rest => xorb (Ascii.eqb c "x") (toggles rest)
  end.

(** The bytes that select a colour. *)
Definition is_command (c : ascii) : bool :=
  Ascii.eqb c "a" || Ascii.eqb c "b" || Ascii.eqb c "c" || Ascii.eqb c "d".

(** * Properties *)

(** ** Specification vocabulary *)

(** [x] is the finite value [q]. *)
Definition finite (x : f64) (q : Q) : Prop :=
  match x with
  | Fin p => p == q
  | _ => False
  end.

(** The integer that a serial line carries, when it is the text of one:
    what [int] makes of the decoded, stripped line. *)
Definition sample_of (line : string) : option Z :=
  match decode line with
  | Some text => py_int (strip is_crlf text)
  | None => None
  end.

(** A line whose token is empty: a timeout, a bare line end. *)
Definition blank (line : string) : Prop :=
  exists text, decode line = Some text /\ strip is_crlf text = EmptyString.

(** A line of ASCII bytes, which [decode] accepts. *)
Definition ascii_line (line : string) : Prop :=
  all_chars is_ascii line = true.

(** The time of the longest of the first [rounds] rounds. *)
Definition longest_work (work : nat -> Q) (rounds : nat) : Q :=
  fold_right Qmax 0%Q (map work (seq 0 rounds)).

(** The handle that [arduino_activate] returns once the port is open. *)
Definition arduino : Serial := {| port := SERIAL_PORT; baudrate := BAUD_RATE |}.

(** The normalisation that a round applies to a raw sample. *)
Definition calibrated (old_max old_min : Q) (raw : Z) : f64 :=
  normalize (inject_Z raw) 1 (-1) old_max old_min.

(** The order of the float64 values; [nan] is not comparable. *)
Definition f64_le (x y : f64) : Prop :=
  match x, y with
  | Fin p, Fin q => (p <= q)%Q
  | Inf true, Fin _ => True
  | Inf true, Inf _ => True
  | Fin _, Inf false => True
  | Inf false, Inf false => True
  | _, _ => False
  end.

(** A rational that float64 represents exactly. *)
Definition is_float64 (q : Q) : Prop := to_float64 q = Fin (Qred q).

(** An integer that becomes a float64 without overflow (one below
    [2^1024 - 2^970] in magnitude). *)
Definition convertible (raw : Z) : Prop :=
  exists q, to_float64 (inject_Z raw) = Fin q.

(** An integer below [2^53] in magnitude: float64 holds it exactly. *)
Definition exact_in_float64 (raw : Z) : Prop := (Z.abs raw < 2 ^ 53)%Z.


(** ** Rounding *)

Lemma pow2_pos (k : Z) : (0 < pow2 k)%Q.
Proof. apply Qpower_0_lt. reflexivity. Qed.

Lemma pow2_add (a b : Z) : (pow2 (a + b) == pow2 a * pow2 b)%Q.
Proof. apply Qpower_plus. discriminate. Qed.

Lemma pow2_lt (a b : Z) : (a < b)%Z -> (pow2 a < pow2 b)%Q.
Proof. intros H. apply Qpower_lt_compat_l; [exact H | reflexivity]. Qed.

Lemma pow2_le (a b : Z) : (a <= b)%Z -> (pow2 a <= pow2 b)%Q.
Proof. intros H. apply Qpower_le_compat_l; [exact H | discriminate]. Qed.

Lemma pow2_lt_inv (a b : Z) : (pow2 a < pow2 b)%Q -> (a < b)%Z.
Proof. intros H. apply (Qpower_lt_compat_l_inv 2); [exact H | reflexivity]. Qed.

Lemma pow2_Z (n : Z) : (0 <= n)%Z -> (inject_Z (2 ^ n) == pow2 n)%Q.
Proof. intros H. apply (Zpower_Qpower 2 n H). Qed.

Lemma pow2_split (a b : Z) : (pow2 a == pow2 (a - b) * pow2 b)%Q.
Proof. rewrite <- pow2_add. replace (a - b + b)%Z with a by lia. reflexivity. Qed.

Lemma Qmult_lt_cancel (x y z : Q) : (0 < z)%Q -> (x * z < y * z)%Q -> (x < y)%Q.
Proof. intros Hz H. apply (Qmult_lt_r x y z Hz). exact H. Qed.

Lemma ilog2_spec (q : Q) :
  (0 < q)%Q -> (pow2 (ilog2 q) <= q)%Q /\ (q < pow2 (ilog2 q + 1))%Q.
Proof.
  intros Hq.
  assert (Hn : (0 < Qnum q)%Z).
  { destruct q as [n d]. unfold Qlt in Hq. simpl in Hq. simpl. lia. }
  set (a := Z.log2 (Qnum q)). set (b := Z.log2 (Zpos (Qden q))).
  destruct (Z.log2_spec (Qnum q) Hn) as [Ha1 Ha2].
  destruct (Z.log2_spec (Zpos (Qden q)) (Pos2Z.is_pos _)) as [Hb1 Hb2].
  fold a in Ha1, Ha2. fold b in Hb1, Hb2.
  assert (Ha0 : (0 <= a)%Z) by apply Z.log2_nonneg.
  assert (Hb0 : (0 <= b)%Z) by apply Z.log2_nonneg.
  assert (Hqd : (q * inject_Z (Zpos (Qden q)) == inject_Z (Qnum q))%Q).
  { destruct q as [n d]. simpl. rewrite (Qmake_Qdiv n d).
    field. discriminate. }
  assert (Hd : (0 < inject_Z (Zpos (Qden q)))%Q) by reflexivity.
  assert (Hup : (q < pow2 (a - b + 1))%Q).
  { apply (Qmult_lt_cancel _ _ (pow2 b) (pow2_pos b)).
    rewrite <- pow2_add. replace (a - b + 1 + b)%Z with (Z.succ a) by lia.
    apply Qle_lt_trans with (q * inject_Z (Zpos (Qden q)))%Q.
    - apply Qmult_le_l; [exact Hq |].
      rewrite <- pow2_Z by exact Hb0. rewrite <- Zle_Qle. exact Hb1.
    - rewrite Hqd. rewrite <- pow2_Z by lia. rewrite <- Zlt_Qlt. exact Ha2. }
  assert (Hlo : (pow2 (a - b - 1) < q)%Q).
  { apply (Qmult_lt_cancel _ _ (pow2 (Z.succ b)) (pow2_pos _)).
    rewrite <- pow2_add. replace (a - b - 1 + Z.succ b)%Z with a by lia.
    apply Qle_lt_trans with (q * inject_Z (Zpos (Qden q)))%Q.
    - rewrite Hqd. rewrite <- pow2_Z by exact Ha0. rewrite <- Zle_Qle. exact Ha1.
    - apply Qmult_lt_l; [exact Hq |].
      rewrite <- pow2_Z by lia. rewrite <- Zlt_Qlt. exact Hb2. }
  unfold ilog2. fold a b.
  destruct (Qle_bool (pow2 (a - b)) q) eqn:Hc.
  - apply Qle_bool_iff in Hc. split; [exact Hc | exact Hup].
  - split.
    + apply Qlt_le_weak. exact Hlo.
    + replace (a - b - 1 + 1)%Z with (a - b)%Z by lia.
      apply Qnot_le_lt. intros H. apply Qle_bool_iff in H. congruence.
Qed.

Lemma ilog2_unique (q : Q) (e : Z) :
  (pow2 e <= q)%Q -> (q < pow2 (e + 1))%Q -> ilog2 q = e.
Proof.
  intros H1 H2.
  assert (Hq : (0 < q)%Q) by (eapply Qlt_le_trans; [apply (pow2_pos e) | exact H1]).
  destruct (ilog2_spec q Hq) as [H3 H4].
  assert ((e < ilog2 q + 1)%Z).
  { apply pow2_lt_inv. eapply Qle_lt_trans; eassumption. }
  assert ((ilog2 q < e + 1)%Z).
  { apply pow2_lt_inv. eapply Qle_lt_trans; eassumption. }
  lia.
Qed.

Lemma ilog2_proper (x y : Q) : (x == y)%Q -> (0 < x)%Q -> ilog2 x = ilog2 y.
Proof.
  intros H Hx. destruct (ilog2_spec x Hx) as [H1 H2].
  symmetry. apply ilog2_unique; rewrite <- H; assumption.
Qed.

Lemma ilog2_mono (x y : Q) : (0 < x)%Q -> (x <= y)%Q -> (ilog2 x <= ilog2 y)%Z.
Proof.
  intros Hx Hxy.
  assert (Hy : (0 < y)%Q) by (eapply Qlt_le_trans; eassumption).
  destruct (ilog2_spec x Hx) as [H1 _]. destruct (ilog2_spec y Hy) as [_ H2].
  assert ((ilog2 x < ilog2 y + 1)%Z); [| lia].
  apply pow2_lt_inv. eapply Qle_lt_trans; [| exact H2].
  eapply Qle_trans; eassumption.
Qed.

Lemma rne_proper (x y : Q) : (x == y)%Q -> rne x = rne y.
Proof.
  intros H. unfold rne. rewrite (Qfloor_comp x y H).
  assert (E : ((x - inject_Z (Qfloor y) ?= 1 # 2) = (y - inject_Z (Qfloor y) ?= 1 # 2))%Q).
  { apply Qcompare_comp; [rewrite H |]; reflexivity. }
  rewrite E. reflexivity.
Qed.

Lemma rne_Z (n : Z) : rne (inject_Z n) = n.
Proof.
  unfold rne. rewrite Qfloor_Z.
  assert (E : ((inject_Z n - inject_Z n ?= 1 # 2) = Lt)%Q).
  { apply Qlt_alt. unfold Qminus. rewrite Qplus_opp_r. reflexivity. }
  rewrite E. reflexivity.
Qed.

Lemma rne_mono (x y : Q) : (x <= y)%Q -> (rne x <= rne y)%Z.
Proof.
  intros H. pose proof (Qfloor_resp_le x y H) as Hf.
  pose proof (Qfloor_le x) as Hx1. pose proof (Qlt_floor x) as Hx2.
  pose proof (Qfloor_le y) as Hy1. pose proof (Qlt_floor y) as Hy2.
  unfold rne.
  destruct (Z.eq_dec (Qfloor x) (Qfloor y)) as [E | E].
  - rewrite <- E in *.
    remember (inject_Z (Qfloor x)) as fx eqn:Efx. clear Efx.
    destruct (Qcompare_spec (x - fx) (1 # 2)) as [Hx | Hx | Hx];
    destruct (Qcompare_spec (y - fx) (1 # 2)) as [Hy | Hy | Hy];
    try destruct (Z.even (Qfloor x)); try lia; exfalso; lra.
  - destruct (x - inject_Z (Qfloor x) ?= 1 # 2)%Q;
    destruct (y - inject_Z (Qfloor y) ?= 1 # 2)%Q;
    try destruct (Z.even (Qfloor x)); try destruct (Z.even (Qfloor y)); lia.
Qed.

Lemma rne_nonneg (x : Q) : (0 <= x)%Q -> (0 <= rne x)%Z.
Proof. intros H. apply (rne_mono 0 x) in H. exact H. Qed.

Lemma rne_error (m : Q) : (Qabs (inject_Z (rne m) - m) <= 1 # 2)%Q.
Proof.
  pose proof (Qfloor_le m) as H1. pose proof (Qlt_floor m) as H2.
  rewrite inject_Z_plus in H2. change (inject_Z 1) with 1%Q in H2.
  unfold rne.
  destruct (Qcompare_spec (m - inject_Z (Qfloor m)) (1 # 2)) as [H | H | H];
    try destruct (Z.even (Qfloor m));
    rewrite ?inject_Z_plus; change (inject_Z 1) with 1%Q;
    remember (inject_Z (Qfloor m)) as f eqn:Ef; clear Ef;
    apply Qabs_Qle_condition; split; lra.
Qed.

Lemma inject_Z_pow2_lt (M p : Z) :
  (0 <= p)%Z -> (M < 2 ^ p)%Z -> (inject_Z M < pow2 p)%Q.
Proof. intros Hp H. rewrite <- pow2_Z by exact Hp. rewrite <- Zlt_Qlt. exact H. Qed.

Lemma inject_Z_pow2_le (M p : Z) :
  (0 <= p)%Z -> (2 ^ p <= M)%Z -> (pow2 p <= inject_Z M)%Q.
Proof. intros Hp H. rewrite <- pow2_Z by exact Hp. rewrite <- Zle_Qle. exact H. Qed.

Lemma inject_Z_le_pow2 (M p : Z) :
  (0 <= p)%Z -> (M <= 2 ^ p)%Z -> (inject_Z M <= pow2 p)%Q.
Proof. intros Hp H. rewrite <- pow2_Z by exact Hp. rewrite <- Zle_Qle. exact H. Qed.

Lemma Qdiv_le_mono (x y c : Q) : (0 < c)%Q -> (x <= y)%Q -> (x / c <= y / c)%Q.
Proof.
  intros Hc H. apply Qle_shift_div_l; [exact Hc |].
  unfold Qdiv. rewrite <- Qmult_assoc, (Qmult_comm (/ c)), Qmult_inv_r, Qmult_1_r.
  - exact H.
  - intros E. rewrite E in Hc. discriminate Hc.
Qed.

Section Rounding.

Variable fmt : format.
Hypothesis Hprec : (1 <= prec fmt)%Z.

Lemma ulp_exp_ge (q : Q) : (emin fmt - prec fmt + 1 <= ulp_exp fmt q)%Z.
Proof. unfold ulp_exp. lia. Qed.

Lemma scaled_lt (q : Q) :
  (0 < q)%Q -> (q / pow2 (ulp_exp fmt q) < pow2 (prec fmt))%Q.
Proof.
  intros Hq. destruct (ilog2_spec q Hq) as [_ H].
  apply Qlt_shift_div_r; [apply pow2_pos |].
  rewrite <- pow2_add. eapply Qlt_le_trans; [exact H |].
  apply pow2_le. unfold ulp_exp. lia.
Qed.

Lemma rne_scaled_le (q : Q) :
  (0 < q)%Q -> (0 <= rne (q / pow2 (ulp_exp fmt q)) <= 2 ^ prec fmt)%Z.
Proof.
  intros Hq. split.
  - apply rne_nonneg. apply Qle_shift_div_l; [apply pow2_pos |].
    rewrite Qmult_0_l. apply Qlt_le_weak. exact Hq.
  - rewrite <- (rne_Z (2 ^ prec fmt)). apply rne_mono.
    rewrite pow2_Z by lia. apply Qlt_le_weak. apply scaled_lt. exact Hq.
Qed.

Lemma round_pos_nonneg (q : Q) : (0 < q)%Q -> (0 <= round_pos fmt q)%Q.
Proof.
  intros Hq. unfold round_pos. apply Qmult_le_0_compat.
  - replace 0%Q with (inject_Z 0) by reflexivity. rewrite <- Zle_Qle.
    apply (rne_scaled_le q Hq).
  - apply Qlt_le_weak. apply pow2_pos.
Qed.

Lemma round_pos_proper (x y : Q) :
  (x == y)%Q -> (0 < x)%Q -> (round_pos fmt x == round_pos fmt y)%Q.
Proof.
  intros H Hx. unfold round_pos, ulp_exp.
  rewrite <- (ilog2_proper x y H Hx).
  set (k := (Z.max (ilog2 x) (emin fmt) - prec fmt + 1)%Z).
  rewrite (rne_proper (x / pow2 k) (y / pow2 k)); [reflexivity |].
  rewrite H. reflexivity.
Qed.

Lemma round_pos_mono (x y : Q) :
  (0 < x)%Q -> (x <= y)%Q -> (round_pos fmt x <= round_pos fmt y)%Q.
Proof.
  intros Hx Hxy.
  assert (Hy : (0 < y)%Q) by (eapply Qlt_le_trans; eassumption).
  pose proof (ilog2_mono x y Hx Hxy) as He.
  destruct (Z.eq_dec (ulp_exp fmt x) (ulp_exp fmt y)) as [E | E].
  - unfold round_pos. rewrite <- E.
    apply Qmult_le_compat_r; [| apply Qlt_le_weak, pow2_pos].
    rewrite <- Zle_Qle. apply rne_mono. apply Qdiv_le_mono; [apply pow2_pos | exact Hxy].
  - assert (Hlt : (Z.max (ilog2 x) (emin fmt) < ilog2 y)%Z)
      by (unfold ulp_exp in E; lia).
    assert (Hky : ulp_exp fmt y = (ilog2 y - prec fmt + 1)%Z)
      by (unfold ulp_exp; lia).
    apply Qle_trans with (pow2 (ilog2 y)).
    + apply Qle_trans with (pow2 (prec fmt) * pow2 (ulp_exp fmt x))%Q.
      * unfold round_pos. apply Qmult_le_compat_r; [| apply Qlt_le_weak, pow2_pos].
        apply inject_Z_le_pow2; [lia |]. apply (rne_scaled_le x Hx).
      * rewrite <- pow2_add. apply pow2_le. unfold ulp_exp. lia.
    + unfold round_pos. rewrite Hky.
      set (ky := (ilog2 y - prec fmt + 1)%Z).
      rewrite (pow2_split (ilog2 y) ky) at 1.
      apply Qmult_le_compat_r; [| apply Qlt_le_weak, pow2_pos].
      replace (ilog2 y - ky)%Z with (prec fmt - 1)%Z by (unfold ky; lia).
      apply inject_Z_pow2_le; [lia |].
      rewrite <- (rne_Z (2 ^ (prec fmt - 1))) at 1. apply rne_mono.
      rewrite pow2_Z by lia.
      apply Qle_shift_div_l; [apply pow2_pos |].
      rewrite <- pow2_add. replace (prec fmt - 1 + ky)%Z with (ilog2 y) by (unfold ky; lia).
      apply (ilog2_spec y Hy).
Qed.

Lemma round_pos_exact (q : Q) (M k : Z) :
  (q == inject_Z M * pow2 k)%Q -> (0 < M < 2 ^ prec fmt)%Z ->
  (emin fmt - prec fmt + 1 <= k)%Z ->
  (round_pos fmt q == q)%Q.
Proof.
  intros Hq HM Hk.
  assert (Hpos : (0 < q)%Q).
  { rewrite Hq. apply Qmult_lt_0_compat; [| apply pow2_pos].
    replace 0%Q with (inject_Z 0) by reflexivity. rewrite <- Zlt_Qlt. lia. }
  destruct (ilog2_spec q Hpos) as [He _].
  assert (Hlt : (ilog2 q < prec fmt + k)%Z).
  { apply pow2_lt_inv. eapply Qle_lt_trans; [exact He |].
    rewrite Hq, pow2_add. apply Qmult_lt_compat_r; [apply pow2_pos |].
    apply inject_Z_pow2_lt; lia. }
  unfold round_pos. set (kq := ulp_exp fmt q).
  assert (Hkq : (kq <= k)%Z) by (unfold kq, ulp_exp; lia).
  assert (Hs : (q / pow2 kq == inject_Z (M * 2 ^ (k - kq)))%Q).
  { rewrite inject_Z_mult, pow2_Z by lia. rewrite Hq.
    rewrite (pow2_split k kq). field.
    intros E. pose proof (pow2_pos kq) as P. rewrite E in P. discriminate P. }
  rewrite (rne_proper _ _ Hs), rne_Z.
  rewrite inject_Z_mult, pow2_Z by lia. rewrite Hq.
  rewrite (pow2_split k kq). ring.
Qed.

Lemma round_pos_form (q : Q) :
  (0 < q)%Q ->
  exists M k : Z,
    (round_pos fmt q == inject_Z M * pow2 k)%Q /\
    (0 <= M < 2 ^ prec fmt)%Z /\ (emin fmt - prec fmt + 1 <= k)%Z.
Proof.
  intros Hq. pose proof (rne_scaled_le q Hq) as HN.
  pose proof (ulp_exp_ge q) as Hk.
  unfold round_pos. set (kq := ulp_exp fmt q) in *.
  set (N := rne (q / pow2 kq)) in *.
  destruct (Z.eq_dec N (2 ^ prec fmt)%Z) as [E | E].
  - exists (2 ^ (prec fmt - 1))%Z, (kq + 1)%Z. split; [| split].
    + rewrite E. rewrite !pow2_Z by lia. rewrite <- !pow2_add.
      replace (prec fmt - 1 + (kq + 1))%Z with (prec fmt + kq)%Z by lia. reflexivity.
    + split; [apply Z.pow_nonneg; lia |]. apply Z.pow_lt_mono_r; lia.
    + lia.
  - exists N, kq. split; [reflexivity | split; lia].
Qed.

Lemma max_finite_pos : (0 < max_finite fmt)%Q.
Proof.
  unfold max_finite. apply Qmult_lt_0_compat; [| apply pow2_pos].
  assert (H : (pow2 (1 - prec fmt) <= pow2 0)%Q) by (apply pow2_le; lia).
  change (pow2 0) with 1%Q in H. lra.
Qed.

Lemma round_proper (x y : Q) : (x == y)%Q -> round fmt x = round fmt y.
Proof.
  intros H. unfold round.
  assert (E0 : Qeq_bool x 0 = Qeq_bool y 0).
  { destruct (Qeq_bool y 0) eqn:Ey.
    - apply Qeq_bool_iff. rewrite H. apply Qeq_bool_iff. exact Ey.
    - destruct (Qeq_bool x 0) eqn:Ex; [| reflexivity].
      apply Qeq_bool_iff in Ex. rewrite H in Ex. apply Qeq_bool_iff in Ex. congruence. }
  assert (E1 : Qle_bool 0 x = Qle_bool 0 y).
  { destruct (Qle_bool 0 y) eqn:Ey.
    - apply Qle_bool_iff. rewrite H. apply Qle_bool_iff. exact Ey.
    - destruct (Qle_bool 0 x) eqn:Ex; [| reflexivity].
      apply Qle_bool_iff in Ex. rewrite H in Ex. apply Qle_bool_iff in Ex. congruence. }
  rewrite E0, E1.
  destruct (Qeq_bool y 0) eqn:Ey; [reflexivity |].
  assert (Hy : ~ (y == 0)%Q) by (intros E; apply Qeq_bool_iff in E; congruence).
  assert (Hle : forall a b : Q, (a == b)%Q ->
            Qle_bool a (max_finite fmt) = Qle_bool b (max_finite fmt)).
  { intros a b Hab. destruct (Qle_bool b (max_finite fmt)) eqn:Eb.
    - apply Qle_bool_iff. rewrite Hab. apply Qle_bool_iff. exact Eb.
    - destruct (Qle_bool a (max_finite fmt)) eqn:Ea; [| reflexivity].
      apply Qle_bool_iff in Ea. rewrite Hab in Ea. apply Qle_bool_iff in Ea. congruence. }
  destruct (Qle_bool 0 y) eqn:Ey1.
  - apply Qle_bool_iff in Ey1.
    assert (Hx : (0 < x)%Q) by (rewrite H; lra).
    pose proof (round_pos_proper x y H Hx) as R.
    rewrite (Hle _ _ R). rewrite (Qred_complete _ _ R). reflexivity.
  - assert (Hx : (0 < - x)%Q).
    { rewrite H. destruct (Qlt_le_dec y 0) as [L | L]; [lra |].
      apply Qle_bool_iff in L. congruence. }
    assert (Hn : (- x == - y)%Q) by (rewrite H; reflexivity).
    pose proof (round_pos_proper (- x) (- y) Hn Hx) as R.
    rewrite (Hle _ _ R).
    assert (R' : (- round_pos fmt (- x) == - round_pos fmt (- y))%Q)
      by (rewrite R; reflexivity).
    rewrite (Qred_complete _ _ R'). reflexivity.
Qed.

Lemma round_cases (q : Q) :
  ((q == 0)%Q /\ round fmt q = Fin 0) \/
  ((0 < q)%Q /\ (round_pos fmt q <= max_finite fmt)%Q /\
     round fmt q = Fin (Qred (round_pos fmt q))) \/
  ((0 < q)%Q /\ (max_finite fmt < round_pos fmt q)%Q /\ round fmt q = Inf false) \/
  ((q < 0)%Q /\ (round_pos fmt (- q) <= max_finite fmt)%Q /\
     round fmt q = Fin (Qred (- round_pos fmt (- q)))) \/
  ((q < 0)%Q /\ (max_finite fmt < round_pos fmt (- q))%Q /\ round fmt q = Inf true).
Proof.
  unfold round.
  destruct (Qeq_bool q 0) eqn:E0.
  { left. split; [apply Qeq_bool_iff; exact E0 | reflexivity]. }
  assert (H0 : ~ (q == 0)%Q) by (intros E; apply Qeq_bool_iff in E; congruence).
  right. destruct (Qle_bool 0 q) eqn:E1.
  - apply Qle_bool_iff in E1. assert (Hq : (0 < q)%Q) by lra.
    destruct (Qle_bool (round_pos fmt q) (max_finite fmt)) eqn:E2.
    + left. apply Qle_bool_iff in E2. auto.
    + right; left. split; [exact Hq | split; [| reflexivity]].
      apply Qnot_le_lt. intros L. apply Qle_bool_iff in L. congruence.
  - assert (Hq : (q < 0)%Q).
    { apply Qnot_le_lt. intros L. apply Qle_bool_iff in L. congruence. }
    destruct (Qle_bool (round_pos fmt (- q)) (max_finite fmt)) eqn:E2.
    + right; right; left. apply Qle_bool_iff in E2. auto.
    + right; right; right. split; [exact Hq | split; [| reflexivity]].
      apply Qnot_le_lt. intros L. apply Qle_bool_iff in L. congruence.
Qed.

Lemma round_not_NaN (q : Q) : round fmt q <> NaN.
Proof.
  destruct (round_cases q) as [[_ E] | [[_ [_ E]] | [[_ [_ E]] | [[_ [_ E]] | [_ [_ E]]]]]];
    rewrite E; discriminate.
Qed.

Lemma round_mono (x y : Q) : (x <= y)%Q -> f64_le (round fmt x) (round fmt y).
Proof.
  intros H.
  destruct (round_cases x) as [[Hx Ex] | [[Hx [Mx Ex]] | [[Hx [Mx Ex]] |
                               [[Hx [Mx Ex]] | [Hx [Mx Ex]]]]]];
  destruct (round_cases y) as [[Hy Ey] | [[Hy [My Ey]] | [[Hy [My Ey]] |
                               [[Hy [My Ey]] | [Hy [My Ey]]]]]];
  rewrite Ex, Ey; simpl; try exact I; try (exfalso; lra);
  rewrite ?Qred_correct.
  - lra.
  - apply round_pos_nonneg. exact Hy.
  - apply round_pos_mono; assumption.
  - pose proof (round_pos_mono x y Hx H). lra.
  - pose proof (round_pos_nonneg (- x)). lra.
  - pose proof (round_pos_nonneg (- x)). pose proof (round_pos_nonneg y). lra.
  - assert (L : (- y <= - x)%Q) by lra.
    pose proof (round_pos_mono (- y) (- x)). lra.
  - assert (L : (- y <= - x)%Q) by lra.
    pose proof (round_pos_mono (- y) (- x)). lra.
Qed.

Lemma round_exact (q : Q) (M k : Z) :
  (q == inject_Z M * pow2 k)%Q -> (Z.abs M < 2 ^ prec fmt)%Z ->
  (emin fmt - prec fmt + 1 <= k)%Z -> (Qabs q <= max_finite fmt)%Q ->
  round fmt q = Fin (Qred q).
Proof.
  intros Hq HM Hk Hmax.
  destruct (Z.lt_trichotomy M 0) as [L | [L | L]].
  - assert (Hn : (- q == inject_Z (- M) * pow2 k)%Q).
    { rewrite Hq, inject_Z_opp. ring. }
    pose proof (round_pos_exact (- q) (- M) k Hn ltac:(lia) Hk) as R.
    assert (Hneg : (q < 0)%Q).
    { assert (P : (0 < - q)%Q); [| lra].
      rewrite Hn. apply Qmult_lt_0_compat; [| apply pow2_pos].
      replace 0%Q with (inject_Z 0) by reflexivity. rewrite <- Zlt_Qlt. lia. }
    rewrite Qabs_neg in Hmax by lra.
    destruct (round_cases q) as [[Hx Ex] | [[Hx [Mx Ex]] | [[Hx [Mx Ex]] |
                               [[Hx [Mx Ex]] | [Hx [Mx Ex]]]]]];
      try (exfalso; lra).
    rewrite Ex. f_equal. apply Qred_complete. rewrite R. ring.
  - subst M. assert (H0 : (q == 0)%Q) by (rewrite Hq; ring).
    rewrite (round_proper q 0 H0). rewrite (Qred_complete q 0 H0). reflexivity.
  - pose proof (round_pos_exact q M k Hq ltac:(lia) Hk) as R.
    assert (Hpos : (0 < q)%Q).
    { rewrite Hq. apply Qmult_lt_0_compat; [| apply pow2_pos].
      replace 0%Q with (inject_Z 0) by reflexivity. rewrite <- Zlt_Qlt. lia. }
    rewrite Qabs_pos in Hmax by lra.
    destruct (round_cases q) as [[Hx Ex] | [[Hx [Mx Ex]] | [[Hx [Mx Ex]] |
                               [[Hx [Mx Ex]] | [Hx [Mx Ex]]]]]];
      try (exfalso; lra).
    rewrite Ex. f_equal. apply Qred_complete. exact R.
Qed.

Lemma round_form (q r : Q) :
  round fmt q = Fin r ->
  exists M k : Z,
    (r == inject_Z M * pow2 k)%Q /\ (Z.abs M < 2 ^ prec fmt)%Z /\
    (emin fmt - prec fmt + 1 <= k)%Z /\ (Qabs r <= max_finite fmt)%Q.
Proof.
  intros E.
  destruct (round_cases q) as [[Hx Ex] | [[Hx [Mx Ex]] | [[Hx [Mx Ex]] |
                               [[Hx [Mx Ex]] | [Hx [Mx Ex]]]]]];
    rewrite Ex in E; inversion E; subst r; clear E.
  - exists 0%Z, (emin fmt - prec fmt + 1)%Z. split; [| split; [| split]].
    + ring.
    + simpl. apply Z.pow_pos_nonneg; lia.
    + lia.
    + apply Qlt_le_weak. apply max_finite_pos.
  - destruct (round_pos_form q Hx) as (M & k & HM & Hb & Hk).
    exists M, k. split; [| split; [| split]].
    + rewrite Qred_correct. exact HM.
    + lia.
    + exact Hk.
    + rewrite Qred_correct. rewrite Qabs_pos; [exact Mx |].
      apply round_pos_nonneg. exact Hx.
  - assert (Hq : (0 < - q)%Q) by lra.
    destruct (round_pos_form (- q) Hq) as (M & k & HM & Hb & Hk).
    exists (- M)%Z, k. split; [| split; [| split]].
    + rewrite Qred_correct, HM, inject_Z_opp. ring.
    + lia.
    + exact Hk.
    + rewrite Qred_correct, Qabs_opp. rewrite Qabs_pos; [exact Mx |].
      apply round_pos_nonneg. exact Hq.
Qed.

(** A value of the format rounds to itself. *)
Lemma round_idem (q r : Q) : round fmt q = Fin r -> round fmt r = Fin (Qred r).
Proof.
  intros E. destruct (round_form q r E) as (M & k & HM & Hb & Hk & Hmax).
  exact (round_exact r M k HM Hb Hk Hmax).
Qed.

(** Between two values of the format, the rounding stays finite and
    between them. *)
Lemma round_between (lo hi x : Q) :
  round fmt lo = Fin (Qred lo) -> round fmt hi = Fin (Qred hi) ->
  (lo <= x)%Q -> (x <= hi)%Q ->
  exists r, round fmt x = Fin r /\ (lo <= r)%Q /\ (r <= hi)%Q.
Proof.
  intros Hlo Hhi H1 H2.
  pose proof (round_mono lo x H1) as L. pose proof (round_mono x hi H2) as U.
  rewrite Hlo in L. rewrite Hhi in U.
  destruct (round fmt x) as [r | [|] |]; simpl in L, U; try contradiction.
  exists r. rewrite Qred_correct in L, U. auto.
Qed.

Lemma round_pos_error (x : Q) :
  (0 < x)%Q -> (Qabs (round_pos fmt x - x) <= pow2 (ulp_exp fmt x - 1))%Q.
Proof.
  intros Hx. unfold round_pos. set (k := ulp_exp fmt x).
  pose proof (pow2_pos k) as Hk.
  pose proof (rne_error (x / pow2 k)) as He.
  assert (E : (inject_Z (rne (x / pow2 k)) * pow2 k - x
               == (inject_Z (rne (x / pow2 k)) - x / pow2 k) * pow2 k)%Q).
  { field. lra. }
  rewrite E, Qabs_Qmult, (Qabs_pos (pow2 k)) by lra.
  assert (P : (pow2 (k - 1) == (1 # 2) * pow2 k)%Q).
  { rewrite (pow2_split k (k - 1)). replace (k - (k - 1))%Z with 1%Z by lia.
    change (pow2 1) with 2%Q. field. }
  rewrite P. apply Qmult_le_compat_r; [exact He | lra].
Qed.

(** The rounding error of a number below [2^E] in magnitude is at most
    half a unit in the last place of the numbers just below [2^E]. *)
Lemma round_error (x r : Q) (E : Z) :
  round fmt x = Fin r -> (Qabs x < pow2 E)%Q -> (emin fmt <= E - 1)%Z ->
  (Qabs (r - x) <= pow2 (E - 1 - prec fmt))%Q.
Proof.
  intros Er Hx HE.
  assert (Hpos : forall y, (0 < y)%Q -> (y < pow2 E)%Q ->
            (Qabs (round_pos fmt y - y) <= pow2 (E - 1 - prec fmt))%Q).
  { intros y Hy Hlt. eapply Qle_trans; [apply round_pos_error, Hy |].
    apply pow2_le. unfold ulp_exp.
    assert ((ilog2 y < E)%Z); [| lia].
    apply pow2_lt_inv. eapply Qle_lt_trans; [apply (ilog2_spec y Hy) | exact Hlt]. }
  destruct (round_cases x) as [[H0 Ex] | [[H0 [Mx Ex]] | [[H0 [Mx Ex]] |
                               [[H0 [Mx Ex]] | [H0 [Mx Ex]]]]]];
    rewrite Ex in Er; inversion Er; subst r; clear Er.
  - assert (Z0 : (0 - x == 0)%Q) by (rewrite H0; ring).
    rewrite Z0. apply Qlt_le_weak, pow2_pos.
  - rewrite Qred_correct. apply Hpos; [exact H0 |].
    rewrite Qabs_pos in Hx by lra. exact Hx.
  - rewrite Qred_correct.
    assert (Hn : (0 < - x)%Q) by lra.
    rewrite Qabs_neg in Hx by lra.
    pose proof (Hpos (- x) Hn Hx) as B.
    assert (F : (- round_pos fmt (- x) - x == - (round_pos fmt (- x) - - x))%Q) by ring.
    rewrite F, Qabs_opp. exact B.
Qed.

End Rounding.

(** ** float64 and float16 *)

Lemma binary64_prec : (1 <= prec binary64)%Z.
Proof. discriminate. Qed.

Lemma binary16_prec : (1 <= prec binary16)%Z.
Proof. discriminate. Qed.

Lemma Qle_closed (a b : Q) : Qle_bool a b = true -> (a <= b)%Q.
Proof. apply Qle_bool_iff. Qed.

(** An integer below [2^53] in magnitude is a float64 value. *)
Lemma to_float64_Z (z : Z) :
  (Z.abs z < 2 ^ 53)%Z -> to_float64 (inject_Z z) = Fin (inject_Z z).
Proof.
  intros Hz. rewrite <- (inject_Z_Qred z) at 2.
  apply (round_exact binary64 binary64_prec (inject_Z z) z 0).
  - change (pow2 0) with 1%Q. ring.
  - exact Hz.
  - discriminate.
  - apply Qle_trans with (inject_Z (2 ^ 53)).
    + assert (E : (Qabs (inject_Z z) == inject_Z (Z.abs z))%Q) by reflexivity.
      rewrite E. rewrite <- Zle_Qle. lia.
    + apply Qle_closed. vm_compute. reflexivity.
Qed.

Lemma is_float64_Z (z : Z) : (Z.abs z < 2 ^ 53)%Z -> is_float64 (inject_Z z).
Proof. intros H. unfold is_float64. rewrite inject_Z_Qred. apply to_float64_Z, H. Qed.

Lemma to_float64_proper (x y : Q) : (x == y)%Q -> to_float64 x = to_float64 y.
Proof. apply (round_proper binary64). Qed.

Lemma to_float64_mono (x y : Q) :
  (x <= y)%Q -> f64_le (to_float64 x) (to_float64 y).
Proof. apply (round_mono binary64 binary64_prec). Qed.

Lemma to_float64_not_NaN (q : Q) : to_float64 q <> NaN.
Proof. apply (round_not_NaN binary64). Qed.

Lemma f64_le_Fin_inv (lo hi : Q) (x : f64) :
  f64_le (Fin lo) x -> f64_le x (Fin hi) ->
  exists r, x = Fin r /\ (lo <= r)%Q /\ (r <= hi)%Q.
Proof.
  destruct x as [r | [|] |]; simpl; try contradiction.
  intros L U. exists r. auto.
Qed.

Lemma f64_le_ninf (x : f64) : x <> NaN -> f64_le (Inf true) x.
Proof. destruct x as [r | [|] |]; simpl; congruence || exact (fun _ => I). Qed.

Lemma f64_le_pinf (x : f64) : x <> NaN -> f64_le x (Inf false).
Proof. destruct x as [r | [|] |]; simpl; congruence || exact (fun _ => I). Qed.

Lemma f64_add_mono (a b : f64) (c : Q) :
  f64_le a b -> f64_le (f64_add a (Fin c)) (f64_add b (Fin c)).
Proof.
  destruct a as [p | [|] |], b as [q | [|] |]; simpl; try contradiction;
    try exact (fun _ => I); intros H.
  - apply to_float64_mono. lra.
  - apply f64_le_pinf, to_float64_not_NaN.
  - apply f64_le_ninf, to_float64_not_NaN.
Qed.

Lemma f64_sub_mono (a b : f64) (c : Q) :
  f64_le a b -> f64_le (f64_sub a (Fin c)) (f64_sub b (Fin c)).
Proof. apply f64_add_mono. Qed.

Lemma is_neg_pos (c : Q) : (0 < c)%Q -> is_neg c = false.
Proof.
  intros H. unfold is_neg. apply Bool.negb_false_iff. apply Qle_bool_iff. lra.
Qed.

Lemma Qeq_bool_pos (c : Q) : (0 < c)%Q -> Qeq_bool c 0 = false.
Proof.
  intros H. destruct (Qeq_bool c 0) eqn:E; [| reflexivity].
  apply Qeq_bool_iff in E. lra.
Qed.

Lemma f64_mul_mono (a b : f64) (c : Q) :
  (0 < c)%Q -> f64_le a b -> f64_le (f64_mul a (Fin c)) (f64_mul b (Fin c)).
Proof.
  intros Hc.
  destruct a as [p | [|] |], b as [q | [|] |]; simpl;
    rewrite ?(Qeq_bool_pos c Hc), ?(is_neg_pos c Hc); simpl; try contradiction;
    try exact (fun _ => I); intros H.
  - apply to_float64_mono. apply Qmult_le_compat_r; lra.
  - apply f64_le_pinf, to_float64_not_NaN.
  - apply f64_le_ninf, to_float64_not_NaN.
Qed.

Lemma f64_div_mono (a b : f64) (c : Q) :
  (0 < c)%Q -> f64_le a b -> f64_le (f64_div a (Fin c)) (f64_div b (Fin c)).
Proof.
  intros Hc.
  destruct a as [p | [|] |], b as [q | [|] |]; simpl;
    rewrite ?(Qeq_bool_pos c Hc), ?(is_neg_pos c Hc); simpl; try contradiction;
    try exact (fun _ => I); intros H.
  - apply to_float64_mono. apply Qdiv_le_mono; assumption.
  - apply f64_le_pinf, to_float64_not_NaN.
  - apply f64_le_ninf, to_float64_not_NaN.
Qed.

Lemma to_float16_mono (a b : f64) :
  f64_le a b -> f64_le (to_float16 a) (to_float16 b).
Proof.
  destruct a as [p | [|] |], b as [q | [|] |]; simpl; try contradiction;
    try exact (fun _ => I); intros H.
  - apply (round_mono binary16 binary16_prec). exact H.
  - apply f64_le_pinf, (round_not_NaN binary16).
  - apply f64_le_ninf, (round_not_NaN binary16).
Qed.

Lemma to_float64_two : to_float64 (1 - -1) = Fin 2.
Proof. vm_compute. reflexivity. Qed.

Lemma to_float64_minus_one : to_float64 (-1) = Fin (-1).
Proof. vm_compute. reflexivity. Qed.

(** The width of a calibration range of float64 values: positive once
    rounded, and exactly doubled. *)
Lemma width_float64 (old_max old_min : Q) :
  is_float64 old_max -> is_float64 old_min ->
  (old_min < old_max)%Q -> (old_max - old_min <= pow2 1022)%Q ->
  exists d : Q,
    to_float64 (old_max + - old_min) = Fin d /\ (0 < d)%Q /\
    to_float64 (d * 2) = Fin (Qred (d * 2)).
Proof.
  intros Hmax Hmin Hlt Hw.
  destruct (round_form binary64 binary64_prec _ _ Hmax) as (M1 & k1 & E1 & _ & K1 & _).
  destruct (round_form binary64 binary64_prec _ _ Hmin) as (M2 & k2 & E2 & _ & K2 & _).
  rewrite Qred_correct in E1, E2.
  change (emin binary64 - prec binary64 + 1)%Z with (-1074)%Z in K1, K2.
  set (N := (M1 * 2 ^ (k1 + 1074) - M2 * 2 ^ (k2 + 1074))%Z).
  assert (EN : (old_max + - old_min == inject_Z N * pow2 (-1074))%Q).
  { unfold N. rewrite E1, E2. unfold Zminus.
    rewrite inject_Z_plus, inject_Z_opp, !inject_Z_mult, !pow2_Z by lia.
    rewrite (pow2_split k1 (-1074)), (pow2_split k2 (-1074)).
    replace (k1 - -1074)%Z with (k1 + 1074)%Z by lia.
    replace (k2 - -1074)%Z with (k2 + 1074)%Z by lia. ring. }
  assert (HN : (1 <= N)%Z).
  { assert (P : (0 < inject_Z N * pow2 (-1074))%Q) by (rewrite <- EN; lra).
    assert (Q0 : (0 < inject_Z N)%Q).
    { apply (Qmult_lt_cancel _ _ (pow2 (-1074)) (pow2_pos _)).
      rewrite Qmult_0_l. exact P. }
    replace 0%Q with (inject_Z 0) in Q0 by reflexivity.
    rewrite <- Zlt_Qlt in Q0. lia. }
  assert (Hlo : (pow2 (-1074) <= old_max + - old_min)%Q).
  { rewrite EN. rewrite <- (Qmult_1_l (pow2 (-1074))) at 1.
    apply Qmult_le_compat_r; [| apply Qlt_le_weak, pow2_pos].
    replace 1%Q with (inject_Z 1) by reflexivity. rewrite <- Zle_Qle. exact HN. }
  assert (Hhi : (old_max + - old_min <= pow2 1022)%Q) by exact Hw.
  destruct (round_between binary64 binary64_prec (pow2 (-1074)) (pow2 1022)
              (old_max + - old_min)) as (d & Ed & D1 & D2).
  { vm_compute. reflexivity. }
  { vm_compute. reflexivity. }
  { exact Hlo. }
  { exact Hhi. }
  exists d. split; [exact Ed | split].
  - eapply Qlt_le_trans; [apply (pow2_pos (-1074)) | exact D1].
  - destruct (round_form binary64 binary64_prec _ _ Ed) as (M & k & EM & BM & KM & _).
    apply (round_exact binary64 binary64_prec (d * 2) M (k + 1)).
    + rewrite EM, pow2_add. change (pow2 1) with 2%Q. ring.
    + exact BM.
    + lia.
    + rewrite Qabs_pos.
      * apply Qle_trans with (pow2 1022 * 2)%Q; [lra |].
        apply Qle_closed. vm_compute. reflexivity.
      * assert (0 < d)%Q by (eapply Qlt_le_trans; [apply (pow2_pos (-1074)) | exact D1]).
        lra.
Qed.

(** ** [normalize] *)

Section Normalize.

Variables old_max old_min : Q.
Hypothesis Hmax : is_float64 old_max.
Hypothesis Hmin : is_float64 old_min.
Hypothesis Hlt : (old_min < old_max)%Q.
Hypothesis Hwidth : (old_max - old_min <= pow2 1022)%Q.

Lemma normalize_mono (x y : Q) :
  (x <= y)%Q ->
  f64_le (normalize x 1 (-1) old_max old_min) (normalize y 1 (-1) old_max old_min).
Proof.
  intros H. unfold normalize.
  destruct (width_float64 old_max old_min Hmax Hmin Hlt Hwidth) as (d & Ed & Hd & _).
  unfold f64_sub at 2 4. simpl f64_neg. simpl f64_add at 2 4.
  rewrite Ed, to_float64_two, to_float64_minus_one.
  apply to_float16_mono, f64_add_mono, f64_div_mono; [exact Hd |].
  apply f64_mul_mono; [reflexivity |].
  apply f64_sub_mono, to_float64_mono, H.
Qed.

Lemma normalize_in_range (x : Q) :
  (old_min <= x)%Q -> (x <= old_max)%Q ->
  exists q, normalize x 1 (-1) old_max old_min = Fin q /\ (-1 <= q)%Q /\ (q <= 1)%Q.
Proof.
  intros H1 H2. unfold normalize.
  destruct (width_float64 old_max old_min Hmax Hmin Hlt Hwidth) as (d & Ed & Hd & E2).
  unfold f64_sub. simpl f64_neg. simpl (f64_add (Fin old_max) _).
  rewrite Ed, to_float64_two, to_float64_minus_one.
  (* the integer as a float64 *)
  destruct (f64_le_Fin_inv (Qred old_min) (Qred old_max) (to_float64 x))
    as (a & Ea & A1 & A2).
  { rewrite <- Hmin. apply to_float64_mono, H1. }
  { rewrite <- Hmax. apply to_float64_mono, H2. }
  rewrite Qred_correct in A1, A2. rewrite Ea. simpl f64_add.
  (* array - old_min *)
  destruct (f64_le_Fin_inv 0 d (to_float64 (a + - old_min))) as (s & Es & S1 & S2).
  { change (Fin 0) with (to_float64 0). apply to_float64_mono. lra. }
  { rewrite <- Ed. apply to_float64_mono. lra. }
  rewrite Es. simpl f64_mul.
  (* ... * (new_max - new_min) *)
  destruct (f64_le_Fin_inv 0 (Qred (d * 2)) (to_float64 (s * 2))) as (m & Em & M1 & M2).
  { change (Fin 0) with (to_float64 0). apply to_float64_mono. lra. }
  { rewrite <- E2. apply to_float64_mono. lra. }
  rewrite Qred_correct in M2. rewrite Em. simpl f64_div.
  rewrite (Qeq_bool_pos d Hd).
  (* ... / (old_max - old_min) *)
  destruct (f64_le_Fin_inv 0 2 (to_float64 (m / d))) as (t & Et & T1 & T2).
  { change (Fin 0) with (to_float64 0). apply to_float64_mono.
    apply Qle_shift_div_l; [exact Hd | lra]. }
  { change (Fin 2) with (to_float64 2). apply to_float64_mono.
    apply Qle_shift_div_r; [exact Hd | lra]. }
  rewrite Et. simpl f64_add.
  (* ... + new_min *)
  destruct (f64_le_Fin_inv (-1) 1 (to_float64 (t + -1))) as (u & Eu & U1 & U2).
  { change (Fin (-1)) with (to_float64 (-1)). apply to_float64_mono. lra. }
  { change (Fin 1) with (to_float64 1). apply to_float64_mono. lra. }
  rewrite Eu. simpl to_float16.
  (* astype(np.float16) *)
  destruct (f64_le_Fin_inv (-1) 1 (round binary16 u)) as (v & Ev & V1 & V2).
  { change (Fin (-1)) with (round binary16 (-1)).
    apply (round_mono binary16 binary16_prec), U1. }
  { change (Fin 1) with (round binary16 1).
    apply (round_mono binary16 binary16_prec), U2. }
  exists v. auto.
Qed.

Lemma normalize_old_min : normalize old_min 1 (-1) old_max old_min = Fin (-1).
Proof.
  unfold normalize.
  destruct (width_float64 old_max old_min Hmax Hmin Hlt Hwidth) as (d & Ed & Hd & E2).
  unfold f64_sub. simpl f64_neg. simpl (f64_add (Fin old_max) _).
  rewrite Ed, to_float64_two, to_float64_minus_one.
  rewrite Hmin. simpl f64_add.
  rewrite (to_float64_proper (Qred old_min + - old_min) 0)
    by (rewrite Qred_correct; ring).
  change (to_float64 0) with (Fin 0). simpl f64_mul.
  rewrite (to_float64_proper (0 * 2) 0) by ring.
  change (to_float64 0) with (Fin 0). simpl f64_div.
  rewrite (Qeq_bool_pos d Hd).
  rewrite (to_float64_proper (0 / d) 0) by (unfold Qdiv; ring).
  change (to_float64 0) with (Fin 0). simpl f64_add.
  vm_compute. reflexivity.
Qed.

Lemma normalize_old_max : normalize old_max 1 (-1) old_max old_min = Fin 1.
Proof.
  unfold normalize.
  destruct (width_float64 old_max old_min Hmax Hmin Hlt Hwidth) as (d & Ed & Hd & E2).
  unfold f64_sub. simpl f64_neg. simpl (f64_add (Fin old_max) _).
  rewrite Ed, to_float64_two, to_float64_minus_one.
  rewrite Hmax. simpl f64_add.
  rewrite (to_float64_proper (Qred old_max + - old_min) (old_max + - old_min))
    by (rewrite Qred_correct; reflexivity).
  rewrite Ed. simpl f64_mul. rewrite E2. simpl f64_div.
  rewrite (Qeq_bool_pos d Hd).
  rewrite (to_float64_proper (Qred (d * 2) / d) 2)
    by (rewrite Qred_correct; field; lra).
  change (to_float64 2) with (Fin 2). simpl f64_add.
  vm_compute. reflexivity.
Qed.

End Normalize.

Lemma inject_Z_minus (a b : Z) : (inject_Z a + - inject_Z b == inject_Z (a - b))%Q.
Proof. unfold Z.sub. rewrite inject_Z_plus, inject_Z_opp. reflexivity. Qed.

(** With calibration bounds that are integers below [2^52] in magnitude,
    the value stored for an integer of the range is the exact affine
    value up to the rounding of the division, of the addition and of the
    float16 cast: less than a thousandth. *)
Lemma normalize_accuracy (lo hi raw : Z) :
  (Z.abs lo < 2 ^ 52)%Z -> (Z.abs hi < 2 ^ 52)%Z ->
  (lo < hi)%Z -> (lo <= raw <= hi)%Z ->
  exists q,
    normalize (inject_Z raw) 1 (-1) (inject_Z hi) (inject_Z lo) = Fin q /\
    (Qabs (q - ((inject_Z raw - inject_Z lo) * (1 - -1)
                / (inject_Z hi - inject_Z lo) + -1)) <= 1 # 1024)%Q.
Proof.
  change (2 ^ 52)%Z with 4503599627370496%Z.
  intros Hlo Hhi Hlt Hraw. unfold normalize.
  assert (Hsmall : forall z, (Z.abs z < 9007199254740992)%Z ->
            to_float64 (inject_Z z) = Fin (inject_Z z)).
  { intros z Hz. apply to_float64_Z. exact Hz. }
  rewrite (Hsmall raw) by lia. rewrite to_float64_two, to_float64_minus_one.
  unfold f64_sub. cbn [f64_neg f64_add].
  rewrite (to_float64_proper _ _ (inject_Z_minus raw lo)), (Hsmall (raw - lo)%Z) by lia.
  rewrite (to_float64_proper _ _ (inject_Z_minus hi lo)), (Hsmall (hi - lo)%Z) by lia.
  set (S := (raw - lo)%Z). set (W := (hi - lo)%Z).
  assert (HS : (0 <= S <= W)%Z) by (unfold S, W; lia).
  assert (HW : (0 < W < 9007199254740992)%Z) by (unfold W; lia).
  assert (HWq : (0 < inject_Z W)%Q).
  { replace 0%Q with (inject_Z 0) by reflexivity. rewrite <- Zlt_Qlt. lia. }
  assert (HSq : (0 <= inject_Z S)%Q /\ (inject_Z S <= inject_Z W)%Q).
  { split; [replace 0%Q with (inject_Z 0) by reflexivity |];
      rewrite <- Zle_Qle; lia. }
  cbn [f64_mul].
  assert (Em : to_float64 (inject_Z S * 2) = Fin (Qred (inject_Z S * 2))).
  { apply (round_exact binary64 binary64_prec (inject_Z S * 2) S 1).
    - change (pow2 1) with 2%Q. reflexivity.
    - change (2 ^ prec binary64)%Z with 9007199254740992%Z. lia.
    - discriminate.
    - rewrite Qabs_pos by lra.
      apply Qle_trans with (inject_Z 9007199254740992 * 2)%Q.
      + apply Qmult_le_compat_r; [| discriminate]. rewrite <- Zle_Qle. lia.
      + apply Qle_closed. vm_compute. reflexivity. }
  rewrite Em. cbn [f64_div]. rewrite (Qeq_bool_pos _ HWq).
  set (x := (Qred (inject_Z S * 2) / inject_Z W)%Q).
  assert (Hx : (0 <= x)%Q /\ (x <= 2)%Q).
  { unfold x. rewrite Qred_correct. split.
    - apply Qle_shift_div_l; [exact HWq | lra].
    - apply Qle_shift_div_r; [exact HWq | lra]. }
  destruct (f64_le_Fin_inv 0 2 (to_float64 x)) as (t & Et & T1 & T2).
  { change (Fin 0) with (to_float64 0). apply to_float64_mono. lra. }
  { change (Fin 2) with (to_float64 2). apply to_float64_mono. lra. }
  pose proof (round_error binary64 x t 2 Et) as Bt.
  rewrite Et. cbn [f64_add].
  destruct (f64_le_Fin_inv (-1) 1 (to_float64 (t + -1))) as (u & Eu & U1 & U2).
  { change (Fin (-1)) with (to_float64 (-1)). apply to_float64_mono. lra. }
  { change (Fin 1) with (to_float64 1). apply to_float64_mono. lra. }
  pose proof (round_error binary64 (t + -1) u 1 Eu) as Bu.
  rewrite Eu. cbn [to_float16].
  destruct (f64_le_Fin_inv (-1) 1 (round binary16 u)) as (v & Ev & V1 & V2).
  { change (Fin (-1)) with (round binary16 (-1)).
    apply (round_mono binary16 binary16_prec), U1. }
  { change (Fin 1) with (round binary16 1).
    apply (round_mono binary16 binary16_prec), U2. }
  pose proof (round_error binary16 u v 1 Ev) as Bv.
  exists v. split; [exact Ev |].
  assert (Hax : ((inject_Z raw - inject_Z lo) * (1 - -1)
                 / (inject_Z hi - inject_Z lo) + -1 == x + -1)%Q).
  { unfold x. rewrite Qred_correct. unfold S, W.
    rewrite <- (inject_Z_minus raw lo), <- (inject_Z_minus hi lo).
    field. rewrite (inject_Z_minus hi lo). fold W. lra. }
  rewrite Hax.
  assert (Ct : (Qabs (t - x) <= 1 # 4503599627370496)%Q).
  { apply Bt; [| discriminate]. apply Qabs_Qlt_condition.
    change (pow2 2) with 4%Q. split; lra. }
  assert (Cu : (Qabs (u - (t + -1)) <= 1 # 9007199254740992)%Q).
  { apply Bu; [| discriminate]. apply Qabs_Qlt_condition.
    change (pow2 1) with 2%Q. split; lra. }
  assert (Cv : (Qabs (v - u) <= 1 # 2048)%Q).
  { apply Bv; [| discriminate]. apply Qabs_Qlt_condition.
    change (pow2 1) with 2%Q. split; lra. }
  apply Qabs_Qle_condition in Ct, Cu, Cv. apply Qabs_Qle_condition.
  split; lra.
Qed.

Lemma convertible_small (raw : Z) : (Z.abs raw < 2 ^ 53)%Z -> convertible raw.
Proof. intros H. exists (inject_Z raw). apply to_float64_Z, H. Qed.




(** ** [normalize] *)

(** A range of zero width: the division is by zero, and what it gives
    stays non-finite to the end. *)
Lemma normalize_zero_width (array new_max new_min old_max old_min q : Q) :
  (old_max == old_min)%Q ->
  normalize array new_max new_min old_max old_min <> Fin q.
Proof.
  intros Heq. unfold normalize.
  assert (Hden : f64_sub (Fin old_max) (Fin old_min) = Fin 0).
  { unfold f64_sub. cbn [f64_neg f64_add].
    apply (to_float64_proper (old_max + - old_min) 0). rewrite Heq. ring. }
  rewrite Hden.
  set (num := f64_mul _ _).
  assert (Hdiv : f64_div num (Fin 0) = NaN \/ exists s, f64_div num (Fin 0) = Inf s).
  { destruct num as [p | s |]; cbn.
    - destruct (Qeq_bool p 0); eauto.
    - eauto.
    - eauto. }
  pose proof (to_float64_not_NaN new_min) as Hnew.
  destruct Hdiv as [-> | [s ->]].
  - destruct (to_float64 new_min); discriminate.
  - destruct (to_float64 new_min) as [p | s' |]; cbn; [discriminate | |].
    + destruct (Bool.eqb s s'); discriminate.
    + discriminate.
Qed.

(** C4 (as stated, refuted). With the calibration range [-553, 839]: when
    the lower end of the target is 0.3 (the float64 nearest to it),
    [old_min] is not sent to it exactly but to the float16 value
    0.300048828125; and when the target is given from 1 down to -1 the
    order is reversed, 839 going to -1 and 0 to a larger value.  And with
    the widest range that float64 has, from the largest finite number
    down to its opposite, [old_max] is sent to [nan], not to 1: the width
    overflows. *)
Lemma normalize_other_targets_inexact_or_reversed :
  let new_min := (5404319552844595 # 18014398509481984)%Q in
  let largest := max_finite binary64 in
  is_float64 new_min /\
  normalize (-553 # 1) 1 new_min (839 # 1) (-553 # 1) = Fin (1229 # 4096) /\
  ~ (1229 # 4096 == new_min)%Q /\
  normalize 0 (-1) 1 (839 # 1) (-553 # 1) = Fin (1683 # 8192) /\
  normalize (839 # 1) (-1) 1 (839 # 1) (-553 # 1) = Fin (-1) /\
  (0 <= 839 # 1)%Q /\ (-1 < 1683 # 8192)%Q /\
  is_float64 largest /\ is_float64 (- largest) /\ (- largest < largest)%Q /\
  normalize largest 1 (-1) largest (- largest) = NaN.
Proof.
  cbv zeta. split; [vm_compute; reflexivity |].
  split; [vm_compute; reflexivity |].
  split; [intros H; vm_compute in H; discriminate H |].
  split; [vm_compute; reflexivity |].
  split; [vm_compute; reflexivity |].
  split; [discriminate |]. split; [reflexivity |].
  split; [vm_compute; reflexivity |].
  split; [vm_compute; reflexivity |].
  split; vm_compute; reflexivity.
Qed.

(** C4 (amended). For every calibration range of float64 values
    [old_min < old_max] whose width is at most [2^1022], and the target
    range from -1 to 1 that [arduino_read] passes, [normalize] sends
    [old_min] to -1 and [old_max] to 1 exactly, and it is monotonic: a
    larger input never gives a smaller result (the result being rounded
    to float16, neighbouring inputs can share one), and inputs within the
    range give finite results in the same order. *)
Theorem normalize_endpoints_monotone (old_max old_min : Q) :
  is_float64 old_max -> is_float64 old_min ->
  (old_min < old_max)%Q -> (old_max - old_min <= pow2 1022)%Q ->
  normalize old_min 1 (-1) old_max old_min = Fin (-1) /\
  normalize old_max 1 (-1) old_max old_min = Fin 1 /\
  (forall x y : Q, (x <= y)%Q ->
     f64_le (normalize x 1 (-1) old_max old_min)
            (normalize y 1 (-1) old_max old_min)) /\
  (forall x y : Q, (old_min <= x)%Q -> (x <= y)%Q -> (y <= old_max)%Q ->
     exists p q : Q,
       normalize x 1 (-1) old_max old_min = Fin p /\
       normalize y 1 (-1) old_max old_min = Fin q /\
       (p <= q)%Q).
Proof.
  intros Hmax Hmin Hlt Hw.
  split; [by apply normalize_old_min |].
  split; [by apply normalize_old_max |].
  split; [intros x y; by apply normalize_mono |].
  intros x y H1 H2 H3.
  destruct (normalize_in_range old_max old_min Hmax Hmin Hlt Hw x)
    as (p & Ep & _); [exact H1 | lra |].
  destruct (normalize_in_range old_max old_min Hmax Hmin Hlt Hw y)
    as (q & Eq & _); [lra | exact H3 |].
  exists p, q. split; [exact Ep | split; [exact Eq |]].
  pose proof (normalize_mono old_max old_min Hmax Hmin Hlt Hw x y H2) as L.
  rewrite Ep, Eq in L. exact L.
Qed.

Lemma normalize_endpoints_monotone_witness :
  normalize (-553 # 1) 1 (-1) (839 # 1) (-553 # 1) = Fin (-1) /\
  normalize (839 # 1) 1 (-1) (839 # 1) (-553 # 1) = Fin 1 /\
  f64_le (normalize (840 # 1) 1 (-1) (839 # 1) (-553 # 1))
         (normalize (50000000 # 1) 1 (-1) (839 # 1) (-553 # 1)) /\
  exists p q : Q,
    normalize 0 1 (-1) (839 # 1) (-553 # 1) = Fin p /\
    normalize (100 # 1) 1 (-1) (839 # 1) (-553 # 1) = Fin q /\
    (p <= q)%Q.
Proof.
  destruct (normalize_endpoints_monotone (839 # 1) (-553 # 1))
    as (Hlo & Hhi & Hmono & Hin).
  - vm_compute. reflexivity.
  - vm_compute. reflexivity.
  - reflexivity.
  - apply Qle_closed. vm_compute. reflexivity.
  - split; [exact Hlo |]. split; [exact Hhi |]. split.
    + apply Hmono. discriminate.
    + apply Hin; discriminate.
Defined.

(** C5 (as stated, refuted). With the range [-553, 839] and the target
    (-1, 1) the raw value 0 does not go to approximately -0.0459: the
    value computed is further than 0.15 from it. *)
Lemma normalize_zero_not_0459 :
  match normalize 0 1 (-1) (839 # 1) (-553 # 1) with
  | Fin v => (15 # 100 < Qabs (v - (-459 # 10000)))%Q
  | _ => False
  end.
Proof. vm_compute. reflexivity. Qed.

(** C5 (amended). With the range [-553, 839] and the target (-1, 1),
    [normalize] sends 839 to 1, -553 to -1 and 0 to -1683/8192 =
    -0.2054443359375, the float16 value nearest to -143/696; that is
    -0.2054 to four decimal places. *)
Theorem normalize_calibration_scenario :
  normalize (839 # 1) 1 (-1) (839 # 1) (-553 # 1) = Fin 1 /\
  normalize (-553 # 1) 1 (-1) (839 # 1) (-553 # 1) = Fin (-1) /\
  normalize 0 1 (-1) (839 # 1) (-553 # 1) = Fin (-1683 # 8192) /\
  ((0 - (-553 # 1)) * (1 - -1) / ((839 # 1) - (-553 # 1)) + -1 == -143 # 696)%Q /\
  round binary16 (-143 # 696) = Fin (-1683 # 8192) /\
  (-1683 # 8192 == -2054443359375 # 10000000000000)%Q /\
  (Qabs ((-1683 # 8192) - (-2054 # 10000)) <= 5 # 100000)%Q.
Proof.
  split; [vm_compute; reflexivity |].
  split; [vm_compute; reflexivity |].
  split; [vm_compute; reflexivity |].
  split; [reflexivity |].
  split; [vm_compute; reflexivity |].
  split; [reflexivity |].
  apply Qle_closed. vm_compute. reflexivity.
Qed.

(** ** Reading one token *)

Lemma world_eta (w : world) : World (rx w) (tx w) (stdout w) = w.
Proof. by destruct w. Qed.

Lemma read_decoded_line (w : world) (line text : string) (rest : list string) :
  rx w = line :: rest -> decode line = Some text ->
  read_decoded w = (Return (strip is_crlf text), World rest (tx w) (stdout w)).
Proof.
  intros Hrx Hdec. unfold read_decoded, bind, readline.
  rewrite Hrx, Hdec. reflexivity.
Qed.

Lemma read_decoded_blank (w : world) :
  Forall blank (take 1 (rx w)) ->
  read_decoded w = (Return EmptyString, World (drop 1 (rx w)) (tx w) (stdout w)).
Proof.
  intros Hb. destruct w as [[|line rest] t o]; [reflexivity|].
  cbn in Hb. apply Forall_cons in Hb as [(text & Hdec & Hstrip) _].
  erewrite read_decoded_line by (cbn; eauto). by rewrite Hstrip.
Qed.

(** Empty tokens only: the loop reads [left + 1] times, reports and
    leaves with the empty token. *)
Lemma read_token_exhausted (left : nat) (w : world) :
  Forall blank (take (S left) (rx w)) ->
  read_token left w =
  (Return EmptyString,
   World (drop (S left) (rx w)) (tx w) (stdout w ++ [Message FAIL_RETRIEVE])).
Proof.
  revert w. induction left as [|left IH]; intros w Hb.
  - cbn [read_token]. unfold bind at 1.
    rewrite read_decoded_blank by exact Hb. reflexivity.
  - cbn [read_token]. unfold bind at 1.
    assert (H1 : Forall blank (take 1 (rx w))).
    { destruct (rx w); [constructor|]. cbn in *.
      apply Forall_cons in Hb as [? _]. by repeat constructor. }
    rewrite read_decoded_blank by exact H1. cbn [is_empty].
    rewrite IH; cbn [rx tx stdout].
    + by rewrite drop_drop.
    + destruct (rx w); [by rewrite drop_nil, take_nil|].
      cbn in *. rewrite drop_0. by apply Forall_cons in Hb as [_ ?].
Qed.

(** A line with a token: the loop leaves with it at once (after the
    report, when this read was the last one allowed). *)
Lemma read_token_line (left : nat) (w : world) (line text : string)
    (rest : list string) :
  rx w = line :: rest -> decode line = Some text ->
  is_empty (strip is_crlf text) = false ->
  read_token left w =
  (Return (strip is_crlf text),
   World rest (tx w)
     (stdout w ++ match left with 0 => [Message FAIL_RETRIEVE] | _ => [] end)).
Proof.
  intros Hrx Hdec Hne. destruct left; cbn [read_token]; unfold bind at 1;
    erewrite read_decoded_line by eassumption.
  - reflexivity.
  - rewrite Hne. unfold ret. by rewrite app_nil_r.
Qed.

Lemma py_int_empty : py_int EmptyString = None.
Proof. reflexivity. Qed.

Lemma py_float_empty : py_float EmptyString = None.
Proof. reflexivity. Qed.

Lemma sample_of_token (line : string) (raw : Z) :
  sample_of line = Some raw ->
  exists text, decode line = Some text /\
    is_empty (strip is_crlf text) = false /\
    py_int (strip is_crlf text) = Some raw.
Proof.
  unfold sample_of. destruct (decode line) as [text|]; [|discriminate].
  intros H. exists text. repeat split; [|exact H].
  destruct (strip is_crlf text); [discriminate H | reflexivity].
Qed.

(** ** Refilling from lines that carry integers *)

Lemma np_roll_le {A} (a : list A) (shift : nat) :
  shift <= length a ->
  np_roll a shift = drop (length a - shift) a ++ take (length a - shift) a.
Proof.
  intros Hle. unfold np_roll.
  destruct (decide (shift = length a)) as [->|Hne].
  - destruct a as [|x a]; [reflexivity|].
    rewrite Nat.Div0.mod_same, Nat.sub_0_r, Nat.sub_diag.
    by rewrite drop_all, take_ge, drop_0, take_0, app_nil_r.
  - rewrite Nat.mod_small by lia. reflexivity.
Qed.

Lemma length_np_roll {A} (a : list A) (shift : nat) :
  length (np_roll a shift) = length a.
Proof.
  unfold np_roll. rewrite length_app, length_drop, length_take. lia.
Qed.

Lemma setitem_Num_middle (done old : list f64) (x y : f64) :
  setitem (done ++ x :: old) (length done) (Num y) = Return (done ++ y :: old).
Proof.
  unfold setitem.
  assert (H : (length done <? length (done ++ x :: old)) = true).
  { apply Nat.ltb_lt. rewrite length_app. cbn. lia. }
  rewrite H. f_equal.
  rewrite insert_app_r_alt by lia. by rewrite Nat.sub_diag.
Qed.

(** One sample from a line that carries the integer [raw], stored at the
    slot that follows [done]. *)
Lemma read_sample_clean (overlapping max_attempts i : nat) (old_max old_min : Q)
    (done old : list f64) (x : f64) (w : world) (line : string)
    (rest : list string) (raw : Z) :
  rx w = line :: rest -> sample_of line = Some raw -> convertible raw ->
  length done = i + overlapping ->
  exists out,
    read_sample overlapping (Some (old_max, old_min)) max_attempts i
      (done ++ x :: old) w =
    (Return (done ++ calibrated old_max old_min raw :: old),
     World rest (tx w) out) /\
    (2 <= max_attempts -> out = stdout w).
Proof.
  intros Hrx Hs [q Hq] Hlen.
  apply sample_of_token in Hs as (text & Hdec & Hne & Hint).
  eexists. split.
  - unfold read_sample. unfold bind at 1.
    erewrite read_token_line by eassumption.
    unfold bind at 1. rewrite Hint, Hq. unfold ret at 1.
    rewrite <- Hlen, setitem_Num_middle. reflexivity.
  - intros Hma. cbn [stdout].
    destruct (max_attempts - 1) eqn:E; [lia|]. by rewrite app_nil_r.
Qed.

Lemma for_range_clean (overlapping max_attempts : nat) (old_max old_min : Q)
    (rest : list string) (raws : list Z) :
  forall (lines : list string) (done old : list f64) (i : nat) (w : world),
  rx w = lines ++ rest ->
  map sample_of lines = map Some raws ->
  Forall convertible raws ->
  length old = length raws ->
  length done = i + overlapping ->
  exists out,
    for_range (length raws) i
      (read_sample overlapping (Some (old_max, old_min)) max_attempts)
      (done ++ old) w =
    (Return (done ++ map (calibrated old_max old_min) raws),
     World rest (tx w) out) /\
    (2 <= max_attempts -> out = stdout w).
Proof.
  induction raws as [|raw raws IH];
    intros lines done old i w Hrx Hmap Hconv Hold Hdone.
  - destruct lines; [|discriminate]. destruct old; [|discriminate].
    exists (stdout w). cbn in *. unfold ret. rewrite <- Hrx, world_eta. done.
  - destruct lines as [|line lines]; [discriminate|].
    destruct old as [|x old]; [discriminate|].
    cbn in Hmap. injection Hmap as Hline Hmap. injection Hold as Hold.
    apply Forall_cons in Hconv as [Hraw Hconv].
    destruct (read_sample_clean overlapping max_attempts i old_max old_min
                done old x w line (lines ++ rest) raw Hrx Hline Hraw Hdone)
      as (out1 & Hstep & Hout1).
    cbn [length for_range]. unfold bind at 1. rewrite Hstep.
    destruct (IH lines (done ++ [calibrated old_max old_min raw]) old (S i)
                (World (lines ++ rest) (tx w) out1))
      as (out2 & Hloop & Hout2); try done.
    { rewrite length_app. cbn. lia. }
    rewrite <- !app_assoc in Hloop. cbn in Hloop.
    exists out2. split; [exact Hloop|].
    intros Hma. rewrite Hout2, Hout1 by exact Hma. reflexivity.
Qed.

(** A refill with normalisation, fed [buffer_size - overlapping] lines
    that each carry an integer: the last [overlapping] entries of the old
    buffer come first, the normalised samples follow. *)
Lemma arduino_read_clean (buffer : list f64) (overlapping max_attempts : nat)
    (old_max old_min : Q) (lines rest : list string) (raws : list Z)
    (w : world) :
  overlapping <= length buffer ->
  rx w = lines ++ rest ->
  map sample_of lines = map Some raws ->
  Forall convertible raws ->
  length raws = length buffer - overlapping ->
  exists out,
    arduino_read buffer (length buffer) overlapping
      (Some (old_max, old_min)) max_attempts w =
    (Return (drop (length buffer - overlapping) buffer ++
             map (calibrated old_max old_min) raws),
     World rest (tx w) out) /\
    (2 <= max_attempts -> out = stdout w).
Proof.
  intros Hov Hrx Hmap Hconv Hlen. unfold arduino_read.
  rewrite np_roll_le by exact Hov. rewrite <- Hlen.
  apply for_range_clean with (lines := lines); try done.
  - rewrite length_take. lia.
  - rewrite length_drop. lia.
Qed.

(** C3 (as stated, refuted). The refill does not rotate left: on the
    buffer [1, 2, 3, 4] with an overlap of 1 the first entry of the result
    is the old last entry 4, where a left rotation by 1 puts 2. *)
Lemma arduino_read_not_left_rotation :
  let buffer := [Fin 1; Fin (2 # 1); Fin (3 # 1); Fin (4 # 1)] in
  let w := World ["839" +:+ crlf; "-553" +:+ crlf; "0" +:+ crlf] [] [] in
  exists buffer' w',
    arduino_read buffer 4 1 (Some (839 # 1, -553 # 1)) 10 w
      = (Return buffer', w') /\
    take 1 buffer' = [Fin (4 # 1)] /\
    take 1 (rotate 1 buffer) = [Fin (2 # 1)] /\
    take 1 buffer' <> take 1 (rotate 1 buffer).
Proof.
  cbv zeta. eexists. eexists. split; [vm_compute; reflexivity|].
  repeat split. discriminate.
Qed.

(** C3 (amended). For a buffer of length [buffer_size] and an overlap of
    at most [buffer_size], a refill fed lines that each carry an integer
    (one that float64 can hold) rotates the buffer right by [overlapping]
    ([np.roll] with a positive shift), so that the first [overlapping]
    positions hold the last [overlapping] entries of the old buffer and
    never a fresh sample, and overwrites exactly the positions from
    [overlapping] on with the samples read, normalised by
    [(raw - old_min) * (1 - (-1)) / (old_max - old_min) + (-1)], each
    operation of which is done in float64, the result being rounded to
    float16; when the calibration bounds are integers below [2^52] in
    magnitude, what is stored for a sample of the range is within
    [2^-10] of the exact value of that expression. *)
Theorem arduino_read_rolls_right_then_refills
    (buffer : list f64) (overlapping max_attempts : nat) (old_max old_min : Q)
    (lines rest : list string) (raws : list Z) (w : world) :
  overlapping <= length buffer ->
  rx w = lines ++ rest ->
  map sample_of lines = map Some raws ->
  Forall convertible raws ->
  length raws = length buffer - overlapping ->
  exists buffer' w',
    arduino_read buffer (length buffer) overlapping
      (Some (old_max, old_min)) max_attempts w = (Return buffer', w') /\
    rx w' = rest /\
    length buffer' = length buffer /\
    take overlapping buffer' = take overlapping (np_roll buffer overlapping) /\
    take overlapping (np_roll buffer overlapping)
      = drop (length buffer - overlapping) buffer /\
    drop overlapping buffer' = map (calibrated old_max old_min) raws /\
    (forall raw,
      calibrated old_max old_min raw =
      to_float16
        (f64_add
           (f64_div
              (f64_mul (f64_sub (to_float64 (inject_Z raw)) (Fin old_min))
                       (to_float64 (1 - -1)))
              (f64_sub (Fin old_max) (Fin old_min)))
           (to_float64 (-1)))) /\
    (forall lo hi raw : Z,
      old_min = inject_Z lo -> old_max = inject_Z hi ->
      (Z.abs lo < 2 ^ 52)%Z -> (Z.abs hi < 2 ^ 52)%Z ->
      (lo < hi)%Z -> (lo <= raw <= hi)%Z ->
      exists q,
        calibrated old_max old_min raw = Fin q /\
        (Qabs (q - ((inject_Z raw - old_min) * (1 - -1)
                    / (old_max - old_min) + -1)) <= 1 # 1024)%Q).
Proof.
  intros Hov Hrx Hmap Hconv Hlen.
  destruct (arduino_read_clean buffer overlapping max_attempts old_max old_min
              lines rest raws w Hov Hrx Hmap Hconv Hlen) as (out & Hread & _).
  assert (Hd : length (drop (length buffer - overlapping) buffer) = overlapping)
    by (rewrite length_drop; lia).
  eexists. eexists. split; [exact Hread|]. cbn [rx].
  split; [reflexivity|]. split.
  { rewrite length_app, length_map, Hd. lia. }
  split.
  { rewrite np_roll_le by exact Hov.
    rewrite !take_app_length'; done. }
  split.
  { rewrite np_roll_le by exact Hov. rewrite take_app_length'; done. }
  split.
  { rewrite drop_app_length'; done. }
  split; [intros raw; reflexivity |].
  intros lo hi raw -> -> Hlo Hhi Hlt Hraw. unfold calibrated.
  by apply normalize_accuracy.
Qed.

Lemma arduino_read_rolls_right_then_refills_witness :
  let buffer := [Fin 1; Fin (2 # 1); Fin (3 # 1); Fin (4 # 1)] in
  let lines := ["839" +:+ crlf; "-553" +:+ crlf; "0" +:+ crlf] in
  let raws := [839; -553; 0]%Z in
  (exists buffer' w',
    arduino_read buffer 4 1 (Some (839 # 1, -553 # 1)) 10
      (World (lines ++ ["7" +:+ crlf]) [] []) = (Return buffer', w') /\
    rx w' = ["7" +:+ crlf] /\
    length buffer' = 4 /\
    take 1 buffer' = take 1 (np_roll buffer 1) /\
    take 1 (np_roll buffer 1) = drop 3 buffer /\
    drop 1 buffer' = map (calibrated (839 # 1) (-553 # 1)) raws /\
    (forall raw,
      calibrated (839 # 1) (-553 # 1) raw =
      to_float16
        (f64_add
           (f64_div
              (f64_mul (f64_sub (to_float64 (inject_Z raw)) (Fin (-553 # 1)))
                       (to_float64 (1 - -1)))
              (f64_sub (Fin (839 # 1)) (Fin (-553 # 1))))
           (to_float64 (-1)))) /\
    (forall lo hi raw : Z,
      -553 # 1 = inject_Z lo -> 839 # 1 = inject_Z hi ->
      (Z.abs lo < 2 ^ 52)%Z -> (Z.abs hi < 2 ^ 52)%Z ->
      (lo < hi)%Z -> (lo <= raw <= hi)%Z ->
      exists q,
        calibrated (839 # 1) (-553 # 1) raw = Fin q /\
        (Qabs (q - ((inject_Z raw - (-553 # 1)) * (1 - -1)
                    / ((839 # 1) - (-553 # 1)) + -1)) <= 1 # 1024)%Q)) /\
  map (calibrated (839 # 1) (-553 # 1)) raws
    = [Fin 1; Fin (-1); Fin (-1683 # 8192)].
Proof.
  cbv zeta. split.
  - apply (arduino_read_rolls_right_then_refills
             [Fin 1; Fin (2 # 1); Fin (3 # 1); Fin (4 # 1)] 1 10
             (839 # 1) (-553 # 1)
             ["839" +:+ crlf; "-553" +:+ crlf; "0" +:+ crlf] ["7" +:+ crlf]
             [839; -553; 0]%Z
             (World (["839" +:+ crlf; "-553" +:+ crlf; "0" +:+ crlf]
                     ++ ["7" +:+ crlf]) [] [])).
    + cbn. lia.
    + reflexivity.
    + vm_compute. reflexivity.
    + repeat constructor; eexists; vm_compute; reflexivity.
    + reflexivity.
  - vm_compute. reflexivity.
Defined.

(** C8 (as stated, refuted). With the range [-553, 839] the accepted raw
    sample 1000 is stored as a value above 1. *)
Lemma arduino_read_stores_above_one :
  exists v w',
    arduino_read [Fin 0] 1 0 (Some (839 # 1, -553 # 1)) 10
      (World ["1000" +:+ crlf] [] []) = (Return [Fin v], w') /\
    (1 < v)%Q.
Proof. eexists. eexists. split; vm_compute; reflexivity. Qed.

Lemma calibrated_in_range (old_max old_min : Q) (raw : Z) :
  is_float64 old_max -> is_float64 old_min ->
  (old_min < old_max)%Q -> (old_max - old_min <= pow2 1022)%Q ->
  (old_min <= inject_Z raw <= old_max)%Q ->
  exists q, calibrated old_max old_min raw = Fin q /\ (-1 <= q <= 1)%Q.
Proof.
  intros Hmax Hmin Hlt Hw [Hlo Hhi]. unfold calibrated.
  by apply normalize_in_range.
Qed.

(** C8 (amended). With normalisation enabled over a calibration range of
    float64 values [old_min < old_max] (of a width of [2^1022] at most),
    in a refill fed lines that each carry an integer, every raw sample
    that lies within the calibration range is stored as a value of
    [-1, 1], whatever the other samples of the refill are. *)
Theorem arduino_read_stores_within_unit_range
    (buffer : list f64) (overlapping max_attempts : nat) (old_max old_min : Q)
    (lines rest : list string) (raws : list Z) (w : world) :
  overlapping <= length buffer ->
  rx w = lines ++ rest ->
  map sample_of lines = map Some raws ->
  Forall convertible raws ->
  length raws = length buffer - overlapping ->
  is_float64 old_max -> is_float64 old_min ->
  (old_min < old_max)%Q -> (old_max - old_min <= pow2 1022)%Q ->
  exists buffer' w',
    arduino_read buffer (length buffer) overlapping
      (Some (old_max, old_min)) max_attempts w = (Return buffer', w') /\
    forall k raw, raws !! k = Some raw ->
      (old_min <= inject_Z raw <= old_max)%Q ->
      exists q, buffer' !! (overlapping + k) = Some (Fin q) /\ (-1 <= q <= 1)%Q.
Proof.
  intros Hov Hrx Hmap Hconv Hlen Hmax Hmin Hlt Hw.
  destruct (arduino_read_clean buffer overlapping max_attempts old_max old_min
              lines rest raws w Hov Hrx Hmap Hconv Hlen) as (out & Hread & _).
  eexists. eexists. split; [exact Hread|].
  intros k raw Hk Hin.
  assert (Hd : length (drop (length buffer - overlapping) buffer) = overlapping)
    by (rewrite length_drop; lia).
  rewrite lookup_app_r by lia. rewrite Hd, list_lookup_fmap.
  replace (overlapping + k - overlapping) with k by lia. rewrite Hk. cbn.
  destruct (calibrated_in_range old_max old_min raw Hmax Hmin Hlt Hw Hin)
    as (q & -> & Hq).
  eauto.
Qed.

Lemma arduino_read_stores_within_unit_range_witness :
  exists buffer' w',
    arduino_read [Fin 0; Fin 0; Fin 0] 3 1 (Some (839 # 1, -553 # 1)) 10
      (World ["1000" +:+ crlf; "-100" +:+ crlf] [] []) = (Return buffer', w') /\
    forall k raw, [1000; -100]%Z !! k = Some raw ->
      (-553 # 1 <= inject_Z raw <= 839 # 1)%Q ->
      exists q, buffer' !! (1 + k) = Some (Fin q) /\ (-1 <= q <= 1)%Q.
Proof.
  apply (arduino_read_stores_within_unit_range [Fin 0; Fin 0; Fin 0] 1 10
           (839 # 1) (-553 # 1) ["1000" +:+ crlf; "-100" +:+ crlf] []
           [1000; -100]%Z (World ["1000" +:+ crlf; "-100" +:+ crlf] [] [])).
  - cbn. lia.
  - reflexivity.
  - vm_compute. reflexivity.
  - repeat constructor; eexists; vm_compute; reflexivity.
  - reflexivity.
  - vm_compute. reflexivity.
  - vm_compute. reflexivity.
  - reflexivity.
  - apply Qle_closed. vm_compute. reflexivity.
Defined.

(** ** Decision and dispatch *)

Lemma argmax_from_spec (L : list Q) :
  forall (v : list Q) (best : nat) (top : Q) (i : nat),
  drop i L = v -> best < i -> L !! best = Some top ->
  (forall j s, j < i -> L !! j = Some s ->
     (s <= top)%Q /\ (j < best -> (s < top)%Q)) ->
  exists top',
    L !! argmax_from best top i v = Some top' /\
    forall j s, L !! j = Some s ->
      (s <= top')%Q /\ (j < argmax_from best top i v -> (s < top')%Q).
Proof.
  induction v as [|x v IH]; intros best top i Hdrop Hlt Hbest Hinv.
  - exists top. split; [exact Hbest|]. intros j s Hj. apply Hinv; [|exact Hj].
    apply lookup_lt_Some in Hj. apply drop_nil_inv in Hdrop. lia.
  - assert (Hi : L !! i = Some x).
    { pose proof (lookup_drop L i 0) as H. rewrite Hdrop in H.
      rewrite Nat.add_0_r in H. by rewrite <- H. }
    assert (Hdrop' : drop (S i) L = v).
    { replace (S i) with (i + 1) by lia. rewrite <- drop_drop, Hdrop. reflexivity. }
    cbn [argmax_from]. destruct (Qle_bool x top) eqn:E.
    + apply Qle_bool_iff in E. apply IH; [done|lia|done|].
      intros j s Hj Hs. destruct (decide (j = i)) as [->|Hne].
      * rewrite Hi in Hs. injection Hs as <-. split; [done|lia].
      * apply Hinv; [lia|done].
    + assert (Hgt : (top < x)%Q).
      { apply Qnot_le_lt. intros H. apply Qle_bool_iff in H. congruence. }
      apply IH; [done|lia|done|].
      intros j s Hj Hs. destruct (decide (j = i)) as [->|Hne].
      * rewrite Hi in Hs. injection Hs as <-. split; [apply Qle_refl|lia].
      * destruct (Hinv j s) as [Hle _]; [lia|done|].
        split; [|intros _]; lra.
Qed.

(** [np.argmax] returns the first index that holds the largest value. *)
Lemma np_argmax_spec (x : Q) (v : list Q) :
  exists idx top,
    np_argmax (x :: v) = Return idx /\
    (x :: v) !! idx = Some top /\
    forall j s, (x :: v) !! j = Some s ->
      (s <= top)%Q /\ (j < idx -> (s < top)%Q).
Proof.
  destruct (argmax_from_spec (x :: v) v 0 x 1) as (top & Htop & Hmax).
  - reflexivity.
  - lia.
  - reflexivity.
  - intros j s Hj Hs. assert (j = 0) as -> by lia.
    injection Hs as <-. split; [apply Qle_refl|lia].
  - exists (argmax_from 0 x 1 v), top. done.
Qed.

Lemma decide_dispatch_eq (prediction mask result : list Q) (idx : nat)
    (emotion command : string) (w : world) :
  np_multiply prediction mask = Return result ->
  np_argmax result = Return idx ->
  EMOTIONS !! idx = Some emotion ->
  COMMANDS !! idx = Some command ->
  decide_dispatch prediction mask w =
  (Return (emotion, command),
   World (rx w) (tx w ++ [command])
     (stdout w ++ [Scores result; Message ("Emotion: " +:+ emotion +:+ LF)])).
Proof.
  intros Hmul Harg Hemo Hcmd.
  unfold decide_dispatch, bind, lift, getitem, write, print, ret, encode.
  rewrite Hmul, Harg, Hemo, Hcmd. cbn. by rewrite <- app_assoc.
Qed.


(** With four probabilities and four weights the decision succeeds and
    leaves the incoming lines alone. *)
Lemma decide_dispatch_four (prediction mask : list Q) :
  length prediction = 4 -> length mask = 4 ->
  exists idx emotion command top,
    np_argmax (zip_with Qmult prediction mask) = Return idx /\
    EMOTIONS !! idx = Some emotion /\
    COMMANDS !! idx = Some command /\
    zip_with Qmult prediction mask !! idx = Some top /\
    (forall j s, zip_with Qmult prediction mask !! j = Some s ->
       (s <= top)%Q /\ (j < idx -> (s < top)%Q)) /\
    forall w,
      decide_dispatch prediction mask w =
      (Return (emotion, command),
       World (rx w) (tx w ++ [command])
         (stdout w ++ [Scores (zip_with Qmult prediction mask);
                       Message ("Emotion: " +:+ emotion +:+ LF)])).
Proof.
  intros Hp Hm.
  assert (Hlen : length (zip_with Qmult prediction mask) = 4).
  { rewrite length_zip_with, Hp, Hm. reflexivity. }
  destruct (zip_with Qmult prediction mask) as [|x v] eqn:Ez; [discriminate|].
  destruct (np_argmax_spec x v) as (idx & top & Harg & Htop & Hmax).
  assert (Hidx : idx < 4) by (apply lookup_lt_Some in Htop; lia).
  destruct (lookup_lt_is_Some_2 EMOTIONS idx Hidx) as [emotion Hemo].
  destruct (lookup_lt_is_Some_2 COMMANDS idx Hidx) as [command Hcmd].
  exists idx, emotion, command, top.
  split; [exact Harg|]. split; [exact Hemo|]. split; [exact Hcmd|].
  split; [exact Htop|]. split; [exact Hmax|].
  intros w. apply decide_dispatch_eq with (idx := idx); try done.
  unfold np_multiply. rewrite Hp, Hm, Ez. reflexivity.
Qed.

(** C6. The probabilities [0.99700433, 0.8471093, 2.38675348,
    1.45389081] weighted by the mask [1, 30000, 40000, 500] have their
    largest score at index 2, so the decision is the label 'surprise' and
    the command byte 'c' is written to the port. *)
Theorem decide_surprise_scenario (w : world) :
  let prediction :=
    [99700433 # 100000000; 8471093 # 10000000;
     238675348 # 100000000; 145389081 # 100000000]%Q in
  let result := zip_with Qmult prediction RECOG_MASK in
  np_multiply prediction RECOG_MASK = Return result /\
  Forall2 Qeq result
    [99700433 # 100000000; 25413279 # 1000; 954701392 # 10000;
     726945405 # 1000000]%Q /\
  np_argmax result = Return 2 /\
  decide_dispatch prediction RECOG_MASK w =
  (Return ("surprise", "c"),
   World (rx w) (tx w ++ ["c"])
     (stdout w ++ [Scores result; Message ("Emotion: surprise" +:+ LF)])).
Proof.
  cbv zeta. split; [reflexivity|]. split.
  { repeat constructor; vm_compute; reflexivity. }
  split; [vm_compute; reflexivity|].
  apply decide_dispatch_eq with (idx := 2); reflexivity.
Qed.




(** ** Consecutive rounds *)

Lemma OVERLAPPED_le_BUFFER_SIZE : OVERLAPPED <= BUFFER_SIZE.
Proof. unfold OVERLAPPED, BUFFER_SIZE. lia. Qed.

Lemma length_np_zeros (n : nat) : length (np_zeros n) = n.
Proof. apply length_replicate. Qed.

Lemma np_zeros_tail (n k : nat) :
  k <= n -> drop (n - k) (np_zeros n) = np_zeros k.
Proof.
  intros Hk. unfold np_zeros. rewrite drop_replicate. f_equal. lia.
Qed.

(** One round fed [BUFFER_SIZE - OVERLAPPED] lines that each carry an
    integer: its window is [OVERLAPPED] zeros followed by the normalised
    samples. *)
Lemma tflite_round_clean (TUNING_MAX TUNING_MIN : Q)
    (extract_and_infer : list f64 -> list Q)
    (lines rest : list string) (raws : list Z) (w : world) :
  (forall data, length (extract_and_infer data) = 4) ->
  rx w = lines ++ rest ->
  map sample_of lines = map Some raws ->
  Forall convertible raws ->
  length raws = BUFFER_SIZE - OVERLAPPED ->
  exists w',
    tflite_round TUNING_MAX TUNING_MIN extract_and_infer w =
    (Return (np_zeros OVERLAPPED ++ map (calibrated TUNING_MAX TUNING_MIN) raws),
     w') /\
    rx w' = rest.
Proof.
  intros Hinfer Hrx Hmap Hconv Hlen.
  pose proof OVERLAPPED_le_BUFFER_SIZE as Hle.
  destruct (arduino_read_clean (np_zeros BUFFER_SIZE) OVERLAPPED
              DEFAULT_MAX_ATTEMPTS TUNING_MAX TUNING_MIN lines rest raws w)
    as (out & Hread & _).
  { by rewrite length_np_zeros. }
  { exact Hrx. }
  { exact Hmap. }
  { exact Hconv. }
  { by rewrite length_np_zeros. }
  rewrite length_np_zeros, np_zeros_tail in Hread by exact Hle.
  unfold tflite_round, tflite_window. unfold bind at 1. rewrite Hread.
  set (data := np_zeros OVERLAPPED ++ _).
  destruct (decide_dispatch_four (extract_and_infer data) RECOG_MASK)
    as (idx & emotion & command & top & _ & _ & _ & _ & _ & Hrun).
  { apply Hinfer. }
  { reflexivity. }
  unfold bind. rewrite Hrun. eexists. split; reflexivity.
Qed.

Lemma sample_of_replicate (n : nat) (line : string) (raw : Z) :
  sample_of line = Some raw ->
  map sample_of (replicate n line) = map Some (replicate n raw).
Proof.
  intros Hs. change map with (@fmap list _). by rewrite !fmap_replicate, Hs.
Qed.

(** C2 (the overlap between consecutive windows is attempted, and
    missed). With the range [-553, 839], on a port that delivers the
    line "839" for the first round and "-553" for the second, both
    windows have [BUFFER_SIZE] entries, but the second retains nothing of
    the first: every round rolls a new [np.zeros(BUFFER_SIZE)], so the
    first [OVERLAPPED] entries of the second window are zeros, while
    every sample of the first window is 1; they are neither the last
    [OVERLAPPED] entries of the first window nor the entries that follow
    its first [OVERLAPPED] ones. *)
Theorem second_round_retains_nothing :
  let infer := fun _ : list f64 => [1; 0; 0; 0]%Q in
  let w :=
    World (replicate (BUFFER_SIZE - OVERLAPPED) ("839" +:+ crlf) ++
           replicate (BUFFER_SIZE - OVERLAPPED) ("-553" +:+ crlf)) [] [] in
  exists prev next w1 w2,
    tflite_round (839 # 1) (-553 # 1) infer w = (Return prev, w1) /\
    tflite_round (839 # 1) (-553 # 1) infer w1 = (Return next, w2) /\
    length prev = BUFFER_SIZE /\
    length next = BUFFER_SIZE /\
    take OVERLAPPED next = np_zeros OVERLAPPED /\
    (forall j, OVERLAPPED <= j < BUFFER_SIZE ->
       exists v, prev !! j = Some (Fin v) /\ (v == 1)%Q) /\
    take OVERLAPPED next <> drop (BUFFER_SIZE - OVERLAPPED) prev /\
    take OVERLAPPED next <> take OVERLAPPED (drop OVERLAPPED prev).
Proof.
  intros infer w.
  pose proof OVERLAPPED_le_BUFFER_SIZE as Hle.
  set (k := BUFFER_SIZE - OVERLAPPED) in *.
  assert (Hk : OVERLAPPED <= k /\ OVERLAPPED + k = BUFFER_SIZE /\ 0 < OVERLAPPED)
    by (unfold k, OVERLAPPED, BUFFER_SIZE; lia).
  pose proof (sample_of_replicate k) as Hmap.
  assert (Hcal : calibrated (839 # 1) (-553 # 1) 839 = Fin 1)
    by (vm_compute; reflexivity).
  destruct (tflite_round_clean (839 # 1) (-553 # 1) infer
              (replicate k ("839" +:+ crlf)) (replicate k ("-553" +:+ crlf))
              (replicate k 839%Z) w) as (w1 & H1 & Hrx1).
  { reflexivity. }
  { reflexivity. }
  { by apply Hmap. }
  { apply Forall_replicate, convertible_small. reflexivity. }
  { apply length_replicate. }
  destruct (tflite_round_clean (839 # 1) (-553 # 1) infer
              (replicate k ("-553" +:+ crlf)) [] (replicate k (-553)%Z) w1)
    as (w2 & H2 & _).
  { reflexivity. }
  { by rewrite app_nil_r. }
  { by apply Hmap. }
  { apply Forall_replicate, convertible_small. reflexivity. }
  { apply length_replicate. }
  set (prev := np_zeros OVERLAPPED ++
               map (calibrated (839 # 1) (-553 # 1)) (replicate k 839%Z)) in *.
  set (next := np_zeros OVERLAPPED ++
               map (calibrated (839 # 1) (-553 # 1)) (replicate k (-553)%Z)) in *.
  assert (Hlenp : length prev = BUFFER_SIZE).
  { unfold prev. rewrite length_app, length_np_zeros, length_map, length_replicate.
    lia. }
  assert (Hlenn : length next = BUFFER_SIZE).
  { unfold next. rewrite length_app, length_np_zeros, length_map, length_replicate.
    lia. }
  assert (Hhead : take OVERLAPPED next = np_zeros OVERLAPPED).
  { unfold next. rewrite take_app_length'; [done|by rewrite length_np_zeros]. }
  assert (Hfresh : forall j, OVERLAPPED <= j < BUFFER_SIZE ->
            prev !! j = Some (Fin 1)).
  { intros j Hj. unfold prev. rewrite lookup_app_r; rewrite length_np_zeros; [|lia].
    change map with (@fmap list _). rewrite fmap_replicate, Hcal.
    apply lookup_replicate_2. lia. }
  assert (Hzero : np_zeros OVERLAPPED !! 0 = Some (Fin 0)).
  { unfold np_zeros. apply lookup_replicate_2. lia. }
  exists prev, next, w1, w2.
  split; [exact H1|]. split; [exact H2|]. split; [exact Hlenp|].
  split; [exact Hlenn|]. split; [exact Hhead|]. split.
  { intros j Hj. rewrite Hfresh by exact Hj. eexists. split; reflexivity. }
  rewrite Hhead. split.
  - intros Heq. rewrite Heq, lookup_drop, Nat.add_0_r in Hzero.
    rewrite Hfresh in Hzero by lia. discriminate Hzero.
  - intros Heq. rewrite Heq in Hzero.
    rewrite lookup_take_lt, lookup_drop, Nat.add_0_r in Hzero by lia.
    rewrite Hfresh in Hzero by lia. discriminate Hzero.
Qed.

(** ** Tokens that are no number *)

Lemma read_decoded_total (w : world) :
  Forall ascii_line (rx w) ->
  exists tok w',
    read_decoded w = (Return tok, w') /\
    Forall ascii_line (rx w') /\ tx w' = tx w.
Proof.
  intros Hall. destruct w as [[|line rest] t o].
  - eexists. eexists. split; [reflexivity|]. done.
  - apply Forall_cons in Hall as [Hline Hrest].
    unfold read_decoded, bind, readline, decode. cbn [rx].
    unfold ascii_line in Hline. rewrite Hline.
    eexists. eexists. split; [reflexivity|]. done.
Qed.

Lemma read_token_total (left : nat) :
  forall w, Forall ascii_line (rx w) ->
  exists tok w',
    read_token left w = (Return tok, w') /\
    Forall ascii_line (rx w') /\ tx w' = tx w.
Proof.
  induction left as [|left IH]; intros w Hall;
    destruct (read_decoded_total w Hall) as (tok & w1 & Hread & Hall1 & Htx1);
    cbn [read_token]; unfold bind at 1; rewrite Hread.
  - eexists. eexists. split; [reflexivity|]. done.
  - destruct (is_empty tok).
    + destruct (IH w1 Hall1) as (tok2 & w2 & Hloop & Hall2 & Htx2).
      rewrite Hloop. eexists. eexists. split; [reflexivity|].
      split; [done|congruence].
    + eexists. eexists. split; [reflexivity|]. done.
Qed.

Lemma setitem_Str_invalid (buffer : list f64) (idx : nat) (tok : string) :
  idx < length buffer -> py_float tok = None ->
  setitem buffer idx (Str tok) = Raise ValueError.
Proof.
  intros Hidx Hf. unfold setitem.
  apply Nat.ltb_lt in Hidx. by rewrite Hidx, Hf.
Qed.

(** Empty tokens, then a line with a token: the loop leaves with it at
    once (after the report, when this read was the last one allowed). *)
Lemma read_token_after_blanks (blanks : list string) :
  forall (left : nat) (w : world) (line text : string) (rest : list string),
  length blanks <= left ->
  Forall blank blanks ->
  rx w = blanks ++ line :: rest ->
  decode line = Some text ->
  is_empty (strip is_crlf text) = false ->
  read_token left w =
  (Return (strip is_crlf text),
   World rest (tx w)
     (stdout w ++ if length blanks <? left then [] else [Message FAIL_RETRIEVE])).
Proof.
  induction blanks as [|b blanks IH]; intros left w line text rest Hlen Hb Hrx Hdec Hne.
  - erewrite read_token_line by eassumption. by destruct left.
  - destruct left as [|left]; [cbn in Hlen; lia|].
    apply Forall_cons in Hb as [(btext & Hbdec & Hbstrip) Hb].
    cbn [read_token]. unfold bind at 1.
    erewrite read_decoded_line by eassumption. rewrite Hbstrip. cbn [is_empty].
    erewrite IH; [reflexivity| |exact Hb|reflexivity|exact Hdec|exact Hne].
    cbn in Hlen. lia.
Qed.

(** C1 (as stated, refuted). A token that is no number is not read
    again: with the line "abc" pending, the refill of one slot reads that
    line alone, reports and leaves the line "5" unread.  And with
    normalisation enabled the exhausted retries are no soft failure: on a
    silent port the refill stops with [ValueError] at its first sample. *)
Lemma retry_claim_fails :
  arduino_read [Fin (7 # 1)] 1 0 None 10
    (World ["abc" +:+ crlf; "5" +:+ crlf] [] [])
  = (Return [Fin (7 # 1)],
     World ["5" +:+ crlf] [] [Message CHECK_MONITOR]) /\
  arduino_read [Fin (7 # 1); Fin (7 # 1)] 2 0 (Some (839 # 1, -553 # 1)) 10
    (World [] [] [])
  = (Raise ValueError, World [] [] [Message FAIL_RETRIEVE]).
Proof. split; vm_compute; reflexivity. Qed.

(** C1 (amended). For every single-sample read of a refill made without
    normalisation ([norm = (None, None)]), whose slot lies in the buffer.
    Only an empty token is read again, until [max_attempts] reads (one at
    least) have been made; when all of them gave the empty token, 'Fail
    to Retrieve Data...' and then the second diagnostic are printed, the
    slot keeps its value and the loop goes on (a soft failure).  A token
    that is not empty, met after fewer than that many empty ones, is
    taken at once, numeric or not, and no line after it is read: if it is
    a number for [float] it is stored in the slot, if not the second
    diagnostic is printed and the slot keeps its value; 'Fail to Retrieve
    Data...' is printed before that exactly when the token came at the
    last read allowed.  On ASCII lines such a read never raises. *)
Theorem read_sample_soft_failure
    (buffer : list f64) (overlapping max_attempts i : nat) (w : world) :
  i + overlapping < length buffer ->
  (Forall blank (take (Nat.max 1 max_attempts) (rx w)) ->
   read_sample overlapping None max_attempts i buffer w =
   (Return buffer,
    World (drop (Nat.max 1 max_attempts) (rx w)) (tx w)
      (stdout w ++ [Message FAIL_RETRIEVE; Message CHECK_MONITOR]))) /\
  (forall blanks line rest text,
     rx w = blanks ++ line :: rest ->
     Forall blank blanks ->
     length blanks < Nat.max 1 max_attempts ->
     decode line = Some text ->
     is_empty (strip is_crlf text) = false ->
     read_sample overlapping None max_attempts i buffer w =
     (Return match py_float (strip is_crlf text) with
             | Some x => <[i + overlapping := x]> buffer
             | None => buffer
             end,
      World rest (tx w)
        (stdout w
         ++ (if length blanks + 1 <? max_attempts then []
             else [Message FAIL_RETRIEVE])
         ++ match py_float (strip is_crlf text) with
            | Some _ => []
            | None => [Message CHECK_MONITOR]
            end))) /\
  (Forall ascii_line (rx w) ->
   exists buffer' w',
     read_sample overlapping None max_attempts i buffer w
       = (Return buffer', w') /\
     length buffer' = length buffer).
Proof.
  intros Hidx. split; [|split].
  - intros Hb. unfold read_sample. unfold bind at 1.
    replace (Nat.max 1 max_attempts) with (S (max_attempts - 1)) in * by lia.
    rewrite read_token_exhausted by exact Hb.
    unfold bind at 1, ret at 1.
    rewrite setitem_Str_invalid by (exact Hidx || reflexivity).
    unfold bind, print, ret. cbn [rx tx stdout].
    by rewrite <- app_assoc.
  - intros blanks line rest text Hrx Hb Hlen Hdec Hne. unfold read_sample.
    unfold bind at 1.
    rewrite (read_token_after_blanks blanks (max_attempts - 1) w line text rest)
      by (lia || assumption).
    assert (E : (length blanks <? max_attempts - 1)
                = (length blanks + 1 <? max_attempts)).
    { destruct (length blanks <? max_attempts - 1) eqn:E1;
        destruct (length blanks + 1 <? max_attempts) eqn:E2; try reflexivity;
        [apply Nat.ltb_lt in E1; apply Nat.ltb_ge in E2
        |apply Nat.ltb_ge in E1; apply Nat.ltb_lt in E2]; lia. }
    rewrite E. unfold bind at 1, ret at 1. unfold setitem.
    apply Nat.ltb_lt in Hidx. rewrite Hidx.
    destruct (py_float (strip is_crlf text)) as [x|].
    + unfold ret. by rewrite app_nil_r.
    + unfold bind, print, ret. cbn [rx tx stdout]. by rewrite <- app_assoc.
  - intros Hall. unfold read_sample.
    destruct (read_token_total (max_attempts - 1) w Hall)
      as (tok & w1 & Hread & _ & _).
    unfold bind at 1. rewrite Hread. unfold bind at 1, ret at 1.
    unfold setitem. apply Nat.ltb_lt in Hidx. rewrite Hidx.
    destruct (py_float tok) as [x|].
    + eexists. eexists. split; [reflexivity|]. apply length_insert.
    + eexists. eexists. split; reflexivity.
Qed.

Lemma read_sample_soft_failure_witness :
  let buffer := [Fin 1; Fin (7 # 1)] in
  let silent := World [crlf; EmptyString; crlf; "5" +:+ crlf] ["x"] [] in
  let word := World ["abc" +:+ crlf; "5" +:+ crlf] ["x"] [] in
  let number := World ["12" +:+ crlf; "5" +:+ crlf] ["x"] [] in
  let late := World [crlf; EmptyString; "12" +:+ crlf; "5" +:+ crlf] ["x"] [] in
  read_sample 1 None 3 0 buffer silent =
    (Return buffer,
     World ["5" +:+ crlf] ["x"]
       [Message FAIL_RETRIEVE; Message CHECK_MONITOR]) /\
  read_sample 1 None 3 0 buffer word =
    (Return buffer,
     World ["5" +:+ crlf] ["x"] [Message CHECK_MONITOR]) /\
  read_sample 1 None 3 0 buffer number =
    (Return [Fin 1; Fin (12 # 1)], World ["5" +:+ crlf] ["x"] []) /\
  read_sample 1 None 3 0 buffer late =
    (Return [Fin 1; Fin (12 # 1)],
     World ["5" +:+ crlf] ["x"] [Message FAIL_RETRIEVE]) /\
  exists buffer' w',
    read_sample 1 None 3 0 buffer word = (Return buffer', w') /\
    length buffer' = 2.
Proof.
  intros buffer silent word number late.
  assert (Hidx : 0 + 1 < length buffer) by (cbn; lia).
  destruct (read_sample_soft_failure buffer 1 3 0 silent Hidx) as (Hexh & _ & _).
  destruct (read_sample_soft_failure buffer 1 3 0 word Hidx) as (_ & Hword & Htot).
  destruct (read_sample_soft_failure buffer 1 3 0 number Hidx) as (_ & Hnum & _).
  destruct (read_sample_soft_failure buffer 1 3 0 late Hidx) as (_ & Hlate & _).
  split; [|split; [|split; [|split]]].
  - apply Hexh. repeat constructor; eexists; split; reflexivity.
  - apply (Hword [] ("abc" +:+ crlf) ["5" +:+ crlf] ("abc" +:+ crlf));
      [reflexivity | constructor | cbn; lia | reflexivity | reflexivity].
  - apply (Hnum [] ("12" +:+ crlf) ["5" +:+ crlf] ("12" +:+ crlf));
      [reflexivity | constructor | cbn; lia | reflexivity | reflexivity].
  - apply (Hlate [crlf; EmptyString] ("12" +:+ crlf) ["5" +:+ crlf] ("12" +:+ crlf));
      [reflexivity | | cbn; lia | reflexivity | reflexivity].
    repeat constructor; eexists; split; reflexivity.
  - apply Htot. repeat constructor.
Defined.

(** ** Activation *)

Lemma lower_char_x (c : ascii) :
  lower_char c = "x"%char <-> c = "x"%char \/ c = "X"%char.
Proof.
  destruct c as [[] [] [] [] [] [] [] []];
    (split; [intros H; vm_compute in H; first [discriminate H | auto]
            | intros [H|H]; first [discriminate H | reflexivity]]).
Qed.

Lemma lower_x (typed : string) :
  lower typed = "x" <-> typed = "x" \/ typed = "X".
Proof.
  destruct typed as [|c [|d s]].
  - split; [discriminate|]. intros [H|H]; discriminate H.
  - cbn [lower]. split.
    + intros H. injection H as H. apply lower_char_x in H as [->| ->]; auto.
    + intros [H|H]; injection H as ->; reflexivity.
  - split; [discriminate|]. intros [H|H]; discriminate H.
Qed.

(** C10. Whatever the user types, [arduino_activate] (the port being
    open) returns the serial handle; it writes the typed text, as typed,
    exactly when its lower-case form is 'x', that is for 'x' and for 'X'.
    Typing 'X' therefore sends the byte 'X', which the command handler of
    the board ignores, while 'x' toggles its record mode. *)
Theorem arduino_activate_writes_as_typed (typed : string) (w : world) :
  (exists w',
     arduino_activate None typed w = (Return (Some arduino), w') /\
     rx w' = rx w /\
     ((lower typed = "x" /\ tx w' = tx w ++ [encode typed]) \/
      (lower typed <> "x" /\ tx w' = tx w))) /\
  (lower typed = "x" <-> typed = "x" \/ typed = "X") /\
  tx (snd (arduino_activate None "X" w)) = tx w ++ ["X"] /\
  forall st : Peer.state,
    Peer.on_bytes "X" st = st /\
    Peer.record (Peer.on_bytes "x" st) = negb (Peer.record st).
Proof.
  split; [|split; [apply lower_x|split; [reflexivity|]]].
  - unfold arduino_activate, bind, print, write, ret.
    destruct (String.eqb (lower typed) "x") eqn:E; cbn [rx tx stdout].
    + apply String.eqb_eq in E. eexists. split; [reflexivity|].
      split; [reflexivity|]. left. done.
    + apply String.eqb_neq in E. eexists. split; [reflexivity|].
      split; [reflexivity|]. right. done.
  - intros st. split; reflexivity.
Qed.

(** ** The scheduler *)

Import EventLoop.

Lemma tflite_process_data_clean (TUNING_MAX TUNING_MIN : Q)
    (extract_and_infer : list f64 -> list Q)
    (lines rest : list string) (raws : list Z) (w : world) :
  (forall data, length (extract_and_infer data) = 4) ->
  rx w = lines ++ rest ->
  map sample_of lines = map Some raws ->
  Forall convertible raws ->
  length raws = BUFFER_SIZE - OVERLAPPED ->
  exists w',
    tflite_process_data TUNING_MAX TUNING_MIN extract_and_infer w
      = (Return tt, w') /\
    rx w' = rest.
Proof.
  intros Hinfer Hrx Hmap Hconv Hlen.
  destruct (tflite_round_clean TUNING_MAX TUNING_MIN extract_and_infer
              lines rest raws w Hinfer Hrx Hmap Hconv Hlen) as (w' & Hround & Hrest).
  exists w'. split; [|exact Hrest].
  unfold tflite_process_data, bind. rewrite Hround. reflexivity.
Qed.

(** C9 (the concurrency of the rounds is attempted, and missed).
    Two rounds that take one second each, on a port that delivers the
    samples of both, are reported by [tflite_run(2)] as 3.2 s: the two
    blocking launch delays of 0.6 s, during which no round runs, and then
    both rounds one after the other.  The dispatch delays and the longest
    round make 2.2 s; the difference is a whole round. *)
Theorem tflite_run_not_concurrent :
  let work := fun _ : nat => 1%Q in
  let infer := fun _ : list f64 => [1; 0; 0; 0]%Q in
  let k := BUFFER_SIZE - OVERLAPPED in
  let w := World (replicate k ("839" +:+ crlf) ++ replicate k ("-553" +:+ crlf))
             [] [] in
  exists elapsed l',
    tflite_run (839 # 1) (-553 # 1) infer 2 work
      {| clock := 0; ready := []; port_and_console := w |}
      = (Return (2, elapsed), l') /\
    rx (port_and_console l') = [] /\
    (elapsed == 32 # 10)%Q /\
    (2 * DELAY + longest_work work 2 == 22 # 10)%Q /\
    (elapsed - (2 * DELAY + longest_work work 2) == 1)%Q.
Proof.
  intros work infer k w.
  destruct (tflite_process_data_clean (839 # 1) (-553 # 1) infer
              (replicate k ("839" +:+ crlf)) (replicate k ("-553" +:+ crlf))
              (replicate k 839%Z) w) as (w1 & H1 & Hrx1).
  { reflexivity. }
  { reflexivity. }
  { by apply sample_of_replicate. }
  { apply Forall_replicate, convertible_small. reflexivity. }
  { apply length_replicate. }
  destruct (tflite_process_data_clean (839 # 1) (-553 # 1) infer
              (replicate k ("-553" +:+ crlf)) [] (replicate k (-553)%Z) w1)
    as (w2 & H2 & Hrx2).
  { reflexivity. }
  { by rewrite app_nil_r. }
  { by apply sample_of_replicate. }
  { apply Forall_replicate, convertible_small. reflexivity. }
  { apply length_replicate. }
  unfold tflite_run, gather. cbn [launch]. unfold time_sleep, create_task.
  cbn [clock ready port_and_console app run_ready body cost].
  rewrite H1. cbn [run_ready body cost]. rewrite H2.
  cbn [run_ready clock].
  eexists. eexists. split; [reflexivity|].
  split; [exact Hrx2|].
  split; [vm_compute; reflexivity|].
  split; vm_compute; reflexivity.
Qed.

(** * Further properties of the code *)

(** ** [np.roll] as the refill uses it *)

Lemma mod_wrap (a n : nat) : n <= a < n + n -> a mod n = a - n.
Proof.
  intros H. replace a with ((a - n) + 1 * n) at 1 by lia.
  rewrite Nat.Div0.mod_add. apply Nat.mod_small. lia.
Qed.

(** X1. [np.roll(buffer, shift)] keeps the length and moves the element
    at index [i] to index [(i + shift) mod len(buffer)]. *)
Theorem np_roll_moves_right {A} (a : list A) (shift i : nat) :
  i < length a ->
  length (np_roll a shift) = length a /\
  np_roll a shift !! ((i + shift) mod length a) = a !! i.
Proof.
  intros Hi. split; [apply length_np_roll|].
  unfold np_roll. set (n := length a).
  assert (Hr : shift mod n < n) by (apply Nat.mod_upper_bound; lia).
  set (r := shift mod n) in *.
  rewrite <- Nat.Div0.add_mod_idemp_r. fold r.
  destruct (decide (i + r < n)) as [Hlt|Hge].
  - rewrite Nat.mod_small by exact Hlt.
    rewrite lookup_app_r; rewrite length_drop; fold n; [|lia].
    rewrite lookup_take_lt by lia. f_equal. lia.
  - rewrite mod_wrap by lia.
    rewrite lookup_app_l by (rewrite length_drop; fold n; lia).
    rewrite lookup_drop. f_equal. lia.
Qed.

Lemma np_roll_moves_right_witness :
  length (np_roll [10; 20; 30; 40; 50] 2) = 5 /\
  np_roll [10; 20; 30; 40; 50] 2 !! ((4 + 2) mod 5) = [10; 20; 30; 40; 50] !! 4.
Proof.
  apply (np_roll_moves_right [10; 20; 30; 40; 50] 2 4). cbn. lia.
Defined.

(** X2. [np.roll] loses and duplicates nothing: the rolled buffer is a
    permutation of the buffer, and a shift by a multiple of the length
    gives the buffer back. *)
Theorem np_roll_permutation {A} (a : list A) (shift m : nat) :
  np_roll a shift ≡ₚ a /\ np_roll a (m * length a) = a.
Proof.
  split.
  - unfold np_roll. rewrite Permutation_app_comm. by rewrite take_drop.
  - unfold np_roll. rewrite Nat.Div0.mod_mul, Nat.sub_0_r.
    by rewrite drop_all, take_ge, app_nil_l.
Qed.

(** ** What a refill does on any input *)

Lemma read_decoded_effects (w w' : world) (out : outcome string) :
  read_decoded w = (out, w') ->
  tx w' = tx w /\ rx w' = drop 1 (rx w) /\ stdout w' = stdout w.
Proof.
  unfold read_decoded, bind, readline. destruct w as [[|line rest] t o]; cbn.
  - intros H. injection H as _ <-. done.
  - destruct (decode line); intros H; injection H as _ <-; done.
Qed.

Lemma read_token_effects (left : nat) :
  forall (w w' : world) (out : outcome string),
  read_token left w = (out, w') ->
  tx w' = tx w /\
  (exists k, 1 <= k <= S left /\ rx w' = drop k (rx w)) /\
  (exists msgs, stdout w' = stdout w ++ msgs).
Proof.
  induction left as [|left IH]; intros w w' out; cbn [read_token];
    unfold bind at 1; destruct (read_decoded w) as [[tok|e] w1] eqn:Hread;
    apply read_decoded_effects in Hread as (Htx & Hrx & Hout).
  - unfold bind, print, ret. intros H. injection H as _ <-. cbn.
    split; [done|]. split; [exists 1; split; [lia|done]|].
    exists [Message FAIL_RETRIEVE]. by rewrite Hout.
  - intros H. injection H as _ <-. split; [done|].
    split; [exists 1; split; [lia|done]|]. exists []. by rewrite app_nil_r.
  - destruct (is_empty tok).
    + intros H. apply IH in H as (Htx2 & (k & Hk & Hrx2) & (msgs & Hout2)).
      split; [congruence|]. split.
      * exists (S k). split; [lia|]. rewrite Hrx2, Hrx, drop_drop.
        f_equal.
      * exists msgs. congruence.
    + unfold ret. intros H. injection H as _ <-. split; [done|].
      split; [exists 1; split; [lia|done]|]. exists []. by rewrite app_nil_r.
  - intros H. injection H as _ <-. split; [done|].
    split; [exists 1; split; [lia|done]|]. exists []. by rewrite app_nil_r.
Qed.

Lemma read_sample_effects (overlapping max_attempts i : nat)
    (norm : option (Q * Q)) (buffer : list f64) (w w' : world)
    (out : outcome (list f64)) :
  read_sample overlapping norm max_attempts i buffer w = (out, w') ->
  tx w' = tx w /\
  (exists k, k <= Nat.max 1 max_attempts /\ rx w' = drop k (rx w)) /\
  (exists msgs, stdout w' = stdout w ++ msgs) /\
  (forall buffer', out = Return buffer' ->
     i + overlapping < length buffer /\
     length buffer' = length buffer /\
     take (i + overlapping) buffer' = take (i + overlapping) buffer).
Proof.
  unfold read_sample. unfold bind at 1.
  destruct (read_token (max_attempts - 1) w) as [[tok|e] w1] eqn:Hread;
    apply read_token_effects in Hread as (Htx & (k & Hk & Hrx) & (msgs & Hout)).
  2:{ intros H. injection H as <- <-. split; [done|].
      split; [exists k; split; [lia|done]|]. split; [by exists msgs|].
      intros ? [=]. }
  assert (Hreads : exists k, k <= Nat.max 1 max_attempts /\ rx w1 = drop k (rx w))
    by (exists k; split; [lia|done]).
  unfold bind at 1.
  assert (Hstore : forall v out w',
    (match setitem buffer (i + overlapping) v with
     | Return buffer' => ret buffer'
     | Raise ValueError => run print (Message CHECK_MONITOR); ret buffer
     | Raise e => raise e
     end) w1 = (out, w') ->
    tx w' = tx w /\
    (exists k, k <= Nat.max 1 max_attempts /\ rx w' = drop k (rx w)) /\
    (exists msgs, stdout w' = stdout w ++ msgs) /\
    (forall buffer', out = Return buffer' ->
       i + overlapping < length buffer /\
       length buffer' = length buffer /\
       take (i + overlapping) buffer' = take (i + overlapping) buffer)).
  { clear out w'. intros v out w'. unfold setitem.
    destruct (i + overlapping <? length buffer) eqn:Hidx.
    - apply Nat.ltb_lt in Hidx.
      assert (Hins : forall x out w',
        ret (<[i + overlapping := x]> buffer) w1 = (out, w') ->
        tx w' = tx w /\
        (exists k, k <= Nat.max 1 max_attempts /\ rx w' = drop k (rx w)) /\
        (exists msgs, stdout w' = stdout w ++ msgs) /\
        (forall buffer', out = Return buffer' ->
           i + overlapping < length buffer /\
           length buffer' = length buffer /\
           take (i + overlapping) buffer' = take (i + overlapping) buffer)).
      { intros x out0 w0 H. injection H as <- <-. split; [done|].
        split; [done|]. split; [by exists msgs|].
        intros b [= <-]. split; [done|]. split; [apply length_insert|].
        by apply take_insert_ge. }
      destruct v as [s|x]; [|apply Hins].
      destruct (py_float s) as [x|]; [apply Hins|].
      unfold bind, print, ret. intros H. injection H as <- <-. cbn.
      split; [done|]. split; [done|].
      split; [exists (msgs ++ [Message CHECK_MONITOR]);
              by rewrite Hout, app_assoc|].
      intros b [= <-]. done.
    - unfold raise. intros H. injection H as <- <-. split; [done|].
      split; [done|]. split; [by exists msgs|]. intros ? [=]. }
  destruct norm as [[norm0 norm1]|].
  - destruct (py_int tok) as [raw|].
    + destruct (to_float64 (inject_Z raw)); [apply Hstore| |];
        unfold raise; intros H; injection H as <- <-; (split; [done|]);
        (split; [done|]); (split; [by exists msgs|]); intros ? [=].
    + unfold raise. intros H. injection H as <- <-. split; [done|].
      split; [done|]. split; [by exists msgs|]. intros ? [=].
  - apply Hstore.
Qed.

Lemma for_range_effects (overlapping max_attempts : nat)
    (norm : option (Q * Q)) (n : nat) :
  forall (i : nat) (buffer : list f64) (w w' : world)
         (out : outcome (list f64)),
  for_range n i (read_sample overlapping norm max_attempts) buffer w
    = (out, w') ->
  tx w' = tx w /\
  (exists k, k <= n * Nat.max 1 max_attempts /\ rx w' = drop k (rx w)) /\
  (exists msgs, stdout w' = stdout w ++ msgs) /\
  (forall buffer', out = Return buffer' ->
     (n = 0 \/ i + overlapping + n <= length buffer) /\
     length buffer' = length buffer /\
     take (i + overlapping) buffer' = take (i + overlapping) buffer).
Proof.
  induction n as [|n IH]; intros i buffer w w' out.
  - cbn. unfold ret. intros H. injection H as <- <-. split; [done|].
    split; [exists 0; split; [lia|done]|]. split; [exists []; by rewrite app_nil_r|].
    intros b [= <-]. split; [by left|done].
  - cbn [for_range]. unfold bind at 1.
    destruct (read_sample overlapping norm max_attempts i buffer w)
      as [[b1|e] w1] eqn:Hstep;
      apply read_sample_effects in Hstep
        as (Htx & (k & Hk & Hrx) & (msgs & Hout) & Hbuf).
    + destruct (Hbuf b1 eq_refl) as (Hidx & Hlen1 & Htake1).
      intros H. apply IH in H
        as (Htx2 & (k2 & Hk2 & Hrx2) & (msgs2 & Hout2) & Hbuf2).
      split; [congruence|]. split.
      { exists (k + k2). split; [lia|]. by rewrite Hrx2, Hrx, drop_drop. }
      split.
      { exists (msgs ++ msgs2). by rewrite Hout2, Hout, app_assoc. }
      intros b' Hb'. destruct (Hbuf2 b' Hb') as (Hn & Hlen2 & Htake2).
      split; [right; lia|]. split; [congruence|].
      rewrite <- Htake1.
      assert (Hmin : i + overlapping = Nat.min (i + overlapping) (S i + overlapping))
        by lia.
      rewrite Hmin, <- !take_take, Htake2. reflexivity.
    + intros H. injection H as <- <-. split; [done|].
      split; [exists k; split; [lia|done]|]. split; [by exists msgs|].
      intros ? [=].
Qed.

(** X3. Whatever the port delivers and however the refill ends, it never
    writes to the port, it only adds to what was printed, and it takes at
    most [max(1, max_attempts)] lines for each of its [buffer_size -
    overlapping] samples, in order. *)
Theorem arduino_read_effects (buffer : list f64)
    (buffer_size overlapping max_attempts : nat) (norm : option (Q * Q))
    (w w' : world) (out : outcome (list f64)) :
  arduino_read buffer buffer_size overlapping norm max_attempts w = (out, w') ->
  tx w' = tx w /\
  (exists k, k <= (buffer_size - overlapping) * Nat.max 1 max_attempts /\
             rx w' = drop k (rx w)) /\
  (exists msgs, stdout w' = stdout w ++ msgs).
Proof.
  unfold arduino_read. intros H.
  apply for_range_effects in H as (Htx & Hrx & Hout & _). done.
Qed.

Lemma arduino_read_effects_witness :
  let w := World [crlf; "12" +:+ crlf; "abc" +:+ crlf; "7" +:+ crlf] ["x"] [] in
  let w' := World ["7" +:+ crlf] ["x"] [Message CHECK_MONITOR] in
  tx w' = tx w /\
  (exists k, k <= (2 - 0) * Nat.max 1 3 /\ rx w' = drop k (rx w)) /\
  (exists msgs, stdout w' = stdout w ++ msgs).
Proof.
  intros w w'.
  apply (arduino_read_effects [Fin 0; Fin 0] 2 0 3 None w w'
           (Return [Fin (12 # 1); Fin 0])).
  vm_compute. reflexivity.
Defined.

(** X4. A refill that returns has kept the length of the buffer, and its
    first [overlapping] entries are the last [overlapping] entries of the
    buffer it was given, for every [norm] and whatever was read; and it
    returns only if every slot it was asked to fill exists
    ([buffer_size <= len(buffer)], or nothing to fill): asked for more, it
    ends in an exception. *)
Theorem arduino_read_keeps_overlap (buffer buffer' : list f64)
    (buffer_size overlapping max_attempts : nat) (norm : option (Q * Q))
    (w w' : world) :
  arduino_read buffer buffer_size overlapping norm max_attempts w
    = (Return buffer', w') ->
  length buffer' = length buffer /\
  (buffer_size <= overlapping \/ buffer_size <= length buffer) /\
  (overlapping <= length buffer ->
   take overlapping buffer' = drop (length buffer - overlapping) buffer).
Proof.
  unfold arduino_read. intros H.
  apply for_range_effects in H as (_ & _ & _ & Hbuf).
  destruct (Hbuf buffer' eq_refl) as (Hn & Hlen & Htake).
  rewrite length_np_roll in *. split; [exact Hlen|]. split; [lia|].
  intros Hov. cbn in Htake. rewrite Htake.
  rewrite np_roll_le by exact Hov.
  rewrite take_app_length'; [done|]. rewrite length_drop. lia.
Qed.

Lemma arduino_read_keeps_overlap_witness :
  length [Fin (3 # 1); Fin (12 # 1); Fin (2 # 1)] = 3 /\
  (3 <= 1 \/ 3 <= 3) /\
  (1 <= 3 -> take 1 [Fin (3 # 1); Fin (12 # 1); Fin (2 # 1)]
             = drop (3 - 1) [Fin 1; Fin (2 # 1); Fin (3 # 1)]).
Proof.
  apply (arduino_read_keeps_overlap
           [Fin 1; Fin (2 # 1); Fin (3 # 1)]
           [Fin (3 # 1); Fin (12 # 1); Fin (2 # 1)] 3 1 3 None
           (World ["12" +:+ crlf; "abc" +:+ crlf] [] [])
           (World [] [] [Message CHECK_MONITOR])).
  vm_compute. reflexivity.
Defined.

(** ** The line protocol: what the board prints, what the host parses *)

Lemma digit_char_spec (d : Z) :
  (0 <= d < 10)%Z ->
  is_digit (Peer.digit_char d) = true /\
  digit_val (Peer.digit_char d) = d /\
  plain (Peer.digit_char d) = true.
Proof.
  intros Hd. unfold Peer.digit_char.
  assert (H : exists n, n < 10 /\ d = Z.of_nat n)
    by (exists (Z.to_nat d); lia).
  destruct H as (n & Hn & ->). rewrite Nat2Z.id.
  do 10 (destruct n as [|n]; [vm_compute; done|]). lia.
Qed.

Lemma append_cons (c : ascii) (s t : string) :
  String c s +:+ t = String c (s +:+ t).
Proof. reflexivity. Qed.

Lemma append_nil_l (t : string) : EmptyString +:+ t = t.
Proof. reflexivity. Qed.

Lemma append_nil_r (s : string) : s +:+ EmptyString = s.
Proof.
  induction s as [|c s IH]; [reflexivity|]. by rewrite append_cons, IH.
Qed.

Lemma digits_string_cons (d : Z) (ds : list Z) :
  digits_string (d :: ds) = String (Peer.digit_char d) (digits_string ds).
Proof. reflexivity. Qed.

Lemma digits_string_app (ds : list Z) (d : Z) (str : string) :
  digits_string (ds ++ [d]) +:+ str
  = digits_string ds +:+ String (Peer.digit_char d) str.
Proof.
  induction ds as [|x ds IH]; [reflexivity|].
  change ((x :: ds) ++ [d]) with (x :: (ds ++ [d])).
  rewrite !digits_string_cons, !append_cons. f_equal. exact IH.
Qed.

(** The digits that [printNumber] writes in front of [str]. *)
Lemma printNumber_loop_digits (fuel : nat) :
  forall (n : Z) (str : string),
  (0 <= n < 10 ^ Z.of_nat fuel)%Z -> 0 < fuel ->
  exists ds,
    ds <> [] /\ Forall (fun d => (0 <= d < 10)%Z) ds /\
    Peer.printNumber_loop fuel n str = digits_string ds +:+ str /\
    digits_value 0 ds = n.
Proof.
  induction fuel as [|fuel IH]; intros n str Hn Hfuel; [lia|].
  cbn [Peer.printNumber_loop].
  assert (Hd : (0 <= n mod 10 < 10)%Z) by (apply Z.mod_pos_bound; lia).
  destruct (n / 10 =? 0)%Z eqn:E.
  - apply Z.eqb_eq in E. exists [(n mod 10)%Z].
    split; [done|]. split; [constructor; [exact Hd|constructor]|].
    split; [done|]. cbn. pose proof (Z.div_mod n 10). lia.
  - apply Z.eqb_neq in E.
    assert (Hq : (0 <= n / 10 < 10 ^ Z.of_nat fuel)%Z).
    { split; [apply Z.div_pos; lia|].
      apply Z.div_lt_upper_bound; [lia|].
      rewrite Nat2Z.inj_succ, Z.pow_succ_r in Hn by lia. lia. }
    assert (Hf : 0 < fuel).
    { destruct fuel; [|lia]. cbn in Hq. lia. }
    destruct (IH (n / 10)%Z (String (Peer.digit_char (n mod 10)) str) Hq Hf)
      as (ds & Hne & Hall & Hstr & Hval).
    exists (ds ++ [(n mod 10)%Z]).
    split; [by destruct ds|].
    split; [apply Forall_app; split; [exact Hall|constructor; [exact Hd|constructor]]|].
    split; [by rewrite digits_string_app|].
    unfold digits_value in *. rewrite fold_left_app. cbn. rewrite Hval.
    pose proof (Z.div_mod n 10). lia.
Qed.

Lemma printNumber_digits (n : Z) :
  (0 <= n)%Z ->
  exists ds,
    ds <> [] /\ Forall (fun d => (0 <= d < 10)%Z) ds /\
    Peer.printNumber n = digits_string ds /\ digits_value 0 ds = n.
Proof.
  intros Hn. unfold Peer.printNumber.
  destruct (printNumber_loop_digits (S (Z.to_nat n)) n EmptyString)
    as (ds & Hne & Hall & Hstr & Hval); [|lia|].
  - split; [exact Hn|].
    rewrite Nat2Z.inj_succ, Z2Nat.id, Z.pow_succ_r by lia.
    pose proof (Z.pow_gt_lin_r 10 n). lia.
  - exists ds. split; [exact Hne|]. split; [exact Hall|].
    split; [|exact Hval]. by rewrite Hstr, append_nil_r.
Qed.

(** Parsing a sequence of digits accumulates its value. *)
Lemma digitpart_from_digits (ds : list Z) :
  forall (a : Z) (k : nat) (rest : string),
  Forall (fun d => (0 <= d < 10)%Z) ds ->
  digitpart_from a k (digits_string ds +:+ rest)
  = digitpart_from (digits_value a ds) (k + length ds) rest.
Proof.
  induction ds as [|d ds IH]; intros a k rest Hall.
  - change (digits_string []) with EmptyString.
    by rewrite append_nil_l, Nat.add_0_r.
  - apply Forall_cons in Hall as [Hd Hall].
    destruct (digit_char_spec d Hd) as (Hdig & Hval & _).
    rewrite digits_string_cons, append_cons. cbn [digitpart_from].
    rewrite Hdig, Hval, IH by exact Hall.
    change (digits_value a (d :: ds)) with (digits_value (10 * a + d) ds).
    cbn [length]. f_equal. lia.
Qed.

Lemma digitpart_digits (ds : list Z) :
  ds <> [] -> Forall (fun d => (0 <= d < 10)%Z) ds ->
  digitpart (digits_string ds)
  = Some (digits_value 0 ds, length ds, EmptyString).
Proof.
  intros Hne Hall. destruct ds as [|d ds]; [done|].
  apply Forall_cons in Hall as [Hd Hall].
  destruct (digit_char_spec d Hd) as (Hdig & Hval & _).
  rewrite digits_string_cons. cbn [digitpart]. rewrite Hdig, Hval.
  pose proof (digitpart_from_digits ds d 1 EmptyString Hall) as H.
  rewrite append_nil_r in H. rewrite H. cbn [digitpart_from length].
  change (digits_value 0 (d :: ds)) with (digits_value (10 * 0 + d) ds).
  reflexivity.
Qed.

Lemma all_chars_app (p : ascii -> bool) (s t : string) :
  all_chars p (s +:+ t) = all_chars p s && all_chars p t.
Proof.
  induction s as [|c s IH]; [reflexivity|].
  rewrite append_cons. cbn [all_chars]. by rewrite IH, andb_assoc.
Qed.

Lemma all_chars_digits (ds : list Z) :
  Forall (fun d => (0 <= d < 10)%Z) ds ->
  all_chars plain (digits_string ds) = true.
Proof.
  induction 1 as [|d ds Hd _ IH]; [reflexivity|].
  rewrite digits_string_cons. cbn [all_chars].
  destruct (digit_char_spec d Hd) as (_ & _ & ->). exact IH.
Qed.

Lemma lstrip_plain (p : ascii -> bool) (s : string) :
  all_chars (fun c => negb (p c)) s = true -> lstrip p s = s.
Proof.
  destruct s as [|c s]; [reflexivity|]. cbn [all_chars lstrip].
  destruct (p c); [discriminate|done].
Qed.

Lemma rstrip_tail (p : ascii -> bool) (body tail : string) :
  all_chars (fun c => negb (p c)) body = true ->
  all_chars p tail = true ->
  rstrip p (body +:+ tail) = body.
Proof.
  intros Hbody Htail. induction body as [|c body IH].
  - rewrite append_nil_l. clear Hbody.
    induction tail as [|c tail IH]; [reflexivity|].
    cbn [all_chars] in Htail. apply andb_prop in Htail as [Hc Ht].
    cbn [rstrip]. by rewrite IH, Hc.
  - cbn [all_chars] in Hbody. apply andb_prop in Hbody as [Hc Hb].
    rewrite append_cons. cbn [rstrip]. rewrite IH by exact Hb.
    destruct body; [|done]. apply negb_true_iff in Hc. by rewrite Hc.
Qed.

Lemma plain_not (p : ascii -> bool) (s : string) :
  (forall c, plain c = true -> p c = false) ->
  all_chars plain s = true ->
  all_chars (fun c => negb (p c)) s = true.
Proof.
  intros Hp. induction s as [|c s IH]; [reflexivity|]. cbn [all_chars].
  intros H. apply andb_prop in H as [Hc Hs].
  by rewrite (Hp c Hc), IH.
Qed.

Lemma plain_not_space (c : ascii) : plain c = true -> is_space c = false.
Proof.
  unfold plain. intros H. apply andb_prop in H as [_ H].
  by apply negb_true_iff in H.
Qed.

Lemma plain_not_crlf (c : ascii) : plain c = true -> is_crlf c = false.
Proof.
  intros H. apply plain_not_space in H. revert H.
  unfold is_space, is_crlf.
  destruct (code c =? 13) eqn:E1; [apply Nat.eqb_eq in E1; by rewrite E1|].
  destruct (code c =? 10) eqn:E2; [apply Nat.eqb_eq in E2; by rewrite E2|].
  done.
Qed.

Lemma plain_ascii (s : string) :
  all_chars plain s = true -> all_chars is_ascii s = true.
Proof.
  induction s as [|c s IH]; [reflexivity|]. cbn [all_chars].
  intros H. apply andb_prop in H as [Hc Hs]. rewrite (IH Hs).
  unfold plain in Hc. apply andb_prop in Hc as [-> _]. reflexivity.
Qed.

(** A line made of a token and the line end is read as that token. *)
Lemma sample_of_plain_line (body : string) :
  all_chars plain body = true ->
  sample_of (body +:+ crlf) = py_int body.
Proof.
  intros Hbody. unfold sample_of, decode.
  rewrite all_chars_app, (plain_ascii body Hbody). cbn [andb].
  change (all_chars is_ascii crlf) with true. cbn iota.
  assert (Hstrip : strip is_crlf (body +:+ crlf) = body).
  { unfold strip. destruct body as [|c body].
    - reflexivity.
    - pose proof Hbody as Hall.
      cbn [all_chars] in Hbody. apply andb_prop in Hbody as [Hc Hb].
      rewrite append_cons. cbn [lstrip]. rewrite (plain_not_crlf c Hc).
      rewrite <- append_cons.
      apply rstrip_tail; [|reflexivity].
      apply plain_not; [apply plain_not_crlf|exact Hall]. }
  by rewrite Hstrip.
Qed.

Lemma py_int_digits (ds : list Z) (negative : bool) :
  ds <> [] -> Forall (fun d => (0 <= d < 10)%Z) ds ->
  py_int ((if negative then String "-" (digits_string ds)
           else digits_string ds))
  = Some (if negative then (- digits_value 0 ds)%Z else digits_value 0 ds).
Proof.
  intros Hne Hall.
  assert (Hplain : all_chars plain
            (if negative then String "-" (digits_string ds)
             else digits_string ds) = true).
  { destruct negative; [cbn [all_chars]|]; by rewrite all_chars_digits. }
  unfold py_int.
  assert (Hsp : forall body, all_chars plain body = true ->
                             strip is_space body = body).
  { intros body Hb. unfold strip.
    assert (H : all_chars (fun c => negb (is_space c)) body = true)
      by (apply plain_not; [apply plain_not_space|done]).
    rewrite lstrip_plain by exact H.
    pose proof (rstrip_tail is_space body EmptyString H eq_refl) as Hr.
    by rewrite append_nil_r in Hr. }
  rewrite Hsp by exact Hplain.
  destruct negative.
  - cbn [sign]. by rewrite digitpart_digits.
  - destruct ds as [|d ds]; [done|].
    apply Forall_cons in Hall as [Hd Hall'].
    assert (Hsign : sign (digits_string (d :: ds)) = (false, digits_string (d :: ds))).
    { rewrite digits_string_cons. unfold Peer.digit_char.
      assert (H : exists n, n < 10 /\ d = Z.of_nat n)
        by (exists (Z.to_nat d); lia).
      destruct H as (n & Hn & ->). rewrite Nat2Z.id.
      do 10 (destruct n as [|n]; [reflexivity|]). lia. }
    rewrite Hsign. rewrite digitpart_digits; [done|done|by constructor].
Qed.

Lemma sample_of_println (n : Z) : sample_of (Peer.println n) = Some n.
Proof.
  unfold Peer.println. destruct (n <? 0)%Z eqn:E.
  - apply Z.ltb_lt in E.
    destruct (printNumber_digits (- n)%Z) as (ds & Hne & Hall & Hstr & Hval);
      [lia|].
    rewrite Hstr, sample_of_plain_line
      by (cbn [all_chars]; by rewrite all_chars_digits).
    rewrite (py_int_digits ds true Hne Hall), Hval. f_equal. lia.
  - apply Z.ltb_ge in E.
    destruct (printNumber_digits n E) as (ds & Hne & Hall & Hstr & Hval).
    rewrite Hstr, sample_of_plain_line by (by apply all_chars_digits).
    by rewrite (py_int_digits ds false Hne Hall), Hval.
Qed.

Lemma sample_of_println_all (samples : list Z) :
  map sample_of (map Peer.println samples) = map Some samples.
Proof.
  induction samples as [|n samples IH]; [reflexivity|].
  cbn [map]. by rewrite sample_of_println, IH.
Qed.

(** X5. Round trip of the line protocol: the line that the board prints
    for a sample with [Serial.println] is read back by the host
    ([decode], [strip], [int]) as that same integer, whatever the sample;
    so a sequence of printed samples is read back as that sequence. *)
Theorem println_then_int_round_trip (n : Z) (samples : list Z) :
  sample_of (Peer.println n) = Some n /\
  map sample_of (map Peer.println samples) = map Some samples.
Proof.
  split.
  - apply sample_of_println.
  - apply sample_of_println_all.
Qed.

Lemma number_of_digit (c : ascii) (s : string) :
  is_digit c = true ->
  number (String c s) =
  match digitpart (String c s) with
  | Some (v, _, String "." s') =>
      match digitpart s' with
      | Some (f, k, rest) =>
          Some ((inject_Z v + inject_Z f * pow10 (- Z.of_nat k))%Q, rest)
      | None => Some (inject_Z v, s')
      end
  | Some (v, _, rest) => Some (inject_Z v, rest)
  | None => None
  end.
Proof.
  destruct c as [[] [] [] [] [] [] [] []]; intros H;
    first [reflexivity | vm_compute in H; discriminate H].
Qed.

Lemma digit_is_no_word (c : ascii) (s : string) :
  is_digit c = true ->
  String.eqb (lower (String c s)) "inf" = false /\
  String.eqb (lower (String c s)) "infinity" = false /\
  String.eqb (lower (String c s)) "nan" = false.
Proof.
  destruct c as [[] [] [] [] [] [] [] []]; intros H;
    first [vm_compute in H; discriminate H | repeat split; reflexivity].
Qed.

Lemma py_float_of_py_int (s : string) (z : Z) :
  py_int s = Some z ->
  py_float s = Some (to_float64 (inject_Z z)).
Proof.
  unfold py_int, py_float.
  destruct (sign (strip is_space s)) as [negative body].
  destruct body as [|c body]; [discriminate|].
  destruct (digitpart (String c body)) as [[[v n] rest]|] eqn:Hd;
    [|discriminate].
  destruct rest; [|discriminate]. intros [= <-].
  assert (Hc : is_digit c = true).
  { unfold digitpart in Hd. by destruct (is_digit c). }
  destruct (digit_is_no_word c body Hc) as (-> & -> & ->).
  rewrite (number_of_digit c body Hc), Hd. cbn [orb exponent].
  f_equal. apply to_float64_proper.
  unfold pow10. destruct negative.
  - rewrite inject_Z_opp. cbn [Qpower]. ring.
  - cbn [Qpower]. ring.
Qed.

(** X6. Every token that [int] accepts, [float] accepts, and gives it the
    float64 value that the integer converts to: what a round would read
    as the integer [z], the calibration (which stores the text itself
    into the array) stores as [float(z)].  Below [2^53] in magnitude that
    is [z] itself; above, it is [z] rounded (the token
    '9007199254740993' is stored as 9007199254740992.0). *)
Theorem py_int_then_py_float (s : string) (z : Z) :
  py_int s = Some z ->
  py_float s = Some (to_float64 (inject_Z z)) /\
  ((Z.abs z < 2 ^ 53)%Z -> py_float s = Some (Fin (inject_Z z))) /\
  forall (buffer : list f64) (idx : nat), idx < length buffer ->
    setitem buffer idx (Str s)
      = Return (<[idx := to_float64 (inject_Z z)]> buffer).
Proof.
  intros Hint. pose proof (py_float_of_py_int s z Hint) as Hf.
  split; [exact Hf|]. split.
  - intros Hz. rewrite Hf. f_equal. apply to_float64_Z, Hz.
  - intros buffer idx Hidx. unfold setitem.
    apply Nat.ltb_lt in Hidx. by rewrite Hidx, Hf.
Qed.

Lemma py_int_then_py_float_witness :
  (py_float " -1_000" = Some (to_float64 (inject_Z (-1000))) /\
   ((Z.abs (-1000) < 2 ^ 53)%Z ->
    py_float " -1_000" = Some (Fin (inject_Z (-1000)))) /\
   forall (buffer : list f64) (idx : nat), idx < length buffer ->
     setitem buffer idx (Str " -1_000")
       = Return (<[idx := to_float64 (inject_Z (-1000))]> buffer)) /\
  py_float "9007199254740993"
    = Some (to_float64 (inject_Z 9007199254740993)) /\
  to_float64 (inject_Z 9007199254740993) = Fin (inject_Z 9007199254740992).
Proof.
  split; [apply (py_int_then_py_float " -1_000" (-1000)); reflexivity |].
  split; [| vm_compute; reflexivity].
  apply (py_int_then_py_float "9007199254740993" 9007199254740993). reflexivity.
Defined.

(** ** Retries, and tokens that end a refill *)

(** X7. A sample that arrives after empty reads is stored: with
    normalisation, when fewer than [max(1, max_attempts)] empty tokens
    come before a line that carries an integer (one that float64 can
    hold), that integer is normalised into the slot and exactly those
    lines are used up.  No
    diagnostic is printed, unless the line came at the very last read
    allowed: then 'Fail to Retrieve Data...' is printed although the
    sample was retrieved and stored. *)
Theorem read_sample_retries_then_stores
    (buffer : list f64) (overlapping max_attempts i : nat) (old_max old_min : Q)
    (blanks : list string) (line : string) (rest : list string) (raw : Z)
    (w : world) :
  i + overlapping < length buffer ->
  rx w = blanks ++ line :: rest ->
  Forall blank blanks ->
  length blanks < Nat.max 1 max_attempts ->
  sample_of line = Some raw ->
  convertible raw ->
  read_sample overlapping (Some (old_max, old_min)) max_attempts i buffer w =
  (Return (<[i + overlapping := calibrated old_max old_min raw]> buffer),
   World rest (tx w)
     (stdout w ++ if length blanks + 1 <? max_attempts then []
                  else [Message FAIL_RETRIEVE])).
Proof.
  intros Hidx Hrx Hb Hlen Hs [q Hq].
  apply sample_of_token in Hs as (text & Hdec & Hne & Hint).
  unfold read_sample. unfold bind at 1.
  rewrite (read_token_after_blanks blanks (max_attempts - 1) w line text rest)
    by (lia || assumption).
  unfold bind at 1. rewrite Hint, Hq. unfold ret at 1.
  unfold setitem. apply Nat.ltb_lt in Hidx. rewrite Hidx. unfold ret.
  do 3 f_equal.
  destruct (length blanks <? max_attempts - 1) eqn:E1;
    destruct (length blanks + 1 <? max_attempts) eqn:E2; try reflexivity;
    [apply Nat.ltb_lt in E1; apply Nat.ltb_ge in E2
    |apply Nat.ltb_ge in E1; apply Nat.ltb_lt in E2]; lia.
Qed.

Lemma read_sample_retries_then_stores_witness :
  read_sample 1 (Some (839 # 1, -553 # 1)) 3 0 [Fin 0; Fin 0]
    (World [crlf; EmptyString; "839" +:+ crlf; "5" +:+ crlf] [] []) =
  (Return (<[0 + 1 := calibrated (839 # 1) (-553 # 1) 839]> [Fin 0; Fin 0]),
   World ["5" +:+ crlf] [] ([] ++ [Message FAIL_RETRIEVE])).
Proof.
  apply (read_sample_retries_then_stores [Fin 0; Fin 0] 1 3 0 (839 # 1) (-553 # 1)
           [crlf; EmptyString] ("839" +:+ crlf) ["5" +:+ crlf] 839
           (World [crlf; EmptyString; "839" +:+ crlf; "5" +:+ crlf] [] [])).
  - cbn. lia.
  - reflexivity.
  - repeat constructor; eexists; split; reflexivity.
  - cbn. lia.
  - reflexivity.
  - apply convertible_small. reflexivity.
Defined.

(** X8. With normalisation a token that [int] rejects ends the refill:
    when the first token that the retry loop hands over (the empty one of
    a silent port, 'abc', '1.5') is no integer, [arduino_read] raises
    [ValueError] at once, and so does the round, which writes no command
    to the port. *)
Theorem normalized_refill_aborts_on_non_integer
    (buffer : list f64) (buffer_size overlapping max_attempts : nat)
    (old_max old_min : Q) (extract_and_infer : list f64 -> list Q)
    (tok : string) (w w1 : world) :
  overlapping < buffer_size ->
  read_token (max_attempts - 1) w = (Return tok, w1) ->
  py_int tok = None ->
  arduino_read buffer buffer_size overlapping (Some (old_max, old_min))
    max_attempts w = (Raise ValueError, w1) /\
  (max_attempts = DEFAULT_MAX_ATTEMPTS ->
   tflite_round old_max old_min extract_and_infer w = (Raise ValueError, w1) /\
   tx w1 = tx w).
Proof.
  intros Hov Hread Hint.
  assert (Hstep : forall ov b n,
    for_range (S n) 0
      (read_sample ov (Some (old_max, old_min)) max_attempts) b w
    = (Raise ValueError, w1)).
  { intros ov b n. cbn [for_range]. unfold bind at 1, read_sample.
    unfold bind at 1. rewrite Hread. unfold bind at 1. by rewrite Hint. }
  assert (Hrefill : forall b size ov, ov < size ->
    arduino_read b size ov (Some (old_max, old_min)) max_attempts w
    = (Raise ValueError, w1)).
  { intros b size ov Hsize. unfold arduino_read.
    destruct (size - ov) eqn:E; [lia|]. apply Hstep. }
  split; [by apply Hrefill|].
  intros Hma. split.
  - unfold tflite_round, tflite_window. unfold bind at 1.
    rewrite <- Hma at 1. rewrite Hrefill; [reflexivity|].
    unfold BUFFER_SIZE, OVERLAPPED. lia.
  - by apply read_token_effects in Hread as (Htx & _).
Qed.

Lemma normalized_refill_aborts_on_non_integer_witness :
  let w := World ["1.5" +:+ crlf; "7" +:+ crlf] [] [] in
  let w1 := World ["7" +:+ crlf] [] [] in
  let infer := fun _ : list f64 => [1; 0; 0; 0]%Q in
  arduino_read [Fin 0; Fin 0] 2 0 (Some (839 # 1, -553 # 1)) 10 w
    = (Raise ValueError, w1) /\
  (10 = DEFAULT_MAX_ATTEMPTS ->
   tflite_round (839 # 1) (-553 # 1) infer w = (Raise ValueError, w1) /\
   tx w1 = tx w).
Proof.
  intros w w1 infer.
  apply (normalized_refill_aborts_on_non_integer [Fin 0; Fin 0] 2 0 10
           (839 # 1) (-553 # 1) infer "1.5" w w1).
  - lia.
  - reflexivity.
  - reflexivity.
Defined.



(** ** Calibration *)

Lemma setitem_Str_middle (done old : list f64) (x y : f64) (tok : string) :
  py_float tok = Some y ->
  setitem (done ++ x :: old) (length done) (Str tok) = Return (done ++ y :: old).
Proof.
  intros Hf. unfold setitem.
  assert (H : (length done <? length (done ++ x :: old)) = true).
  { apply Nat.ltb_lt. rewrite length_app. cbn. lia. }
  rewrite H, Hf. f_equal.
  rewrite insert_app_r_alt by lia. by rewrite Nat.sub_diag.
Qed.

(** Without normalisation, lines that carry integers below [2^53] in
    magnitude are stored as the numbers they denote. *)
Lemma for_range_raw (overlapping max_attempts : nat) (rest : list string)
    (raws : list Z) :
  forall (lines : list string) (done old : list f64) (i : nat) (w : world),
  rx w = lines ++ rest ->
  map sample_of lines = map Some raws ->
  Forall exact_in_float64 raws ->
  length old = length raws ->
  length done = i + overlapping ->
  exists vals out,
    for_range (length raws) i (read_sample overlapping None max_attempts)
      (done ++ old) w =
    (Return (done ++ vals), World rest (tx w) out) /\
    Forall2 (fun v raw => finite v (inject_Z raw)) vals raws /\
    (2 <= max_attempts -> out = stdout w).
Proof.
  induction raws as [|raw raws IH];
    intros lines done old i w Hrx Hmap Hsmall Hold Hdone.
  - destruct lines; [|discriminate]. destruct old; [|discriminate].
    exists [], (stdout w). cbn in *. unfold ret. rewrite <- Hrx, world_eta.
    split; [done|]. split; [constructor|done].
  - destruct lines as [|line lines]; [discriminate|].
    destruct old as [|x old]; [discriminate|].
    cbn in Hmap. injection Hmap as Hline Hmap. injection Hold as Hold.
    apply Forall_cons in Hsmall as [Hraw Hsmall].
    apply sample_of_token in Hline as (text & Hdec & Hne & Hint).
    pose proof (py_float_of_py_int _ _ Hint) as Hfloat.
    rewrite (to_float64_Z raw Hraw) in Hfloat.
    set (q := inject_Z raw) in *.
    assert (Hq : (q == inject_Z raw)%Q) by reflexivity.
    cbn [length for_range]. unfold bind at 1, read_sample. unfold bind at 1.
    erewrite read_token_line by eassumption.
    unfold bind at 1, ret at 1.
    rewrite <- Hdone, (setitem_Str_middle done old x (Fin q)) by exact Hfloat.
    unfold ret at 1.
    destruct (IH lines (done ++ [Fin q]) old (S i)
                (World (lines ++ rest) (tx w)
                   (stdout w ++ match max_attempts - 1 with
                                | 0 => [Message FAIL_RETRIEVE]
                                | S _ => []
                                end)))
      as (vals & out & Hloop & Hvals & Hout); try done.
    { rewrite length_app. cbn. lia. }
    rewrite <- !app_assoc in Hloop. cbn in Hloop.
    exists (Fin q :: vals), out. split; [exact Hloop|].
    split; [by constructor|].
    intros Hma. rewrite Hout by exact Hma. cbn [stdout].
    destruct (max_attempts - 1) eqn:E; [lia|]. by rewrite app_nil_r.
Qed.

Lemma py_max_from_finite (vals : list f64) (raws : list Z) :
  Forall2 (fun v raw => finite v (inject_Z raw)) vals raws ->
  forall best : Q,
  exists hi,
    py_max_from (Fin best) vals = Fin hi /\
    (best <= hi)%Q /\
    Forall (fun raw => (inject_Z raw <= hi)%Q) raws /\
    ((hi == best)%Q \/ exists raw, raw ∈ raws /\ (hi == inject_Z raw)%Q).
Proof.
  induction 1 as [|v raw vals raws Hv _ IH]; intros best.
  - exists best. split; [done|]. split; [apply Qle_refl|].
    split; [constructor|by left].
  - destruct v as [q| |]; try done. cbn in Hv.
    cbn [py_max_from f64_lt]. destruct (Qle_bool q best) eqn:E; cbn [negb].
    + apply Qle_bool_iff in E.
      destruct (IH best) as (hi & Hrun & Hbest & Hall & Hatt).
      exists hi. split; [exact Hrun|]. split; [exact Hbest|]. split.
      * constructor; [|exact Hall]. rewrite <- Hv. lra.
      * destruct Hatt as [?|(r & Hr & ?)]; [by left|].
        right. exists r. split; [by right|done].
    + assert (Hlt : (best < q)%Q).
      { apply Qnot_le_lt. intros H. apply Qle_bool_iff in H. congruence. }
      destruct (IH q) as (hi & Hrun & Hbest & Hall & Hatt).
      exists hi. split; [exact Hrun|]. split; [lra|]. split.
      * constructor; [|exact Hall]. rewrite <- Hv. exact Hbest.
      * right. destruct Hatt as [Heq|(r & Hr & ?)].
        -- exists raw. split; [by left|]. by rewrite Heq.
        -- exists r. split; [by right|done].
Qed.

Lemma py_min_from_finite (vals : list f64) (raws : list Z) :
  Forall2 (fun v raw => finite v (inject_Z raw)) vals raws ->
  forall best : Q,
  exists lo,
    py_min_from (Fin best) vals = Fin lo /\
    (lo <= best)%Q /\
    Forall (fun raw => (lo <= inject_Z raw)%Q) raws /\
    ((lo == best)%Q \/ exists raw, raw ∈ raws /\ (lo == inject_Z raw)%Q).
Proof.
  induction 1 as [|v raw vals raws Hv _ IH]; intros best.
  - exists best. split; [done|]. split; [apply Qle_refl|].
    split; [constructor|by left].
  - destruct v as [q| |]; try done. cbn in Hv.
    cbn [py_min_from f64_lt]. destruct (Qle_bool best q) eqn:E; cbn [negb].
    + apply Qle_bool_iff in E.
      destruct (IH best) as (lo & Hrun & Hbest & Hall & Hatt).
      exists lo. split; [exact Hrun|]. split; [exact Hbest|]. split.
      * constructor; [|exact Hall]. rewrite <- Hv. lra.
      * destruct Hatt as [?|(r & Hr & ?)]; [by left|].
        right. exists r. split; [by right|done].
    + assert (Hlt : (q < best)%Q).
      { apply Qnot_le_lt. intros H. apply Qle_bool_iff in H. congruence. }
      destruct (IH q) as (lo & Hrun & Hbest & Hall & Hatt).
      exists lo. split; [exact Hrun|]. split; [lra|]. split.
      * constructor; [|exact Hall]. rewrite <- Hv. exact Hbest.
      * right. destruct Hatt as [Heq|(r & Hr & ?)].
        -- exists raw. split; [by left|]. by rewrite Heq.
        -- exists r. split; [by right|done].
Qed.

Lemma TUNING_SIZE_pos : exists n, TUNING_SIZE = S n.
Proof. exists (TUNING_SIZE - 1). unfold TUNING_SIZE. lia. Qed.

Lemma np_roll_0 {A} (a : list A) : np_roll a 0 = a.
Proof.
  rewrite np_roll_le by lia.
  by rewrite Nat.sub_0_r, drop_all, take_ge, app_nil_l.
Qed.

Lemma calibrate_clean (show : f64 -> f64 -> string)
    (lines rest : list string) (raws : list Z) (w : world) :
  rx w = lines ++ rest ->
  map sample_of lines = map Some raws ->
  Forall exact_in_float64 raws ->
  length raws = TUNING_SIZE ->
  exists hi lo w',
    calibrate show w = (Return (Fin hi, Fin lo), w') /\
    rx w' = rest /\ tx w' = tx w /\
    Forall (fun raw => (lo <= inject_Z raw <= hi)%Q) raws /\
    (exists raw, raw ∈ raws /\ (hi == inject_Z raw)%Q) /\
    (exists raw, raw ∈ raws /\ (lo == inject_Z raw)%Q).
Proof.
  intros Hrx Hmap Hsmall Hlen.
  destruct (for_range_raw 0 DEFAULT_MAX_ATTEMPTS rest raws lines []
              (np_zeros TUNING_SIZE) 0
              (World (rx w) (tx w) (stdout w ++ [Message CALIBRATING])))
    as (vals & out & Hloop & Hvals & _).
  { exact Hrx. }
  { exact Hmap. }
  { exact Hsmall. }
  { by rewrite length_np_zeros. }
  { reflexivity. }
  cbn [app tx] in Hloop.
  destruct Hvals as [|v raw vals raws Hv Hvals].
  { destruct TUNING_SIZE_pos as [n Hn]. rewrite Hn in Hlen. discriminate. }
  destruct v as [q| |]; try done. cbn in Hv.
  destruct (py_max_from_finite vals raws Hvals q)
    as (hi & Hmax & Hq_hi & Hall_hi & Hatt_hi).
  destruct (py_min_from_finite vals raws Hvals q)
    as (lo & Hmin & Hlo_q & Hall_lo & Hatt_lo).
  assert (Hread :
    arduino_read (np_zeros TUNING_SIZE) TUNING_SIZE 0 None DEFAULT_MAX_ATTEMPTS
      (World (rx w) (tx w) (stdout w ++ [Message CALIBRATING]))
    = (Return (Fin q :: vals), World rest (tx w) out)).
  { unfold arduino_read. cbv zeta. rewrite np_roll_0.
    replace (TUNING_SIZE - 0) with (length (raw :: raws)) by lia.
    exact Hloop. }
  exists hi, lo. eexists. split.
  { unfold calibrate. unfold bind at 1, print at 1. unfold bind at 1.
    rewrite Hread.
    unfold bind, lift, print, ret, py_max, py_min. rewrite Hmax, Hmin.
    reflexivity. }
  cbn [rx tx]. split; [done|]. split; [done|]. split.
  { constructor.
    - rewrite <- Hv. split; assumption.
    - rewrite Forall_forall in Hall_hi, Hall_lo. apply Forall_forall.
      intros r Hr. split; [by apply Hall_lo|by apply Hall_hi]. }
  split.
  - destruct Hatt_hi as [Heq|(r & Hr & ?)].
    + exists raw. split; [by left|]. by rewrite Heq.
    + exists r. split; [by right|done].
  - destruct Hatt_lo as [Heq|(r & Hr & ?)].
    + exists raw. split; [by left|]. by rewrite Heq.
    + exists r. split; [by right|done].
Qed.

(** X10. Calibration from a port that delivers [TUNING_SIZE] lines, each
    carrying an integer below [2^53] in magnitude (which float64 holds
    exactly; every 16-bit sample of the board is one): the range returned
    is finite, [TUNING_MAX] and [TUNING_MIN] are values that were read,
    and every sample read lies between them; exactly those lines are used
    up and nothing is written to the port. *)
Theorem calibrate_bounds_the_samples (show : f64 -> f64 -> string)
    (lines rest : list string) (raws : list Z) (w : world) :
  rx w = lines ++ rest ->
  map sample_of lines = map Some raws ->
  Forall exact_in_float64 raws ->
  length raws = TUNING_SIZE ->
  exists hi lo w',
    calibrate show w = (Return (Fin hi, Fin lo), w') /\
    rx w' = rest /\ tx w' = tx w /\
    (lo <= hi)%Q /\
    Forall (fun raw => (lo <= inject_Z raw <= hi)%Q) raws /\
    (exists raw, raw ∈ raws /\ (hi == inject_Z raw)%Q) /\
    (exists raw, raw ∈ raws /\ (lo == inject_Z raw)%Q).
Proof.
  intros Hrx Hmap Hsmall Hlen.
  destruct (calibrate_clean show lines rest raws w Hrx Hmap Hsmall Hlen)
    as (hi & lo & w' & Hcal & Hrx' & Htx & Hall & Hhi & Hlo).
  exists hi, lo, w'. split; [exact Hcal|]. split; [exact Hrx'|].
  split; [exact Htx|]. split; [|done].
  destruct Hhi as (raw & Hraw & _). rewrite Forall_forall in Hall.
  destruct (Hall raw Hraw). lra.
Qed.

Lemma calibrate_bounds_the_samples_witness :
  let show := fun _ _ : f64 => "range" in
  let lines := replicate TUNING_SIZE ("839" +:+ crlf) in
  let raws := replicate TUNING_SIZE 839%Z in
  exists hi lo w',
    calibrate show (World (lines ++ []) [] []) = (Return (Fin hi, Fin lo), w') /\
    rx w' = [] /\ tx w' = [] /\
    (lo <= hi)%Q /\
    Forall (fun raw => (lo <= inject_Z raw <= hi)%Q) raws /\
    (exists raw, raw ∈ raws /\ (hi == inject_Z raw)%Q) /\
    (exists raw, raw ∈ raws /\ (lo == inject_Z raw)%Q).
Proof.
  intros show lines raws.
  apply (calibrate_bounds_the_samples show lines [] raws
           (World (lines ++ []) [] [])).
  - reflexivity.
  - apply sample_of_replicate. reflexivity.
  - apply Forall_replicate. reflexivity.
  - apply length_replicate.
Defined.

Lemma for_range_silent (overlapping max_attempts : nat) (n : nat) :
  forall (i : nat) (buffer : list f64) (w : world),
  rx w = [] -> i + overlapping + n <= length buffer ->
  exists out,
    for_range n i (read_sample overlapping None max_attempts) buffer w
    = (Return buffer, World [] (tx w) out).
Proof.
  induction n as [|n IH]; intros i buffer w Hrx Hlen.
  - exists (stdout w). cbn. unfold ret. by rewrite <- Hrx, world_eta.
  - cbn [for_range]. unfold bind at 1, read_sample. unfold bind at 1.
    rewrite read_token_exhausted by (rewrite Hrx, take_nil; constructor).
    rewrite Hrx, drop_nil. unfold bind at 1, ret at 1.
    rewrite setitem_Str_invalid by (lia || reflexivity).
    unfold bind at 1, print at 1, ret at 1. cbn [rx tx stdout].
    destruct (IH (S i) buffer
                (World [] (tx w)
                   ((stdout w ++ [Message FAIL_RETRIEVE]) ++ [Message CHECK_MONITOR])))
      as (out & Hloop); [done|lia|].
    exists out. exact Hloop.
Qed.

Lemma py_max_from_zeros (n : nat) :
  py_max_from (Fin 0) (replicate n (Fin 0)) = Fin 0 /\
  py_min_from (Fin 0) (replicate n (Fin 0)) = Fin 0.
Proof. induction n as [|n [IH1 IH2]]; [done|]. cbn. by rewrite IH1, IH2. Qed.

(** X11. Calibration from a silent port (every read times out): no slot
    is filled, the buffer stays all zeros and the range returned is
    [(0, 0)]; with that range no sample of a later round is normalised to
    a number. *)
Theorem calibrate_on_silent_port (show : f64 -> f64 -> string) (w : world) :
  rx w = [] ->
  exists w',
    calibrate show w = (Return (Fin 0, Fin 0), w') /\
    rx w' = [] /\ tx w' = tx w /\
    forall raw q, calibrated 0 0 raw <> Fin q.
Proof.
  intros Hrx.
  destruct (for_range_silent 0 DEFAULT_MAX_ATTEMPTS TUNING_SIZE 0
              (np_zeros TUNING_SIZE)
              (World (rx w) (tx w) (stdout w ++ [Message CALIBRATING])))
    as (out & Hloop); [done|by rewrite length_np_zeros|].
  cbn [tx] in Hloop.
  assert (Hread :
    arduino_read (np_zeros TUNING_SIZE) TUNING_SIZE 0 None DEFAULT_MAX_ATTEMPTS
      (World (rx w) (tx w) (stdout w ++ [Message CALIBRATING]))
    = (Return (np_zeros TUNING_SIZE), World [] (tx w) out)).
  { unfold arduino_read. cbv zeta. rewrite np_roll_0, Nat.sub_0_r.
    exact Hloop. }
  eexists. split.
  { unfold calibrate. unfold bind at 1, print at 1. unfold bind at 1.
    rewrite Hread.
    destruct TUNING_SIZE_pos as [n Hn]. unfold np_zeros. rewrite Hn.
    cbn [replicate]. unfold bind, lift, print, ret, py_max, py_min.
    destruct (py_max_from_zeros n) as [-> ->]. reflexivity. }
  cbn [rx tx]. split; [done|]. split; [done|].
  intros raw q. unfold calibrated. by apply normalize_zero_width.
Qed.

Lemma calibrate_on_silent_port_witness :
  exists w',
    calibrate (fun _ _ => "range") (World [] ["x"] []) =
      (Return (Fin 0, Fin 0), w') /\
    rx w' = [] /\ tx w' = ["x"] /\
    forall raw q, calibrated 0 0 raw <> Fin q.
Proof.
  apply (calibrate_on_silent_port (fun _ _ => "range") (World [] ["x"] [])).
  reflexivity.
Defined.

(** ** From the board to the window *)



(** ** What a round sends, and what the board makes of it *)

Lemma decide_dispatch_effects (prediction mask : list Q) (w w' : world)
    (out : outcome (string * string)) :
  decide_dispatch prediction mask w = (out, w') ->
  rx w' = rx w /\
  (forall e, out = Raise e -> w' = w) /\
  (forall emotion command, out = Return (emotion, command) ->
     exists idx,
       EMOTIONS !! idx = Some emotion /\
       COMMANDS !! idx = Some command /\
       tx w' = tx w ++ [command]).
Proof.
  unfold decide_dispatch, bind, lift, getitem, write, print, ret, encode.
  destruct (np_multiply prediction mask) as [result|e].
  2:{ intros [= <- <-]. split; [done|]. split; [done|]. intros ? ? [=]. }
  destruct (np_argmax result) as [idx|e].
  2:{ intros [= <- <-]. split; [done|]. split; [done|]. intros ? ? [=]. }
  destruct (EMOTIONS !! idx) as [emotion|] eqn:Hemo.
  2:{ intros [= <- <-]. split; [done|]. split; [done|]. intros ? ? [=]. }
  destruct (COMMANDS !! idx) as [command|] eqn:Hcmd.
  2:{ intros [= <- <-]. split; [done|]. split; [done|]. intros ? ? [=]. }
  cbn. intros [= <- <-]. split; [done|]. split; [intros ? [=]|].
  intros ? ? [= <- <-]. exists idx. done.
Qed.

Lemma command_keeps_record (command : string) (st : Peer.state) :
  command ∈ COMMANDS ->
  Peer.record (Peer.on_bytes command st) = Peer.record st /\
  Peer.led_builtin (Peer.on_bytes command st) = Peer.led_builtin st.
Proof.
  unfold COMMANDS. rewrite !elem_of_cons, elem_of_nil.
  intros [->|[->|[->|[->|[]]]]]; split; reflexivity.
Qed.

(** X13. A round writes to the port once or not at all: if it completes,
    exactly one command, one of 'a', 'b', 'c', 'd', has been added to the
    bytes written; if it ends in an exception, nothing has.  The board
    that receives such a command keeps its record mode (only 'x' toggles
    it), so the rounds never stop the stream they read. *)
Theorem round_writes_one_command_or_none
    (TUNING_MAX TUNING_MIN : Q) (extract_and_infer : list f64 -> list Q)
    (w w' : world) (out : outcome (list f64)) :
  tflite_round TUNING_MAX TUNING_MIN extract_and_infer w = (out, w') ->
  (forall e, out = Raise e -> tx w' = tx w) /\
  (forall data, out = Return data ->
     exists command,
       command ∈ COMMANDS /\ tx w' = tx w ++ [command] /\
       forall st, Peer.record (Peer.on_bytes command st) = Peer.record st).
Proof.
  unfold tflite_round, tflite_window. unfold bind at 1.
  destruct (arduino_read _ _ _ _ _ w) as [[data|e] w1] eqn:Hread;
    unfold arduino_read in Hread;
    apply for_range_effects in Hread as (Htx & _).
  2:{ intros [= <- <-]. split; [by intros|]. intros ? [=]. }
  unfold bind at 1.
  destruct (decide_dispatch _ _ w1) as [[[emotion command]|e] w2] eqn:Hdec;
    apply decide_dispatch_effects in Hdec as (_ & Hfail & Hok).
  - unfold ret. intros [= <- <-]. split; [intros ? [=]|].
    intros ? _. destruct (Hok emotion command eq_refl) as (idx & _ & Hcmd & Htx2).
    exists command.
    assert (Hin : command ∈ COMMANDS) by (by eapply list_elem_of_lookup_2).
    split; [exact Hin|]. split; [congruence|].
    intros st. by apply command_keeps_record.
  - intros [= <- <-]. split; [|intros ? [=]].
    intros ? _. rewrite (Hfail e eq_refl). exact Htx.
Qed.

Lemma round_writes_one_command_or_none_witness :
  let infer := fun _ : list f64 => [1; 0; 0; 0]%Q in
  let w := World ["abc" +:+ crlf] ["x"] [] in
  let w' := World [] ["x"] [] in
  let out : outcome (list f64) := Raise ValueError in
  (forall e, out = Raise e -> tx w' = tx w) /\
  (forall data, out = Return data ->
     exists command,
       command ∈ COMMANDS /\ tx w' = tx w ++ [command] /\
       forall st, Peer.record (Peer.on_bytes command st) = Peer.record st).
Proof.
  intros infer w w' out.
  apply (round_writes_one_command_or_none (839 # 1) (-553 # 1) infer w w' out).
  vm_compute. reflexivity.
Defined.

Lemma on_bytes_app (s t : string) (st : Peer.state) :
  Peer.on_bytes (s +:+ t) st = Peer.on_bytes t (Peer.on_bytes s st).
Proof.
  revert st. induction s as [|c s IH]; intros st; [reflexivity|].
  rewrite append_cons. cbn [Peer.on_bytes]. apply IH.
Qed.

Lemma on_byte_command (c : ascii) (st : Peer.state) :
  is_command c = true ->
  leds (Peer.on_byte c st) =
    (if Ascii.eqb c "a" then (true, true, false)
     else if Ascii.eqb c "b" then (true, false, true)
     else if Ascii.eqb c "c" then (false, true, true)
     else (false, false, false)) /\
  Peer.record (Peer.on_byte c st) = Peer.record st.
Proof.
  unfold is_command, Peer.on_byte, leds.
  destruct (Ascii.eqb c "x") eqn:Ex.
  { apply Ascii.eqb_eq in Ex as ->. discriminate. }
  destruct (Ascii.eqb c "a"); [done|].
  destruct (Ascii.eqb c "b"); [done|].
  destruct (Ascii.eqb c "c"); [done|].
  destruct (Ascii.eqb c "d"); [done|discriminate].
Qed.

(** X14. The last command wins, and the colour tells which it was: after
    any bytes followed by a command byte ('a'..'d') the three colour pins
    depend on that byte alone, whatever came before and whatever the
    state was; two such histories show the same colour exactly when their
    last commands are equal. *)
Theorem last_command_selects_colour
    (pending1 pending2 : string) (c1 c2 : ascii) (st1 st2 : Peer.state) :
  is_command c1 = true -> is_command c2 = true ->
  leds (Peer.on_bytes (pending1 +:+ String c1 EmptyString) st1)
    = leds (Peer.on_bytes (pending2 +:+ String c2 EmptyString) st2)
  <-> c1 = c2.
Proof.
  intros H1 H2. rewrite !on_bytes_app. cbn [Peer.on_bytes].
  destruct (on_byte_command c1 (Peer.on_bytes pending1 st1) H1) as [-> _].
  destruct (on_byte_command c2 (Peer.on_bytes pending2 st2) H2) as [-> _].
  unfold is_command in H1, H2. split.
  - destruct (Ascii.eqb_spec c1 "a"), (Ascii.eqb_spec c1 "b"),
      (Ascii.eqb_spec c1 "c"), (Ascii.eqb_spec c1 "d"),
      (Ascii.eqb_spec c2 "a"), (Ascii.eqb_spec c2 "b"),
      (Ascii.eqb_spec c2 "c"), (Ascii.eqb_spec c2 "d");
      subst; try discriminate; try reflexivity; try congruence.
  - intros ->. reflexivity.
Qed.

Lemma last_command_selects_colour_witness :
  let st := {| Peer.record := true; Peer.led_builtin := false;
               Peer.ledr := true; Peer.ledg := true; Peer.ledb := true |} in
  leds (Peer.on_bytes ("abx" +:+ String "c" EmptyString) st)
    = leds (Peer.on_bytes ("dd" +:+ String "c" EmptyString) st)
  <-> "c"%char = "c"%char.
Proof.
  intros st.
  apply (last_command_selects_colour "abx" "dd" "c" "c" st st); reflexivity.
Defined.

Lemma on_byte_record (c : ascii) (st : Peer.state) :
  Peer.record (Peer.on_byte c st) = xorb (Peer.record st) (Ascii.eqb c "x") /\
  (Ascii.eqb c "x" = true -> leds (Peer.on_byte c st) = leds st).
Proof.
  unfold Peer.on_byte, leds. destruct (Ascii.eqb c "x"); cbn.
  - split; [by destruct (Peer.record st)|done].
  - split; [|discriminate].
    destruct (Ascii.eqb c "a"), (Ascii.eqb c "b"), (Ascii.eqb c "c"),
      (Ascii.eqb c "d"); cbn; by destruct (Peer.record st).
Qed.

Lemma on_bytes_record (pending : string) :
  forall st, Peer.record (Peer.on_bytes pending st)
             = xorb (Peer.record st) (toggles pending).
Proof.
  induction pending as [|c pending IH]; intros st; cbn [Peer.on_bytes toggles].
  - by destruct (Peer.record st).
  - rewrite IH. destruct (on_byte_record c st) as [-> _].
    by rewrite xorb_assoc.
Qed.

(** X15. Record mode is a parity: after one turn of [loop()] the board
    records exactly when its previous mode, the button click and the
    number of 'x' bytes received add up to an odd count, whatever other
    bytes arrived; the turn then prints all of its samples, and otherwise
    none of them. *)
Theorem loop_record_is_a_parity
    (clicked : bool) (pending : string) (samples : list Z) (st : Peer.state) :
  let (st', printed) := Peer.loop clicked pending samples st in
  Peer.record st' = xorb (xorb (Peer.record st) clicked) (toggles pending) /\
  printed = if xorb (xorb (Peer.record st) clicked) (toggles pending)
            then samples else [].
Proof.
  unfold Peer.loop. rewrite on_bytes_record.
  destruct clicked; cbn [Peer.record].
  - replace (xorb (Peer.record st) true) with (negb (Peer.record st))
      by (by destruct (Peer.record st)).
    done.
  - replace (xorb (Peer.record st) false) with (Peer.record st)
      by (by destruct (Peer.record st)).
    done.
Qed.

(** ** The recognition mask *)

(** X16. What the mask asks of 'neutral': with the mask
    [1, 30000, 40000, 500] a round decides 'neutral' (command 'a')
    exactly when the neutral probability is at least 30000 times the
    happy one, 40000 times the surprise one and 500 times the unpleasant
    one; equality is enough, since the first index wins a tie. *)
Theorem neutral_needs_to_outweigh_the_mask (p0 p1 p2 p3 : Q) (w : world) :
  fst (decide_dispatch [p0; p1; p2; p3] RECOG_MASK w) = Return ("neutral", "a")
  <->
  ((30000 # 1) * p1 <= p0 /\ (40000 # 1) * p2 <= p0 /\ (500 # 1) * p3 <= p0)%Q.
Proof.
  destruct (decide_dispatch_four [p0; p1; p2; p3] RECOG_MASK eq_refl eq_refl)
    as (idx & emotion & command & top & _ & Hemo & Hcmd & Htop & Hmax & Hrun).
  rewrite Hrun. cbn [fst].
  assert (H0 := Hmax 0 _ eq_refl). assert (H1 := Hmax 1 _ eq_refl).
  assert (H2 := Hmax 2 _ eq_refl). assert (H3 := Hmax 3 _ eq_refl).
  cbn beta in H0, H1, H2, H3.
  destruct idx as [|[|[|[|idx]]]]; try discriminate Hemo;
    injection Hemo as <-; injection Hcmd as <-; injection Htop as <-.
  - split; [intros _|reflexivity].
    destruct H1 as [H1 _], H2 as [H2 _], H3 as [H3 _]. repeat split; lra.
  - split; [discriminate|]. intros (C1 & C2 & C3).
    destruct H0 as [_ H0]. specialize (H0 ltac:(lia)). lra.
  - split; [discriminate|]. intros (C1 & C2 & C3).
    destruct H0 as [_ H0]. specialize (H0 ltac:(lia)). lra.
  - split; [discriminate|]. intros (C1 & C2 & C3).
    destruct H0 as [_ H0]. specialize (H0 ltac:(lia)). lra.
Qed.





(** ** A whole session *)

Lemma is_float64_proper (x y : Q) : (x == y)%Q -> is_float64 x -> is_float64 y.
Proof.
  unfold is_float64. intros H Hx.
  by rewrite <- (to_float64_proper x y H), <- (Qred_complete x y H).
Qed.

Lemma width_of_exact (a b : Z) :
  exact_in_float64 a -> exact_in_float64 b ->
  (inject_Z a - inject_Z b <= pow2 1022)%Q.
Proof.
  unfold exact_in_float64. change (2 ^ 53)%Z with 9007199254740992%Z.
  intros Ha Hb. apply Qle_trans with (inject_Z 18014398509481984).
  - unfold Qminus. rewrite <- inject_Z_opp, <- inject_Z_plus, <- Zle_Qle. lia.
  - apply Qle_closed. vm_compute. reflexivity.
Qed.

(** X18. Calibration followed by a round: when the calibration heard
    integers below [2^53] in magnitude (which float64 holds exactly, as
    it does every 16-bit sample of the board), at least two different
    values among them, and every sample of the round lies between two
    values that the calibration heard, the round completes and every
    entry of its window is a number of [-1, 1]. *)
Theorem session_window_within_unit_range
    (show : f64 -> f64 -> string) (extract_and_infer : list f64 -> list Q)
    (clines rlines rest : list string) (craws rraws : list Z) (w : world) :
  (forall data, length (extract_and_infer data) = 4) ->
  rx w = clines ++ rlines ++ rest ->
  map sample_of clines = map Some craws ->
  Forall exact_in_float64 craws ->
  length craws = TUNING_SIZE ->
  map sample_of rlines = map Some rraws ->
  length rraws = BUFFER_SIZE - OVERLAPPED ->
  (exists a b, a ∈ craws /\ b ∈ craws /\ (a < b)%Z) ->
  Forall (fun r => exists a b, a ∈ craws /\ b ∈ craws /\ (a <= r <= b)%Z) rraws ->
  exists hi lo w1 data w2,
    calibrate show w = (Return (Fin hi, Fin lo), w1) /\
    tflite_round hi lo extract_and_infer w1 = (Return data, w2) /\
    rx w2 = rest /\
    length data = BUFFER_SIZE /\
    forall j x, data !! j = Some x -> exists q, x = Fin q /\ (-1 <= q <= 1)%Q.
Proof.
  intros Hinfer Hrx Hcmap Hexact Hclen Hrmap Hrlen (a & b & Ha & Hb & Hab) Hbetween.
  destruct (calibrate_clean show clines (rlines ++ rest) craws w Hrx Hcmap
              Hexact Hclen)
    as (hi & lo & w1 & Hcal & Hrx1 & _ & Hbounds & (rh & Hrh & Ehi) & (rl & Hrl & Elo)).
  rewrite Forall_forall in Hbounds, Hexact, Hbetween.
  assert (Hlt : (lo < hi)%Q).
  { destruct (Hbounds a Ha) as [Hla _]. destruct (Hbounds b Hb) as [_ Hbh].
    assert (inject_Z a < inject_Z b)%Q by (by rewrite <- Zlt_Qlt). lra. }
  assert (Hhi : is_float64 hi).
  { apply (is_float64_proper (inject_Z rh)); [by symmetry|].
    apply is_float64_Z, Hexact, Hrh. }
  assert (Hlo : is_float64 lo).
  { apply (is_float64_proper (inject_Z rl)); [by symmetry|].
    apply is_float64_Z, Hexact, Hrl. }
  assert (Hwidth : (hi - lo <= pow2 1022)%Q).
  { rewrite Ehi, Elo. apply width_of_exact; by apply Hexact. }
  assert (Hconv : Forall convertible rraws).
  { apply Forall_forall. intros r Hr.
    destruct (Hbetween r Hr) as (a' & b' & Ha' & Hb' & Har & Hrb).
    apply convertible_small.
    pose proof (Hexact a' Ha') as Ea. pose proof (Hexact b' Hb') as Eb.
    unfold exact_in_float64 in Ea, Eb. lia. }
  destruct (tflite_round_clean hi lo extract_and_infer rlines rest rraws w1
              Hinfer Hrx1 Hrmap Hconv Hrlen) as (w2 & Hround & Hrx2).
  pose proof OVERLAPPED_le_BUFFER_SIZE as Hle.
  exists hi, lo, w1. eexists. exists w2.
  split; [exact Hcal|]. split; [exact Hround|]. split; [exact Hrx2|]. split.
  { rewrite length_app, length_np_zeros, length_map. lia. }
  intros j x Hj. apply lookup_app_Some in Hj as [Hj|[_ Hj]].
  - unfold np_zeros in Hj. apply lookup_replicate in Hj as [-> _].
    exists 0%Q. split; [reflexivity|]. split; discriminate.
  - rewrite list_lookup_fmap in Hj.
    destruct (rraws !! (j - length (np_zeros OVERLAPPED))) as [r|] eqn:Er;
      [|discriminate]. injection Hj as <-.
    destruct (Hbetween r) as (a' & b' & Ha' & Hb' & Har & Hrb).
    { by eapply list_elem_of_lookup_2. }
    destruct (Hbounds a' Ha') as [Hla _]. destruct (Hbounds b' Hb') as [_ Hbh].
    apply calibrated_in_range; [exact Hhi|exact Hlo|exact Hlt|exact Hwidth|].
    assert (inject_Z a' <= inject_Z r)%Q by (by rewrite <- Zle_Qle).
    assert (inject_Z r <= inject_Z b')%Q by (by rewrite <- Zle_Qle).
    split; lra.
Qed.

Lemma session_window_within_unit_range_witness :
  let show := fun _ _ : f64 => "range" in
  let infer := fun _ : list f64 => [1; 0; 0; 0]%Q in
  let clines := replicate 1 ("-553" +:+ crlf)
                ++ replicate (TUNING_SIZE - 1) ("839" +:+ crlf) in
  let rlines := replicate (BUFFER_SIZE - OVERLAPPED) ("0" +:+ crlf) in
  exists hi lo w1 data w2,
    calibrate show (World (clines ++ rlines ++ []) [] [])
      = (Return (Fin hi, Fin lo), w1) /\
    tflite_round hi lo infer w1 = (Return data, w2) /\
    rx w2 = [] /\
    length data = BUFFER_SIZE /\
    forall j x, data !! j = Some x -> exists q, x = Fin q /\ (-1 <= q <= 1)%Q.
Proof.
  intros show infer clines rlines.
  apply (session_window_within_unit_range show infer clines rlines []
           (replicate 1 (-553)%Z ++ replicate (TUNING_SIZE - 1) 839%Z)
           (replicate (BUFFER_SIZE - OVERLAPPED) 0%Z)
           (World (clines ++ rlines ++ []) [] [])).
  - intros data. reflexivity.
  - reflexivity.
  - unfold clines. rewrite !map_app.
    rewrite (sample_of_replicate 1 ("-553" +:+ crlf) (-553)) by reflexivity.
    rewrite (sample_of_replicate (TUNING_SIZE - 1) ("839" +:+ crlf) 839)
      by reflexivity.
    reflexivity.
  - apply Forall_app. split; apply Forall_replicate; reflexivity.
  - rewrite length_app, !length_replicate. unfold TUNING_SIZE. lia.
  - apply sample_of_replicate. reflexivity.
  - apply length_replicate.
  - exists (-553)%Z, 839%Z. split; [|split; [|lia]].
    + apply elem_of_app. left. by left.
    + apply elem_of_app. right. apply elem_of_replicate.
      split; [reflexivity|]. unfold TUNING_SIZE. lia.
  - apply Forall_replicate. exists (-553)%Z, 839%Z. split; [|split; [|lia]].
    + apply elem_of_app. left. by left.
    + apply elem_of_app. right. apply elem_of_replicate.
      split; [reflexivity|]. unfold TUNING_SIZE. lia.
Defined.

(** ** Reading without normalisation always completes *)

Lemma read_sample_raw_total (overlapping max_attempts i : nat)
    (buffer : list f64) (w : world) :
  Forall ascii_line (rx w) -> i + overlapping < length buffer ->
  exists buffer' w',
    read_sample overlapping None max_attempts i buffer w
      = (Return buffer', w') /\
    length buffer' = length buffer /\
    Forall ascii_line (rx w') /\ tx w' = tx w.
Proof.
  intros Hall Hidx. unfold read_sample.
  destruct (read_token_total (max_attempts - 1) w Hall)
    as (tok & w1 & Hread & Hall1 & Htx1).
  unfold bind at 1. rewrite Hread. unfold bind at 1, ret at 1.
  unfold setitem. apply Nat.ltb_lt in Hidx. rewrite Hidx.
  destruct (py_float tok) as [x|].
  - eexists. eexists. split; [reflexivity|].
    split; [apply length_insert|done].
  - eexists. eexists. split; [reflexivity|]. done.
Qed.

Lemma for_range_raw_total (overlapping max_attempts : nat) (n : nat) :
  forall (i : nat) (buffer : list f64) (w : world),
  Forall ascii_line (rx w) ->
  n = 0 \/ i + overlapping + n <= length buffer ->
  exists buffer' w',
    for_range n i (read_sample overlapping None max_attempts) buffer w
      = (Return buffer', w') /\
    length buffer' = length buffer /\ tx w' = tx w.
Proof.
  induction n as [|n IH]; intros i buffer w Hall Hlen.
  - exists buffer, w. done.
  - destruct (read_sample_raw_total overlapping max_attempts i buffer w Hall)
      as (b1 & w1 & Hstep & Hlen1 & Hall1 & Htx1); [lia|].
    destruct (IH (S i) b1 w1 Hall1) as (b2 & w2 & Hloop & Hlen2 & Htx2);
      [destruct n; [by left|right; lia]|].
    exists b2, w2. cbn [for_range]. unfold bind at 1. rewrite Hstep.
    split; [exact Hloop|]. split; congruence.
Qed.

(** X19. Without normalisation nothing that an ASCII port delivers can
    stop the reading: a refill of slots that exist returns a buffer of
    the same length, and the calibration always returns a range, without
    writing to the port (a token that is no number only leaves its slot
    as it was). *)
Theorem raw_reading_always_completes (show : f64 -> f64 -> string)
    (buffer : list f64) (buffer_size overlapping max_attempts : nat)
    (w : world) :
  Forall ascii_line (rx w) ->
  (buffer_size <= length buffer ->
   exists buffer' w',
     arduino_read buffer buffer_size overlapping None max_attempts w
       = (Return buffer', w') /\
     length buffer' = length buffer /\ tx w' = tx w) /\
  exists hi lo w',
    calibrate show w = (Return (hi, lo), w') /\ tx w' = tx w.
Proof.
  intros Hall. split.
  - intros Hsize. unfold arduino_read.
    destruct (for_range_raw_total overlapping max_attempts
                (buffer_size - overlapping) 0 (np_roll buffer overlapping) w Hall)
      as (b' & w' & Hloop & Hlen & Htx).
    { rewrite length_np_roll. lia. }
    exists b', w'. split; [exact Hloop|].
    split; [by rewrite Hlen, length_np_roll|exact Htx].
  - destruct (for_range_raw_total 0 DEFAULT_MAX_ATTEMPTS (TUNING_SIZE - 0) 0
                (np_roll (np_zeros TUNING_SIZE) 0)
                (World (rx w) (tx w) (stdout w ++ [Message CALIBRATING])) Hall)
      as (data & w1 & Hloop & Hlen & Htx).
    { right. rewrite length_np_roll, length_np_zeros. lia. }
    rewrite length_np_roll, length_np_zeros in Hlen.
    destruct TUNING_SIZE_pos as [n Hn]. rewrite Hn in Hlen.
    destruct data as [|x data]; [discriminate|].
    eexists. eexists. eexists. split.
    + unfold calibrate. unfold bind at 1, print at 1. unfold bind at 1.
      unfold arduino_read. cbv zeta. rewrite Hloop.
      unfold bind, lift, print, ret, py_max, py_min. reflexivity.
    + exact Htx.
Qed.

Lemma raw_reading_always_completes_witness :
  let w := World ["abc" +:+ crlf; "12" +:+ crlf] ["x"] [] in
  (2 <= length [Fin 0; Fin 0] ->
   exists buffer' w',
     arduino_read [Fin 0; Fin 0] 2 0 None 10 w = (Return buffer', w') /\
     length buffer' = length [Fin 0; Fin 0] /\ tx w' = tx w) /\
  exists hi lo w',
    calibrate (fun _ _ => "range") w = (Return (hi, lo), w') /\ tx w' = tx w.
Proof.
  intros w.
  apply (raw_reading_always_completes (fun _ _ => "range") [Fin 0; Fin 0] 2 0 10 w).
  repeat constructor.
Defined.
